(** * Klyph: scripts/download_fonts.py

    A shallow embedding of the font downloader script and the proofs of its
    specified properties.

    Python [str] values are modelled as lists of characters ([list ascii]);
    a character is a code point in the range 0..255, so the character
    predicates below are the ones of Python restricted to that range.
    Byte strings are lists of [byte].  The [re] module is modelled by a
    small backtracking matcher that covers the constructs the script's
    five patterns use. *)

From Stdlib Require Import ZArith NArith Ascii String List Lia.
From stdpp Require Import gmap strings list.

Local Open Scope list_scope.

Abbreviation str := (list ascii).
Abbreviation bytes := (list Byte.byte).

Notation "$ s" := (list_ascii_of_string s%string)
  (at level 1, s at level 0, format "$ s").

(** ** Python strings *)

Module PyStr.

Definition code (c : ascii) : N := N_of_ascii c.

Definition in_range (lo hi c : ascii) : bool :=
  ((code lo <=? code c) && (code c <=? code hi))%N.

Definition is_char (x c : ascii) : bool := Ascii.eqb x c.

(** [str.isspace] on one character, which is also what [\s] matches in a
    [str] pattern: TAB..CR, FS..US, space, NEL and NBSP. *)
Definition isspace (c : ascii) : bool :=
  let n := code c in
  ((9 <=? n) && (n <=? 13) || (28 <=? n) && (n <=? 32)
   || (n =? 133) || (n =? 160))%N.

(** [str.isalpha] on one character. *)
Definition isalpha (c : ascii) : bool :=
  let n := code c in
  ((65 <=? n) && (n <=? 90) || (97 <=? n) && (n <=? 122)
   || (n =? 170) || (n =? 181) || (n =? 186)
   || (192 <=? n) && (n <=? 214) || (216 <=? n) && (n <=? 246)
   || (248 <=? n) && (n <=? 255))%N.

(** [str.lower] on one character: A..Z and the upper-case letters of the
    upper half (all of 192..222 but the multiplication sign) move by 32. *)
Definition lower_char (c : ascii) : ascii :=
  let n := code c in
  if ((65 <=? n) && (n <=? 90)
      || (192 <=? n) && (n <=? 222) && negb (n =? 215))%N
  then ascii_of_N (n + 32) else c.

(** [str.upper] on one character of the ASCII range.  The script applies
    [upper] only to the first character of a fragment matched by
    [0-9A-Za-z]. *)
Definition upper_char (c : ascii) : ascii :=
  let n := code c in
  if ((97 <=? n) && (n <=? 122))%N then ascii_of_N (n - 32) else c.

Definition lower (s : str) : str := map lower_char s.
Definition upper (s : str) : str := map upper_char s.

Fixpoint lstrip_with (p : ascii -> bool) (s : str) : str :=
  match s with
  | c :: s' => if p c then lstrip_with p s' else s
  | [] => []
  end.

Definition rstrip_with (p : ascii -> bool) (s : str) : str :=
  rev (lstrip_with p (rev s)).

(** [s.strip()] *)
Definition strip (s : str) : str := rstrip_with isspace (lstrip_with isspace s).

(** [s.startswith(q)] and [s.endswith(q)] for a one-character [q]. *)
Definition startswith (q : ascii) (s : str) : bool :=
  match s with c :: _ => is_char q c | [] => false end.

Definition endswith (q : ascii) (s : str) : bool :=
  match last s with Some c => is_char q c | None => false end.

(** Slices [s[i:j]]: a negative index counts from the end, an absent one is
    the start or the end, and both are clamped to the string. *)
Definition slice_index (len : nat) (dflt : Z) (i : option Z) : nat :=
  match i with
  | None => Z.to_nat dflt
  | Some z =>
      let z' := if (z <? 0)%Z then (z + Z.of_nat len)%Z else z in
      Z.to_nat (Z.max 0 (Z.min z' (Z.of_nat len)))
  end.

Definition slice (i j : option Z) (s : str) : str :=
  let len := length s in
  let a := slice_index len 0 i in
  let b := slice_index len (Z.of_nat len) j in
  take (b - a) (drop a s).

(** [sep.join(parts)] *)
Fixpoint join (sep : str) (parts : list str) : str :=
  match parts with
  | [] => []
  | [p] => p
  | p :: ps => p ++ sep ++ join sep ps
  end.

(** [c in s] and [s.find(c)], [s.rfind(c)] for a one-character [c]. *)
Definition contains (c : ascii) (s : str) : bool := existsb (is_char c) s.

Fixpoint find (c : ascii) (s : str) : option nat :=
  match s with
  | [] => None
  | x :: s' => if is_char c x then Some 0 else S <$> find c s'
  end.

Fixpoint rfind (c : ascii) (s : str) : option nat :=
  match s with
  | [] => None
  | x :: s' =>
      match rfind c s' with
      | Some i => Some (S i)
      | None => if is_char c x then Some 0 else None
      end
  end.

End PyStr.

Import PyStr.

#[global] Arguments is_char : simpl never.
#[global] Arguments in_range : simpl never.
#[global] Arguments isspace : simpl never.
#[global] Arguments isalpha : simpl never.
#[global] Arguments lower_char : simpl never.
#[global] Arguments upper_char : simpl never.

(** ** The [re] module *)

Module Re.

(** A compiled pattern is a sequence of items.  [One p] is a literal or a
    character class, [Many p] is the greedy [p*], [Many1 p] the greedy [p+],
    and [Mark] stands for either parenthesis of a capturing group.  The
    script's patterns use nothing else. *)
Inductive item :=
  | One (p : ascii -> bool)
  | Many (p : ascii -> bool)
  | Many1 (p : ascii -> bool)
  | Mark.

Definition pattern := list item.

(** Greedy repetition with backtracking: take as many characters as
    possible, and give one back each time the rest of the pattern fails. *)
Fixpoint many {R} (p : ascii -> bool) (k : str -> option R) (s : str) : option R :=
  match s with
  | c :: s' =>
      if p c then
        match many p k s' with
        | Some r => Some r
        | None => k s
        end
      else k s
  | [] => k s
  end.

(** [mtch pat s] matches [pat] at the start of [s].  The result is the text
    that remains at each mark, in order, and the text that remains after the
    match. *)
Fixpoint mtch (pat : pattern) (s : str) : option (list str * str) :=
  match pat with
  | [] => Some ([], s)
  | One p :: pat' =>
      match s with
      | c :: s' => if p c then mtch pat' s' else None
      | [] => None
      end
  | Many p :: pat' => many p (mtch pat') s
  | Many1 p :: pat' =>
      match s with
      | c :: s' => if p c then many p (mtch pat') s' else None
      | [] => None
      end
  | Mark :: pat' =>
      match mtch pat' s with
      | Some (ms, e) => Some (s :: ms, e)
      | None => None
      end
  end.

(** The text between two positions given by what remains at each. *)
Definition between (from to : str) : str := take (length from - length to) from.

(** The groups of a match: marks come in pairs. *)
Fixpoint groups (marks : list str) : list str :=
  match marks with
  | o :: c :: ms => between o c :: groups ms
  | _ => []
  end.

(** [search pat s]: the leftmost match, with the text skipped before it. *)
Fixpoint search (pat : pattern) (s : str) : option (str * list str * str) :=
  match mtch pat s with
  | Some (ms, e) => Some ([], ms, e)
  | None =>
      match s with
      | [] => None
      | c :: s' =>
          match search pat s' with
          | Some (pre, ms, e) => Some (c :: pre, ms, e)
          | None => None
          end
      end
  end.

(** The successive non-overlapping matches, each with the text between it
    and the previous one, and the text after the last match.  Every pattern
    of the script consumes at least one character (see [consuming]), so the
    number of matches is at most the length of the text; the rule of [re]
    for empty matches is not needed and not modelled. *)
Fixpoint finditer_fuel (fuel : nat) (pat : pattern) (s : str)
  : list (str * list str) * str :=
  match fuel with
  | 0 => ([], s)
  | S fuel' =>
      match search pat s with
      | None => ([], s)
      | Some (pre, ms, e) =>
          let '(l, t) := finditer_fuel fuel' pat e in
          ((pre, groups ms) :: l, t)
      end
  end.

Definition finditer (pat : pattern) (s : str) : list (str * list str) * str :=
  finditer_fuel (S (length s)) pat s.

(** [pat.findall(s)] for a pattern with one group, and with two. *)
Definition findall1 (pat : pattern) (s : str) : list str :=
  map (fun m => default [] (head (snd m))) (fst (finditer pat s)).

Definition findall2 (pat : pattern) (s : str) : list (str * str) :=
  map (fun m => (default [] (snd m !! 0), default [] (snd m !! 1)))
      (fst (finditer pat s)).

(** [re.sub(pat, repl, s)] for a replacement without group references. *)
Definition sub (pat : pattern) (repl : str) (s : str) : str :=
  let '(l, t) := finditer pat s in
  concat (map (fun m => fst m ++ repl) l) ++ t.

(** [re.split(pat, s)] for a pattern without groups. *)
Definition split (pat : pattern) (s : str) : list str :=
  let '(l, t) := finditer pat s in
  map fst l ++ [t].

(** A literal under [re.IGNORECASE]. *)
Definition lit_ci (x : ascii) : item :=
  One (fun c => is_char (lower_char x) (lower_char c)).

Definition lit (x : ascii) : item := One (is_char x).

(** A pattern consumes when no match of it is empty. *)
Definition consuming (pat : pattern) : bool :=
  existsb (fun i => match i with One _ | Many1 _ => true | _ => false end) pat.

End Re.

Import Re.

(** ** The script *)

(** [FONT_FACE_RE]: the text [@font-face], white space [\s*], an opening
    brace, the group [[^}]*] of all characters up to a closing brace, and that
    brace; compiled with [re.DOTALL | re.IGNORECASE]. *)
Definition FONT_FACE_RE : pattern :=
  map lit_ci $"@font-face"
  ++ [Many isspace; lit_ci "{"; Mark; Many (fun c => negb (is_char "}" c)); Mark;
      lit_ci "}"].

(** [PROP_RE], the pattern [([a-zA-Z-]+)\s*:\s*([^;]+);]: the group of one
    or more letters and hyphens, white space, a colon, white space, the group
    of one or more characters other than a semicolon, and a semicolon;
    compiled with [re.IGNORECASE]. *)
Definition PROP_RE : pattern :=
  [Mark;
   Many1 (fun c => in_range "a" "z" c || in_range "A" "Z" c || is_char "-" c);
   Mark; Many isspace; lit_ci ":"; Many isspace;
   Mark; Many1 (fun c => negb (is_char ";" c)); Mark; lit_ci ";"].

(** [URL_RE], the pattern [url\(([^)]+)\)]: the text [url] and an opening
    parenthesis, the group of one or more characters other than a closing
    parenthesis, and a closing parenthesis; compiled with [re.IGNORECASE]. *)
Definition URL_RE : pattern :=
  map lit_ci $"url("
  ++ [Mark; Many1 (fun c => negb (is_char ")" c)); Mark; lit_ci ")"].

Definition dquote : ascii := ascii_of_nat 34.
Definition squote : ascii := ascii_of_nat 39.

Definition clean_value (value : str) : str :=
  let value := strip value in
  if (startswith dquote value && endswith dquote value)
     || (startswith squote value && endswith squote value)
  then slice (Some 1%Z) (Some (-1)%Z) value
  else value.

Definition parse_props (block : str) : gmap str str :=
  fold_left (fun props nv => <[lower (strip (fst nv)) := strip (snd nv)]> props)
            (findall2 PROP_RE block) ∅.

Definition parse_font_faces (css_text : str) : list (gmap str str) :=
  map parse_props (findall1 FONT_FACE_RE css_text).

(** [not v] for an optional string: [None] and the empty string are false. *)
Definition falsy (v : option str) : bool :=
  match v with None | Some [] => true | _ => false end.

Definition pick_url (src_value : option str) : option str :=
  if falsy src_value then None
  else
    match findall1 URL_RE (default [] src_value) with
    | [] => None
    | u :: _ => Some (clean_value u)
    end.

Definition parse_weight (value : option str) : str :=
  if falsy value then $"normal"
  else lower (strip (clean_value (default [] value))).

Definition parse_style (value : option str) : str :=
  if falsy value then $"normal"
  else lower (strip (clean_value (default [] value))).

Definition parse_unicode_ranges (value : option str) : str :=
  if falsy value then []
  else strip (clean_value (default [] value)).

Definition ident_char (c : ascii) : bool :=
  in_range "0" "9" c || in_range "A" "Z" c || in_range "a" "z" c || is_char "_" c.

Definition alnum_char (c : ascii) : bool :=
  in_range "0" "9" c || in_range "A" "Z" c || in_range "a" "z" c.

Definition to_valid_identifier (name : str) : str :=
  let safe := sub [One (fun c => negb (ident_char c))] $"_" name in
  match safe with
  | [] => $"_" ++ safe
  | c :: _ => if negb (isalpha c || is_char "_" c) then $"_" ++ safe else safe
  end.

Definition to_pascal_case (name : str) : str :=
  let parts := split [Many1 (fun c => negb (alnum_char c))] name in
  let parts := filter (fun p => p <> []) parts in
  match parts with
  | [] => $"_"
  | _ =>
      let out :=
        concat (map (fun p => upper (slice None (Some 1%Z) p)
                              ++ slice (Some 1%Z) None p) parts) in
      to_valid_identifier out
  end.

(** ** [hashlib.sha1] *)

Module Sha1.

Local Open Scope Z_scope.

Definition w32 (x : Z) : Z := x mod 2 ^ 32.

Definition rotl (n x : Z) : Z :=
  w32 (Z.lor (Z.shiftl x n) (Z.shiftr x (32 - n))).

(** The length in bits, as eight bytes, most significant first. *)
Definition be64 (n : Z) : list Z :=
  map (fun i => Z.land (Z.shiftr n (8 * i)) 255) [7; 6; 5; 4; 3; 2; 1; 0].

(** The message, the byte 0x80, zero bytes up to 56 modulo 64, the length. *)
Definition pad (msg : bytes) : list Z :=
  let l := Z.of_nat (length msg) in
  map (fun b => Z.of_N (Byte.to_N b)) msg
  ++ [128] ++ repeat 0 (Z.to_nat ((55 - l) mod 64)) ++ be64 (8 * l).

Fixpoint words (bs : list Z) : list Z :=
  match bs with
  | b0 :: b1 :: b2 :: b3 :: r =>
      (Z.shiftl b0 24 + Z.shiftl b1 16 + Z.shiftl b2 8 + b3) :: words r
  | _ => []
  end.

(** The message schedule: sixteen words extended to eighty. *)
Fixpoint extend (n : nat) (w : list Z) : list Z :=
  match n with
  | O => w
  | S n' =>
      let t := length w in
      let g k := nth (t - k) w 0 in
      extend n' (w ++ [rotl 1 (Z.lxor (Z.lxor (g 3%nat) (g 8%nat))
                                      (Z.lxor (g 14%nat) (g 16%nat)))])
  end.

Definition hstate : Type := Z * Z * Z * Z * Z.

Definition round (st : hstate) (tw : nat * Z) : hstate :=
  let '(a, b, c, d, e) := st in
  let '(t, w) := tw in
  let '(f, k) :=
    if (t <? 20)%nat then
      (Z.lor (Z.land b c) (Z.land (Z.lxor b 4294967295) d), 1518500249)
    else if (t <? 40)%nat then
      (Z.lxor (Z.lxor b c) d, 1859775393)
    else if (t <? 60)%nat then
      (Z.lor (Z.lor (Z.land b c) (Z.land b d)) (Z.land c d), 2400959708)
    else
      (Z.lxor (Z.lxor b c) d, 3395469782) in
  (w32 (rotl 5 a + f + e + k + w), a, rotl 30 b, c, d).

Definition compress (h : hstate) (block : list Z) : hstate :=
  let w := extend 64 block in
  let '(a, b, c, d, e) := fold_left round (combine (seq 0 80) w) h in
  let '(h0, h1, h2, h3, h4) := h in
  (w32 (h0 + a), w32 (h1 + b), w32 (h2 + c), w32 (h3 + d), w32 (h4 + e)).

Fixpoint blocks (n : nat) (h : hstate) (ws : list Z) : hstate :=
  match n with
  | O => h
  | S n' => blocks n' (compress h (take 16 ws)) (drop 16 ws)
  end.

Definition digest (msg : bytes) : hstate :=
  let ws := words (pad msg) in
  blocks (length ws / 16) (1732584193, 4023233417, 2562383102, 271733878, 3285377520) ws.

Definition hexdigit (n : Z) : ascii :=
  nth (Z.to_nat n) $"0123456789abcdef" "0"%char.

Definition hex32 (x : Z) : str :=
  map (fun i => hexdigit (Z.land (Z.shiftr x (4 * i)) 15)) [7; 6; 5; 4; 3; 2; 1; 0].

Definition hexdigest (msg : bytes) : str :=
  let '(h0, h1, h2, h3, h4) := digest msg in
  hex32 h0 ++ hex32 h1 ++ hex32 h2 ++ hex32 h3 ++ hex32 h4.

End Sha1.

Definition sha1_hex (data : bytes) : str := Sha1.hexdigest data.

(** ** [urllib.parse.urlparse] and [pathlib.Path.suffix] *)

Module UrlLib.

Definition C0_CONTROL_OR_SPACE (c : ascii) : bool := (code c <=? 32)%N.

Definition UNSAFE_URL_BYTE (c : ascii) : bool :=
  (code c =? 9)%N || (code c =? 13)%N || (code c =? 10)%N.

Definition scheme_char (c : ascii) : bool :=
  in_range "a" "z" c || in_range "A" "Z" c || in_range "0" "9" c
  || is_char "+" c || is_char "-" c || is_char "." c.

Definition ascii_alpha (c : ascii) : bool :=
  in_range "a" "z" c || in_range "A" "Z" c.

Definition uses_params : list str :=
  [ $""; $"ftp"; $"hdl"; $"prospero"; $"http"; $"imap"; $"https"; $"shttp";
    $"rtsp"; $"rtspu"; $"sip"; $"sips"; $"mms"; $"sftp"; $"tel" ].

(** The text before the first character satisfying [p] (all of it when there
    is none), and the text from that character on. *)
Fixpoint break_at (p : ascii -> bool) (s : str) : str * str :=
  match s with
  | [] => ([], [])
  | c :: s' =>
      if p c then ([], s)
      else let '(a, b) := break_at p s' in (c :: a, b)
  end.

(** [_splitnetloc(url, 2)]: the text after the two slashes up to the first of
    [/], [?] and [#]. *)
Definition splitnetloc (url : str) : str * str :=
  break_at (fun c => is_char "/" c || is_char "?" c || is_char "#" c) (drop 2 url).

(** The scheme, when the text before the first colon is a scheme. *)
Definition split_scheme (url : str) : str * str :=
  match find ":" url, url with
  | Some (S i), c :: _ =>
      if ascii_alpha c && forallb scheme_char (take (S i) url)
      then (lower (take (S i) url), drop (S (S i)) url)
      else ([], url)
  | _, _ => ([], url)
  end.

(** [_splitparams(url)[0]] *)
Definition splitparams (url : str) : str :=
  match rfind "/" url with
  | Some k =>
      match find ";" (drop k url) with
      | Some i => take (k + i) url
      | None => url
      end
  | None =>
      match find ";" url with
      | Some i => take i url
      | None => url
      end
  end.

Section Parse.

(** The checks [urlsplit] makes on a network location (brackets of an IPv6
    literal, characters that normalise to delimiters) belong to the library
    and differ between its versions: they are a parameter.  [urlsplit]
    raises [ValueError] when they fail. *)
Variable netloc_valid : str -> bool.

(** The network location and what follows it, when the text starts with
    two slashes, and whether the location passes the checks. *)
Definition split_netloc (url : str) : str * str * bool :=
  match url with
  | c1 :: c2 :: _ =>
      if is_char "/" c1 && is_char "/" c2
      then let '(n, r) := splitnetloc url in (n, r, netloc_valid n)
      else ([], url, true)
  | _ => ([], url, true)
  end.

(** The text before the fragment and the query. *)
Definition drop_fragment_query (url : str) : str :=
  fst (break_at (is_char "?") (fst (break_at (is_char "#") url))).

(** The leading control characters and spaces go, then every tab, carriage
    return and line feed. *)
Definition clean_url (url : str) : str :=
  filter (fun c => UNSAFE_URL_BYTE c = false) (lstrip_with C0_CONTROL_OR_SPACE url).

(** [urlsplit(url)]: scheme, network location and path, or [None] for
    [ValueError]. *)
Definition urlsplit (url : str) : option (str * str * str) :=
  let url := clean_url url in
  let '(scheme, url) := split_scheme url in
  let '(netloc, url, ok) := split_netloc url in
  let url := drop_fragment_query url in
  if ok then Some (scheme, netloc, url) else None.

(** [urlparse(url).path] *)
Definition urlparse_path (url : str) : option str :=
  match urlsplit url with
  | Some (scheme, _, path) =>
      if bool_decide (scheme ∈ uses_params) && contains ";" path
      then Some (splitparams path)
      else Some path
  | None => None
  end.

End Parse.

End UrlLib.

Module PathLib.

(** [s.split(sep)] for a one-character separator. *)
Fixpoint split_char (sep : ascii) (s : str) : list str :=
  match s with
  | [] => [[]]
  | c :: s' =>
      if is_char sep c then [] :: split_char sep s'
      else
        match split_char sep s' with
        | p :: ps => (c :: p) :: ps
        | [] => [[c]]
        end
  end.

(** [Path(p).name] on a POSIX system: the last of the components of [p] that
    are neither empty nor a single dot. *)
Definition name (p : str) : str :=
  default [] (last (filter (fun x => x <> [] /\ x <> $".") (split_char "/" p))).

(** [Path(p).suffix] *)
Definition suffix (p : str) : str :=
  let name := name p in
  match rfind "." name with
  | Some i => if (0 <? i) && (i <? length name - 1) then drop i name else []
  | None => []
  end.

End PathLib.

(** ** The main program *)

(** Exceptions that end a run: a failed fetch and a [ValueError] of the URL
    library. *)
Inductive exn :=
  | URLError (url : str)
  | ValueError.

Definition result (A : Type) : Type := exn + A.

Definition Ok {A} (x : A) : result A := inr x.
Definition Raise {A} (e : exn) : result A := inl e.

Definition bind {A B} (m : result A) (k : A -> result B) : result B :=
  match m with
  | inl e => inl e
  | inr x => k x
  end.

Definition or_raise {A} (e : exn) (o : option A) : result A :=
  match o with
  | Some x => Ok x
  | None => Raise e
  end.

Notation "'let*' x := m 'in' k" := (bind m (fun x => k))
  (at level 10, x name, m at level 100, k at level 200).

(** What a run takes as given: the network, and the two functions of
    [urllib.parse] whose results it uses as they are.  [None] stands for a
    raised exception. *)
Record Env := {
  fetch_text : str -> option str;
  fetch_bytes : str -> option bytes;
  urljoin : str -> str -> option str;
  netloc_valid : str -> bool
}.

Record Args := {
  css_url : str;
  out_dir : str;
  kotlin_out : str;
  res_package : str;
  kotlin_package : str
}.

Record Descriptor := {
  resource_name : str;
  family : str;
  weight : str;
  style : str;
  ranges : str
}.

#[global] Instance Descriptor_eq_dec : EqDecision Descriptor.
Proof. solve_decision. Defined.

(** The state of the loop over the faces: the descriptors so far, the files
    of the output directory by name, the calls of [write_bytes] and the
    URLs fetched, both in order.  The output directory exists once
    [out_dir.mkdir] has run, and every file name of the loop is an entry of
    it (see [filename_component]).  The file system is taken to accept what
    the run asks of it: [mkdir], [write_bytes] and [write_text] do not
    raise. *)
Record State := {
  descriptors : list Descriptor;
  files : gmap str bytes;
  written : list (str * bytes);
  requests : list str
}.

(** [Path(urllib.parse.urlparse(font_url).path).suffix or ".woff2"] *)
Definition font_ext (env : Env) (font_url : str) : result str :=
  let* path := or_raise ValueError (UrlLib.urlparse_path (netloc_valid env) font_url) in
  Ok (match PathLib.suffix path with
      | [] => $".woff2"
      | sfx => sfx
      end).

(** The name given to the resource of a font with hash [h]. *)
Definition resource_name_of (h : str) : str :=
  let resource_name := to_valid_identifier h in
  if negb (startswith "_" resource_name) then $"_" ++ resource_name
  else resource_name.

(** [target.exists()] and [target.write_bytes(data)] in the output
    directory. *)
Definition write_if_absent (filename : str) (data : bytes) (st : State) : State :=
  match files st !! filename with
  | Some _ => st
  | None =>
      {| descriptors := descriptors st;
         files := <[filename := data]> (files st);
         written := written st ++ [(filename, data)];
         requests := requests st |}
  end.

Definition fetched (url : str) (st : State) : State :=
  {| descriptors := descriptors st;
     files := files st;
     written := written st;
     requests := requests st ++ [url] |}.

Definition append_descriptor (d : Descriptor) (st : State) : State :=
  {| descriptors := descriptors st ++ [d];
     files := files st;
     written := written st;
     requests := requests st |}.

Definition descriptor_of (face : gmap str str) (resource_name : str) : Descriptor :=
  {| resource_name := resource_name;
     family := clean_value (default $"Unknown" (face !! $"font-family"));
     weight := parse_weight (face !! $"font-weight");
     style := parse_style (face !! $"font-style");
     ranges := parse_unicode_ranges (face !! $"unicode-range") |}.

(** The body of the loop [for face in faces]. *)
Definition process_face (env : Env) (css_url : str) (face : gmap str str)
    (st : State) : result State :=
  match pick_url (face !! $"src") with
  | None | Some [] => Ok st
  | Some font_url =>
      let* font_url := or_raise ValueError (urljoin env css_url font_url) in
      let* data := or_raise (URLError font_url) (fetch_bytes env font_url) in
      let st := fetched font_url st in
      let h := sha1_hex data in
      let* ext := font_ext env font_url in
      let resource_name := resource_name_of h in
      let filename := resource_name ++ ext in
      let st := write_if_absent filename data st in
      Ok (append_descriptor (descriptor_of face resource_name) st)
  end.

Fixpoint process_faces (env : Env) (css_url : str) (faces : list (gmap str str))
    (st : State) : result State :=
  match faces with
  | [] => Ok st
  | face :: faces' =>
      let* st := process_face env css_url face st in
      process_faces env css_url faces' st
  end.

(** [families.setdefault(d["family"], []).append(d)]: a [dict] keeps its
    keys in the order of their first insertion. *)
Fixpoint setdefault_append (families : list (str * list Descriptor))
    (d : Descriptor) : list (str * list Descriptor) :=
  match families with
  | [] => [(family d, [d])]
  | (k, items) :: rest =>
      if decide (k = family d) then (k, items ++ [d]) :: rest
      else (k, items) :: setdefault_append rest d
  end.

Definition group_families (ds : list Descriptor) : list (str * list Descriptor) :=
  fold_left setdefault_append ds [].

Definition descriptor_line (d : Descriptor) : str :=
  $"    ResourceFontDescriptor("
  ++ $"resource = Res.font." ++ resource_name d ++ $", "
  ++ $"fontFamily = " ++ [dquote] ++ family d ++ [dquote] ++ $", "
  ++ $"weight = " ++ [dquote] ++ weight d ++ [dquote] ++ $", "
  ++ $"style = " ++ [dquote] ++ style d ++ [dquote] ++ $", "
  ++ $"unicodeRanges = " ++ [dquote] ++ ranges d ++ [dquote]
  ++ $"),".

Definition provider_lines (fam : str * list Descriptor) : list str :=
  [ $"val " ++ to_pascal_case (fst fam) ++ $" = StaticFontDescriptorProvider(" ]
  ++ map descriptor_line (snd fam)
  ++ [ $")" ].

Definition package_lines (args : Args) : list str :=
  match kotlin_package args with
  | [] => []
  | pkg => [ $"package " ++ pkg; [] ]
  end.

Definition import_lines (args : Args) : list str :=
  [ $"import " ++ res_package args ++ $".Res";
    $"import " ++ res_package args ++ $".*";
    $"import xyz.hyli.klyph.ResourceFontDescriptor";
    $"import xyz.hyli.klyph.StaticFontDescriptorProvider";
    [] ].

Definition kotlin_lines (args : Args) (ds : list Descriptor) : list str :=
  package_lines args
  ++ import_lines args
  ++ concat (map provider_lines (group_families ds))
  ++ [ [] ].

Definition newline : ascii := ascii_of_nat 10.

(** What a run leaves behind: the state after the loop, the text written to
    the bindings file, and the number of descriptors the summary prints.
    The bindings file is written after the loop and is not one of the files
    the loop looks for. *)
Record Outcome := {
  final : State;
  kotlin_text : str;
  downloaded : nat
}.

Definition initial_state (args : Args) (fs : gmap str bytes) : State :=
  {| descriptors := []; files := fs; written := []; requests := [css_url args] |}.

(** [main()], run with the arguments [args] on an output directory that
    holds the files [fs]. *)
Definition main (env : Env) (args : Args) (fs : gmap str bytes) : result Outcome :=
  let* css_text := or_raise (URLError (css_url args)) (fetch_text env (css_url args)) in
  let faces := parse_font_faces css_text in
  let* st := process_faces env (css_url args) faces (initial_state args fs) in
  Ok {| final := st;
        kotlin_text := join [newline] (kotlin_lines args (descriptors st));
        downloaded := length (descriptors st) |}.

(** * Specifications

    The definitions the properties are stated with: what a scan of a pattern
    finds, the occurrences of the three patterns of the script in words, the
    sanitation and the fragments of names in words, the effect of the loop on
    the output directory, and sample runs. *)

Import UrlLib.

(** ** Scans *)

(** The two steps of a scan: a match at the start, and a start at which
    the pattern does not match.  With no match at the start, the first
    character joins the text skipped before the next match, or the text
    after the last one. *)
Definition skip_char (c : ascii) (r : list (str * list str) * str)
  : list (str * list str) * str :=
  match r with
  | ([], t) => ([], c :: t)
  | ((pre, g) :: l, t) => ((c :: pre, g) :: l, t)
  end.

(** [c] joins the first piece of a split. *)
Definition cons_head (c : ascii) (l : list str) : list str :=
  match l with
  | [] => [[c]]
  | p :: ps => (c :: p) :: ps
  end.

(** The occurrences found by a scan from left to right, for a relation
    [at_ b x rest] that says that an occurrence with value [x] starts the
    text [b] and leaves [rest]: each is the leftmost one in what the previous
    one left, and none starts in the text after the last one. *)
Inductive Leftmost {A : Type} (at_ : str -> A -> str -> Prop)
  : str -> list A -> Prop :=
  | Leftmost_end s :
      (forall a b, a ++ b = s -> forall x rest, ~ at_ b x rest) ->
      Leftmost at_ s []
  | Leftmost_cons pre b x rest xs :
      at_ b x rest ->
      (forall a1 a2, a1 ++ a2 = pre -> a2 <> [] ->
         forall x' rest', ~ at_ (a2 ++ b) x' rest') ->
      Leftmost at_ rest xs ->
      Leftmost at_ (pre ++ b) (x :: xs).

(** Text inside another text. *)
Definition part_of (r s : str) : Prop := exists pre post, s = pre ++ r ++ post.

(** ** Blocks and properties *)

Definition not_rbrace (c : ascii) : bool := negb (is_char "}" c).

(** The text starts with a block: [@font-face] in either case, white space,
    an opening brace, a body without closing brace, and a closing brace. *)
Definition face_at (b : str) (body rest : str) : Prop :=
  exists kw ws,
    b = kw ++ ws ++ "{"%char :: body ++ "}"%char :: rest /\
    lower kw = $"@font-face" /\
    forallb isspace ws = true /\
    forallb not_rbrace body = true.

(** The blocks of a text, from left to right. *)
Definition Blocks : str -> list str -> Prop := Leftmost face_at.

Definition name_char (c : ascii) : bool :=
  in_range "a" "z" c || in_range "A" "Z" c || is_char "-" c.

Definition not_semi (c : ascii) : bool := negb (is_char ";" c).

(** The text starts with a property: a name of letters and hyphens, white
    space, a colon, white space, a value without semicolon, and a semicolon.
    The value starts at the first character that is not white space, or is
    the last white space character when there is nothing else before the
    semicolon. *)
Definition prop_at (b : str) (nv : str * str) (rest : str) : Prop :=
  exists ws1 ws2,
    b = fst nv ++ ws1 ++ ":"%char :: ws2 ++ snd nv ++ ";"%char :: rest /\
    fst nv <> [] /\ forallb name_char (fst nv) = true /\
    forallb isspace ws1 = true /\ forallb isspace ws2 = true /\
    forallb not_semi (snd nv) = true /\
    match snd nv with
    | [] => False
    | c :: v => isspace c = true -> v = []
    end.

(** The parts of [PROP_RE] after the name, after the first white space and
    after the second. *)
Definition PROP_value : pattern := [Mark; Many1 not_semi; Mark; lit_ci ";"].
Definition PROP_colon : pattern := [lit_ci ":"; Many isspace] ++ PROP_value.
Definition PROP_tail : pattern := [Mark; Many isspace] ++ PROP_colon.

(** The properties of a block, from left to right. *)
Definition Props : str -> list (str * str) -> Prop := Leftmost prop_at.

(** The entries of the mapping of a block, in the order of the block. *)
Definition entries (block : str) : list (str * str) :=
  map (fun nv => (lower (fst nv), strip (snd nv))) (findall2 PROP_RE block).

(** ** URLs in a [src] value *)

(** The text starts with an occurrence of [url(...)]: the three letters in
    either case and the parenthesis, one character or more other than a
    closing parenthesis, and a closing parenthesis. *)
Definition url_at (b : str) : Prop :=
  exists k inner rest,
    b = k ++ inner ++ ")"%char :: rest /\ lower k = $"url(" /\
    inner <> [] /\ forallb (fun c => negb (is_char ")" c)) inner = true.

Definition contains_url (v : str) : Prop :=
  exists a b, v = a ++ b /\ url_at b.

(** A [src] that gives no URL: none, an empty one, or one without an
    occurrence of [url(...)]. *)
Definition no_url (src : option str) : Prop :=
  match src with
  | None => True
  | Some v => v = [] \/ ~ contains_url v
  end.

(** The face gives a URL that resolves to [font_url]. *)
Definition resolves (env : Env) (css_url : str) (face : gmap str str)
    (font_url : str) : Prop :=
  exists u, pick_url (face !! $"src") = Some u /\ u <> [] /\
    urljoin env css_url u = Some font_url.

(** The characters that start the query and the fragment of a URL. *)
Definition delim (c : ascii) : bool := is_char "?" c || is_char "#" c.

(** The URL up to its query and fragment. *)
Definition cut_query (url : str) : str := fst (break_at delim url).

(** A text without query or fragment. *)
Definition plain (s : str) : Prop := forallb (fun c => negb (delim c)) s = true.

(** A text without the character [x]. *)
Definition without (x : ascii) (s : str) : Prop :=
  forallb (fun c => negb (is_char x c)) s = true.

(** A text of visible characters: no white space and no control
    character. *)
Definition visible (s : str) : Prop :=
  forallb (fun c => (32 <? code c)%N) s = true.

(** A scheme: a letter, then letters, digits and the signs [+], [-] and
    [.]. *)
Definition is_scheme (s : str) : Prop :=
  exists c r, s = c :: r /\ ascii_alpha c = true /\ forallb scheme_char r = true.

(** A directory part of a path: empty, or a text that ends with a slash. *)
Definition is_dir (d : str) : Prop := d = [] \/ last d = Some "/"%char.

(** What may follow the last name of a path: slashes, and dots that stand
    alone between slashes. *)
Inductive Trail : str -> Prop :=
  | Trail_end : Trail []
  | Trail_slash t : Trail t -> Trail ("/"%char :: t)
  | Trail_dot t : Trail t -> Trail ("/"%char :: "."%char :: t).

(** A component of a path that is not a name. *)
Definition blank (x : str) : Prop := x = [] \/ x = $".".

(** A text of a URL with nothing that changes how the URL is split: visible
    characters other than [?], [#] and [;]. *)
Definition ordinary (s : str) : Prop := visible s /\ plain s /\ without ";" s.

(** The query or the fragment of a URL, when it has one. *)
Definition is_tail (t : str) : Prop :=
  t = [] \/ exists d r, t = d :: r /\ delim d = true.

(** ** Identifiers *)

(** The replacement of one character by [re.sub]. *)
Definition sanitize_char (c : ascii) : ascii :=
  if ident_char c then c else "_"%char.

(** The sanitation in the words of the specification: every character
    outside the class becomes an underscore, and an underscore is put in
    front of a result that is empty or starts with neither a letter nor an
    underscore. *)
Definition sanitized (name : str) : str :=
  let safe := map sanitize_char name in
  match safe with
  | [] => $"_"
  | c :: _ =>
      if ascii_alpha c || is_char "_" c then safe else "_"%char :: safe
  end.

(** The pieces of a split on the runs of characters that are not kept,
    without the empty pieces. *)
Definition fragments (keep : ascii -> bool) (s : str) : list str :=
  filter (fun p => p <> []) (split [Many1 (fun c => negb (keep c))] s).

(** The fragments in the words of the specification: the maximal runs of
    characters that are kept, in order. *)
Fixpoint runs (keep : ascii -> bool) (s : str) : list str :=
  match s with
  | [] => []
  | c :: s' =>
      if keep c then
        match s' with
        | c' :: _ =>
            if keep c' then cons_head c (runs keep s') else [c] :: runs keep s'
        | [] => [[c]]
        end
      else runs keep s'
  end.

(** What the runs are: the text is a run of separators, then a fragment that
    is not empty, has kept characters only and ends at a separator or at the
    end of the text, and so on. *)
Inductive Runs (keep : ascii -> bool) : str -> list str -> Prop :=
  | Runs_end seps :
      forallb (fun c => negb (keep c)) seps = true -> Runs keep seps []
  | Runs_cons seps r rest frs :
      forallb (fun c => negb (keep c)) seps = true ->
      r <> [] -> forallb keep r = true ->
      match rest with [] => True | c :: _ => negb (keep c) = true end ->
      Runs keep rest frs ->
      Runs keep (seps ++ r ++ rest) (r :: frs).

(** A fragment with its first letter in upper case. *)
Definition capitalize (p : str) : str :=
  match p with
  | [] => []
  | c :: r => upper_char c :: r
  end.

(** The text starts with a digit. *)
Definition starts_with_digit (s : str) : bool :=
  match s with c :: _ => in_range "0" "9" c | [] => false end.

(** ** The bindings file *)

Fixpoint has_prefix (p s : str) : bool :=
  match p, s with
  | [], _ => true
  | x :: p', c :: s' => is_char x c && has_prefix p' s'
  | _ :: _, [] => false
  end.

Definition is_import_line (line : str) : bool := has_prefix $"import " line.

(** The defaults of the command line, with a stylesheet URL. *)
Definition default_args : Args :=
  {| css_url := $"https://example.com/fonts.css";
     out_dir := $"composeResources/font";
     kotlin_out := $"FontDescriptors.kt";
     res_package := $"your.package.generated.resources";
     kotlin_package := [] |}.

(** ** The loop as a list of plans *)

(** What the loop does for a face that has a usable URL depends on the face
    and on the environment only: the URL fetched, the bytes received, the
    name of the file and the descriptor. *)
Record Plan := {
  p_url : str;
  p_data : bytes;
  p_filename : str;
  p_descriptor : Descriptor
}.

Definition face_plan (env : Env) (css_url : str) (face : gmap str str)
  : result (option Plan) :=
  match pick_url (face !! $"src") with
  | None | Some [] => Ok None
  | Some font_url =>
      let* font_url := or_raise ValueError (urljoin env css_url font_url) in
      let* data := or_raise (URLError font_url) (fetch_bytes env font_url) in
      let* ext := font_ext env font_url in
      let rn := resource_name_of (sha1_hex data) in
      Ok (Some {| p_url := font_url; p_data := data; p_filename := rn ++ ext;
                  p_descriptor := descriptor_of face rn |})
  end.

Definition apply_plan (st : State) (p : Plan) : State :=
  append_descriptor (p_descriptor p)
    (write_if_absent (p_filename p) (p_data p) (fetched (p_url p) st)).

Fixpoint plans (env : Env) (css_url : str) (faces : list (gmap str str))
  : result (list Plan) :=
  match faces with
  | [] => Ok []
  | face :: faces' =>
      let* p := face_plan env css_url face in
      let* ps := plans env css_url faces' in
      Ok (match p with Some p => p :: ps | None => ps end)
  end.

Definition run (ps : list Plan) (st : State) : State := fold_left apply_plan ps st.

Definition plan_list (p : option Plan) : list Plan :=
  match p with Some p => [p] | None => [] end.

(** A name without slash: one component of a path. *)
Definition no_slash (s : str) : Prop :=
  forallb (fun c => negb (is_char "/" c)) s = true.

(** The number of calls of [write_bytes] on one name. *)
Definition writes_to (n : str) (ws : list (str * bytes)) : nat :=
  length (filter (fun w => fst w = n) ws).

(** ** Shapes of texts, names and runs *)

(** The number of occurrences of a character in a text. *)
Definition count_char (x : ascii) (s : str) : nat :=
  length (filter (fun c => is_char x c = true) s).

(** The text starts with an occurrence of [url(...)] with the content
    [inner], and [rest] follows it. *)
Definition url_occ (b : str) (inner rest : str) : Prop :=
  exists k,
    b = k ++ inner ++ ")"%char :: rest /\ lower k = $"url(" /\
    inner <> [] /\ forallb (fun c => negb (is_char ")" c)) inner = true.

(** The contents of the occurrences of [url(...)] in a value, from left to
    right. *)
Definition Urls : str -> list str -> Prop := Leftmost url_occ.

Definition not_rparen (c : ascii) : bool := negb (is_char ")" c).

(** What the key of a property never holds: white space, a digit, an
    upper-case letter, a colon, a semicolon or a brace. *)
Definition key_free (c : ascii) : bool :=
  negb (isspace c || in_range "0" "9" c || in_range "A" "Z" c
        || is_char ":" c || is_char ";" c || is_char "{" c || is_char "}" c).

(** The digits of a hash in hexadecimal. *)
Definition hex_char (c : ascii) : bool := in_range "0" "9" c || in_range "a" "f" c.

(** The keys of a list in the order of their first occurrence. *)
Fixpoint first_seen (l : list str) : list str :=
  match l with
  | [] => []
  | k :: l' => k :: filter (fun x => x <> k) (first_seen l')
  end.

(** The descriptors of one family, in their order. *)
Definition of_family (k : str) (ds : list Descriptor) : list Descriptor :=
  filter (fun d => family d = k) ds.

(** The line that opens the declaration of a provider, and the line of one
    descriptor. *)
Definition is_val_line (line : str) : bool := has_prefix $"val " line.

Definition is_descriptor_line (line : str) : bool :=
  has_prefix $"    ResourceFontDescriptor(" line.

(** The line that opens the declaration of the provider of a family. *)
Definition provider_header (k : str) : str :=
  $"val " ++ to_pascal_case k ++ $" = StaticFontDescriptorProvider(".

(** The lines of a text are its pieces between line feeds:
    [text.split(LF)]. *)
Definition lines_of (text : str) : list str := PathLib.split_char newline text.

(** A descriptor no field of which holds a line feed. *)
Definition one_line (d : Descriptor) : Prop :=
  without newline (resource_name d) /\ without newline (family d)
  /\ without newline (weight d) /\ without newline (style d)
  /\ without newline (ranges d).

(** Three descriptors of two families, the second family between the two
    faces of the first. *)
Definition three_descriptors : list Descriptor :=
  [ {| resource_name := $"_a1"; family := $"Noto Sans"; weight := $"400";
       style := $"normal"; ranges := $"U+0-FF" |};
    {| resource_name := $"_b2"; family := $"Inter"; weight := $"700";
       style := $"italic"; ranges := [] |};
    {| resource_name := $"_c3"; family := $"Noto Sans"; weight := $"700";
       style := $"normal"; ranges := [] |} ].

(** A face with a URL the loop goes on with: [pick_url] gives a text that
    is not empty. *)
Definition usable (face : gmap str str) : bool :=
  negb (falsy (pick_url (face !! $"src"))).

(** The face ends the loop with the exception [e]: it has a usable URL, and
    the URL does not resolve, or the font cannot be fetched, or the path of
    the resolved URL cannot be read off after the font was fetched. *)
Definition face_fails (env : Env) (css_url : str) (face : gmap str str)
    (e : exn) : Prop :=
  exists u, pick_url (face !! $"src") = Some u /\ u <> [] /\
    match urljoin env css_url u with
    | None => e = ValueError
    | Some font_url =>
        match fetch_bytes env font_url with
        | None => e = URLError font_url
        | Some _ =>
            urlparse_path (netloc_valid env) font_url = None /\ e = ValueError
        end
    end.

(** A straight quote, double or single. *)
Definition is_quote (q : ascii) : Prop := q = dquote \/ q = squote.

(** ** Sample runs *)

Fixpoint assoc {A} (k : str) (l : list (str * A)) : option A :=
  match l with
  | [] => None
  | (k', v) :: l' => if bool_decide (k' = k) then Some v else assoc k l'
  end.

(** A network that serves one stylesheet and the listed fonts.  The samples
    give the fonts by absolute URLs, which [urljoin] returns as they are. *)
Definition sample_env (css : str) (fonts : list (str * bytes)) : Env :=
  {| fetch_text := fun _ => Some css;
     fetch_bytes := fun url => assoc url fonts;
     urljoin := fun _ url => Some url;
     netloc_valid := fun _ => true |}.

Definition sample_bytes (s : string) : bytes := map byte_of_ascii $s.

(** Four faces: two of one family, one that names a local font only, and
    one whose font has the bytes of the first. *)
Definition sample_css : str :=
  $"@font-face { font-family: 'Roboto'; font-weight: 400; src: url(https://fonts.example/roboto-400.woff2) format('woff2'); }
@font-face { font-family: 'Roboto'; font-weight: 700; font-style: Italic; src: url('https://fonts.example/roboto-700i.woff2'); }
@font-face { font-family: Fallback; src: local(Arial); }
@FONT-FACE { font-family: 'Roboto Mono'; src: URL(https://mirror.example/mono/r400.woff2?v=3); unicode-range: U+0000-00FF; }".

Definition sample_fonts : list (str * bytes) :=
  [ ($"https://fonts.example/roboto-400.woff2", sample_bytes "wOF2 regular");
    ($"https://fonts.example/roboto-700i.woff2", sample_bytes "wOF2 bold italic");
    ($"https://mirror.example/mono/r400.woff2?v=3", sample_bytes "wOF2 regular") ].

Definition sample : Env := sample_env sample_css sample_fonts.

Definition sample_face (i : nat) : gmap str str :=
  default ∅ (parse_font_faces sample_css !! i).

Definition regular_name : str := resource_name_of (sha1_hex (sample_bytes "wOF2 regular")).

(** Two faces with the same bytes behind URLs of different extensions. *)
Definition twin_css : str :=
  $"@font-face { font-family: Twin; src: url(https://fonts.example/twin.woff2); }
@font-face { font-family: Twin; font-weight: bold; src: url(https://fonts.example/twin.ttf); }".

Definition twin_fonts : list (str * bytes) :=
  [ ($"https://fonts.example/twin.woff2", sample_bytes "same bytes");
    ($"https://fonts.example/twin.ttf", sample_bytes "same bytes") ].

Definition twin : Env := sample_env twin_css twin_fonts.

Definition twin_name : str := resource_name_of (sha1_hex (sample_bytes "same bytes")).

(** * Properties *)

(** ** The matcher *)

Section Matcher.

Context {R : Type}.
Implicit Types (p : ascii -> bool) (k : str -> option R) (s : str).

(** A failed repetition: the continuation fails after every prefix of
    characters of the class. *)
Lemma many_None p k s :
  many p k s = None ->
  forall a b, s = a ++ b -> forallb p a = true -> k b = None.
Proof.
  induction s as [|c s IH]; intros Hm a b E Ha; simpl in Hm.
  - destruct a; simpl in *; [by subst | discriminate].
  - destruct a as [|c' a]; simpl in *.
    + subst b. destruct (p c); [destruct (many p k s)|]; congruence.
    + inversion E; subst c' s. apply andb_prop in Ha as [Hc Ha].
      rewrite Hc in Hm. destruct (many p k (a ++ b)) eqn:Hm'; [discriminate|].
      eapply IH; eauto.
Qed.

(** A successful repetition took a prefix of characters of the class, and
    the continuation failed after every longer such prefix. *)
Lemma many_Some p k s r :
  many p k s = Some r ->
  exists a b, s = a ++ b /\ forallb p a = true /\ k b = Some r /\
    forall a' b', s = a' ++ b' -> forallb p a' = true ->
      length a < length a' -> k b' = None.
Proof.
  revert r. induction s as [|c s IH]; intros r H; simpl in H.
  - exists [], []. repeat split; auto.
    intros a' b' E _ L. destruct a'; simpl in *; [lia | discriminate].
  - destruct (p c) eqn:Hc.
    + destruct (many p k s) as [r'|] eqn:Hm.
      * inversion H; subst r'. destruct (IH r eq_refl) as (a & b & -> & Ha & Hk & Hmax).
        exists (c :: a), b. repeat split; simpl; auto.
        { by rewrite Hc. }
        intros a' b' E Ha' L. destruct a' as [|c' a']; simpl in *; [lia|].
        inversion E; subst c'. apply andb_prop in Ha' as [_ Ha'].
        eapply Hmax; eauto. lia.
      * exists [], (c :: s). repeat split; auto.
        intros a' b' E Ha' L. destruct a' as [|c' a']; simpl in *; [lia|].
        inversion E; subst c' s. apply andb_prop in Ha' as [_ Ha'].
        eapply many_None; eauto.
    + exists [], (c :: s). repeat split; auto.
      intros a' b' E Ha' L. destruct a' as [|c' a']; simpl in *; [lia|].
      inversion E; subst c'. rewrite Hc in Ha'. discriminate.
Qed.

(** The converse: a prefix of the class after which the continuation
    succeeds, and fails after every longer one, is the one taken. *)
Lemma many_intro p k a b r :
  forallb p a = true -> k b = Some r ->
  (forall a' b', a ++ b = a' ++ b' -> forallb p a' = true ->
     length a < length a' -> k b' = None) ->
  many p k (a ++ b) = Some r.
Proof.
  intros Ha Hk Hmax.
  destruct (many p k (a ++ b)) as [r'|] eqn:Hm.
  - apply many_Some in Hm as (a1 & b1 & E & Ha1 & Hk1 & Hmax1).
    destruct (Nat.lt_trichotomy (length a) (length a1)) as [L|[L|L]].
    + rewrite (Hmax a1 b1 E Ha1 L) in Hk1. discriminate.
    + assert (a = a1).
      { apply (f_equal (take (length a))) in E.
        rewrite take_app_length in E. rewrite L, take_app_length in E. done. }
      subst a1. apply app_inv_head in E. subst b1. congruence.
    + rewrite (Hmax1 a b eq_refl Ha L) in Hk. discriminate.
  - rewrite (many_None _ _ _ Hm a b eq_refl Ha) in Hk. discriminate.
Qed.

End Matcher.

(** What remains after a match is a suffix of the text, and a proper one
    when the pattern consumes. *)
Lemma mtch_suffix pat s ms e :
  mtch pat s = Some (ms, e) -> exists a, s = a ++ e.
Proof.
  revert s ms e. induction pat as [|i pat IH]; intros s ms e H; simpl in H.
  - inversion H; subst. by exists [].
  - destruct i.
    + destruct s as [|c s]; [discriminate|]. destruct (p c); [|discriminate].
      apply IH in H as [a ->]. by exists (c :: a).
    + apply many_Some in H as (a & b & -> & _ & H & _).
      apply IH in H as [a' ->]. exists (a ++ a'). by rewrite app_assoc.
    + destruct s as [|c s]; [discriminate|]. destruct (p c); [|discriminate].
      apply many_Some in H as (a & b & -> & _ & H & _).
      apply IH in H as [a' ->]. exists (c :: a ++ a'). simpl. by rewrite app_assoc.
    + destruct (mtch pat s) as [[ms' e']|] eqn:Hm; [|discriminate].
      inversion H; subst. eapply IH; eauto.
Qed.

Lemma mtch_consumes pat s ms e :
  consuming pat = true -> mtch pat s = Some (ms, e) -> length e < length s.
Proof.
  revert s ms e. induction pat as [|i pat IH]; intros s ms e Hc H; simpl in *.
  - discriminate.
  - destruct i; simpl in Hc.
    + destruct s as [|c s]; [discriminate|]. destruct (p c); [|discriminate].
      apply mtch_suffix in H as [a ->]. simpl. rewrite length_app. lia.
    + apply many_Some in H as (a & b & -> & _ & H & _).
      apply IH in H; auto. rewrite length_app. lia.
    + destruct s as [|c s]; [discriminate|]. destruct (p c); [|discriminate].
      apply many_Some in H as (a & b & -> & _ & H & _).
      apply mtch_suffix in H as [a' ->]. simpl. rewrite !length_app. lia.
    + destruct (mtch pat s) as [[ms' e']|] eqn:Hm; [|discriminate].
      inversion H; subst. eapply IH; eauto.
Qed.

Lemma mtch_nil_consuming pat :
  consuming pat = true -> mtch pat [] = None.
Proof.
  intros Hc. destruct (mtch pat []) as [[ms e]|] eqn:H; [|done].
  apply mtch_consumes in H; auto. simpl in H. lia.
Qed.

(** The leftmost match: the text splits into what is skipped and a text at
    whose start the pattern matches, and it matches at no earlier start. *)
Lemma search_Some pat s pre ms e :
  search pat s = Some (pre, ms, e) ->
  exists t, s = pre ++ t /\ mtch pat t = Some (ms, e) /\
    forall a b, a ++ b = s -> length a < length pre -> mtch pat b = None.
Proof.
  revert pre. induction s as [|c s IH]; intros pre H; simpl in H.
  - destruct (mtch pat []) as [[ms' e']|] eqn:Hm; [|discriminate].
    inversion H; subst. exists []. repeat split; auto. simpl. lia.
  - destruct (mtch pat (c :: s)) as [[ms' e']|] eqn:Hm.
    + inversion H; subst. exists (c :: s). repeat split; auto. simpl. lia.
    + destruct (search pat s) as [[[pre' ms'] e']|] eqn:Hs; [|discriminate].
      inversion H; subst. destruct (IH pre' eq_refl) as (t & -> & Ht & Hno).
      exists t. repeat split; auto.
      intros a b E L. destruct a as [|c' a]; simpl in *.
      * by subst b.
      * inversion E; subst c'. eapply Hno; eauto. lia.
Qed.

Lemma search_None pat s :
  search pat s = None -> forall a b, a ++ b = s -> mtch pat b = None.
Proof.
  induction s as [|c s IH]; intros H a b E; simpl in H.
  - destruct a, b; try discriminate.
    destruct (mtch pat []) as [[ms' e']|]; [discriminate | done].
  - destruct (mtch pat (c :: s)) as [[ms' e']|] eqn:Hm; [discriminate|].
    destruct (search pat s) as [[[pre' ms'] e']|] eqn:Hs; [discriminate|].
    destruct a as [|c' a]; simpl in *.
    + by subst b.
    + inversion E; subst c'. eapply IH; eauto.
Qed.

Lemma search_consumes pat s pre ms e :
  consuming pat = true -> search pat s = Some (pre, ms, e) -> length e < length s.
Proof.
  intros Hc H. apply search_Some in H as (t & -> & Ht & _).
  apply mtch_consumes in Ht; auto. rewrite length_app. lia.
Qed.

(** More fuel than the length of the text changes nothing. *)
Lemma finditer_fuel_enough pat :
  consuming pat = true ->
  forall n m s, length s < n -> length s < m ->
    finditer_fuel n pat s = finditer_fuel m pat s.
Proof.
  intros Hc. induction n as [|n IH]; intros m s Ln Lm; [lia|].
  destruct m as [|m]; [lia|]. simpl.
  destruct (search pat s) as [[[pre ms] e]|] eqn:Hs; [|done].
  pose proof (search_consumes _ _ _ _ _ Hc Hs) as L.
  rewrite (IH m e); [done | lia | lia].
Qed.

Lemma finditer_unfold pat s :
  consuming pat = true ->
  finditer pat s =
    match search pat s with
    | None => ([], s)
    | Some (pre, ms, e) =>
        let '(l, t) := finditer pat e in ((pre, groups ms) :: l, t)
    end.
Proof.
  intros Hc. unfold finditer at 1. simpl.
  destruct (search pat s) as [[[pre ms] e]|] eqn:Hs; [|done].
  pose proof (search_consumes _ _ _ _ _ Hc Hs) as L.
  unfold finditer. rewrite (finditer_fuel_enough pat Hc (length s) (S (length e)) e); [done|lia|lia].
Qed.

Lemma finditer_nil pat : consuming pat = true -> finditer pat [] = ([], []).
Proof.
  intros Hc. rewrite finditer_unfold by done. simpl.
  by rewrite mtch_nil_consuming.
Qed.

Lemma finditer_match pat s ms e :
  consuming pat = true -> mtch pat s = Some (ms, e) ->
  finditer pat s = let '(l, t) := finditer pat e in (([], groups ms) :: l, t).
Proof.
  intros Hc H. rewrite finditer_unfold by done.
  destruct s; simpl; by rewrite H.
Qed.

Lemma finditer_skip pat c s :
  consuming pat = true -> mtch pat (c :: s) = None ->
  finditer pat (c :: s) = skip_char c (finditer pat s).
Proof.
  intros Hc H. rewrite (finditer_unfold pat (c :: s)) by done.
  rewrite (finditer_unfold pat s) by done.
  simpl. rewrite H.
  destruct (search pat s) as [[[pre ms] e]|]; [|done].
  by destruct (finditer pat e).
Qed.

Lemma sub_nil pat repl : consuming pat = true -> sub pat repl [] = [].
Proof. intros Hc. unfold sub. by rewrite finditer_nil. Qed.

Lemma sub_match pat repl s ms e :
  consuming pat = true -> mtch pat s = Some (ms, e) ->
  sub pat repl s = repl ++ sub pat repl e.
Proof.
  intros Hc H. unfold sub. rewrite (finditer_match _ _ _ _ Hc H).
  destruct (finditer pat e) as [l t]. simpl. by rewrite <- app_assoc.
Qed.

Lemma sub_skip pat repl c s :
  consuming pat = true -> mtch pat (c :: s) = None ->
  sub pat repl (c :: s) = c :: sub pat repl s.
Proof.
  intros Hc H. unfold sub. rewrite (finditer_skip _ _ _ Hc H).
  destruct (finditer pat s) as [[|[pre g] l] t]; done.
Qed.

Lemma split_nil pat : consuming pat = true -> split pat [] = [[]].
Proof. intros Hc. unfold split. by rewrite finditer_nil. Qed.

Lemma split_match pat s ms e :
  consuming pat = true -> mtch pat s = Some (ms, e) ->
  split pat s = [] :: split pat e.
Proof.
  intros Hc H. unfold split. rewrite (finditer_match _ _ _ _ Hc H).
  by destruct (finditer pat e) as [l t].
Qed.

(** [c] joins the first piece. *)

Lemma split_skip pat c s :
  consuming pat = true -> mtch pat (c :: s) = None ->
  split pat (c :: s) = cons_head c (split pat s).
Proof.
  intros Hc H. unfold split. rewrite (finditer_skip _ _ _ Hc H).
  destruct (finditer pat s) as [[|[pre g] l] t]; done.
Qed.

Lemma findall1_nil pat : consuming pat = true -> findall1 pat [] = [].
Proof. intros Hc. unfold findall1. by rewrite finditer_nil. Qed.

Lemma findall1_match pat s ms e :
  consuming pat = true -> mtch pat s = Some (ms, e) ->
  findall1 pat s = default [] (head (groups ms)) :: findall1 pat e.
Proof.
  intros Hc H. unfold findall1. rewrite (finditer_match _ _ _ _ Hc H).
  by destruct (finditer pat e) as [l t].
Qed.

Lemma findall1_skip pat c s :
  consuming pat = true -> mtch pat (c :: s) = None ->
  findall1 pat (c :: s) = findall1 pat s.
Proof.
  intros Hc H. unfold findall1. rewrite (finditer_skip _ _ _ Hc H).
  destruct (finditer pat s) as [[|[pre g] l] t]; done.
Qed.

Lemma findall2_nil pat : consuming pat = true -> findall2 pat [] = [].
Proof. intros Hc. unfold findall2. by rewrite finditer_nil. Qed.

Lemma findall2_match pat s ms e :
  consuming pat = true -> mtch pat s = Some (ms, e) ->
  findall2 pat s =
    (default [] (groups ms !! 0), default [] (groups ms !! 1)) :: findall2 pat e.
Proof.
  intros Hc H. unfold findall2. rewrite (finditer_match _ _ _ _ Hc H).
  by destruct (finditer pat e) as [l t].
Qed.

Lemma findall2_skip pat c s :
  consuming pat = true -> mtch pat (c :: s) = None ->
  findall2 pat (c :: s) = findall2 pat s.
Proof.
  intros Hc H. unfold findall2. rewrite (finditer_skip _ _ _ Hc H).
  destruct (finditer pat s) as [[|[pre g] l] t]; done.
Qed.

(** Substitution of a single character class works character by
    character. *)
Lemma sub_one p repl s :
  sub [One p] repl s = flat_map (fun c => if p c then repl else [c]) s.
Proof.
  induction s as [|c s IH]; simpl.
  - by apply sub_nil.
  - destruct (p c) eqn:Hp.
    + rewrite (sub_match [One p] repl (c :: s) [] s); [by rewrite IH | done |].
      simpl. by rewrite Hp.
    + rewrite sub_skip; [by rewrite IH | done |]. simpl. by rewrite Hp.
Qed.

(** ** Characters *)

Ltac each_char c :=
  destruct c as [[] [] [] [] [] [] [] []]; vm_compute; try done; auto.

Lemma ident_char_isalpha c :
  ident_char c = true -> isalpha c = ascii_alpha c.
Proof. each_char c. Qed.

Lemma lower_char_idem c : lower_char (lower_char c) = lower_char c.
Proof. each_char c. Qed.

Lemma is_char_eq x c : is_char x c = true <-> x = c.
Proof. unfold is_char. apply Ascii.eqb_eq. Qed.

Lemma is_char_refl x : is_char x x = true.
Proof. by apply is_char_eq. Qed.

(** ** Identifiers *)

Lemma sanitize_char_ident c : ident_char (sanitize_char c) = true.
Proof. each_char c. Qed.

Lemma sanitize_char_id c : ident_char c = true -> sanitize_char c = c.
Proof. unfold sanitize_char. by intros ->. Qed.

Lemma sub_sanitize name :
  sub [One (fun c => negb (ident_char c))] $"_" name = map sanitize_char name.
Proof.
  rewrite sub_one. induction name as [|c s IH]; [done|].
  cbn [flat_map map]. rewrite IH. unfold sanitize_char. by destruct (ident_char c).
Qed.

Lemma to_valid_identifier_sanitized name :
  to_valid_identifier name = sanitized name.
Proof.
  unfold to_valid_identifier, sanitized. rewrite sub_sanitize.
  destruct name as [|c s]; [done|]. cbn [map].
  rewrite (ident_char_isalpha (sanitize_char c)) by apply sanitize_char_ident.
  by destruct (ascii_alpha (sanitize_char c) || is_char "_" (sanitize_char c)).
Qed.

Lemma forallb_map_sanitize name : forallb ident_char (map sanitize_char name) = true.
Proof.
  induction name as [|c s IH]; simpl; [done|].
  by rewrite sanitize_char_ident, IH.
Qed.

Lemma map_sanitize_id name :
  forallb ident_char name = true -> map sanitize_char name = name.
Proof.
  induction name as [|c s IH]; simpl; [done|].
  intros [Hc Hs]%andb_prop. by rewrite sanitize_char_id, IH.
Qed.

Lemma sanitized_ident name : forallb ident_char (sanitized name) = true.
Proof.
  unfold sanitized. pose proof (forallb_map_sanitize name) as H.
  destruct (map sanitize_char name) as [|c s]; [done|].
  destruct (ascii_alpha c || is_char "_" c); [done|].
  simpl. simpl in H. by rewrite H.
Qed.

(** The first character of a sanitized name is a letter or an underscore. *)
Lemma sanitized_head name :
  exists c s, sanitized name = c :: s /\
    ascii_alpha c || is_char "_" c = true.
Proof.
  unfold sanitized. destruct (map sanitize_char name) as [|c s]; [by eexists _, _|].
  destruct (ascii_alpha c || is_char "_" c) eqn:E; by eexists _, _.
Qed.

Lemma sanitized_fixpoint name :
  forallb ident_char name = true ->
  (exists c s, name = c :: s /\ ascii_alpha c || is_char "_" c = true) ->
  sanitized name = name.
Proof.
  intros Hall (c & s & -> & Hc). unfold sanitized.
  rewrite map_sanitize_id by done. by rewrite Hc.
Qed.

Lemma sanitized_idem name : sanitized (sanitized name) = sanitized name.
Proof. apply sanitized_fixpoint; [apply sanitized_ident | apply sanitized_head]. Qed.

Lemma resource_name_of_ident h : forallb ident_char (resource_name_of h) = true.
Proof.
  unfold resource_name_of. rewrite to_valid_identifier_sanitized.
  destruct (startswith "_" (sanitized h)); simpl; by rewrite ?sanitized_ident.
Qed.

Lemma resource_name_of_head h : startswith "_" (resource_name_of h) = true.
Proof.
  unfold resource_name_of. by destruct (startswith "_" (to_valid_identifier h)) eqn:E.
Qed.

(** [C5] For every string [h], in particular every hash, the name of the
    resource starts with an underscore and has only characters of
    [0-9A-Za-z_]: the sanitation replaces every other character by an
    underscore and puts an underscore in front of a result that is empty or
    starts with neither a letter nor an underscore, a further underscore is
    put in front unless the name starts with one, and both steps leave a
    name they produced as it is. *)
Theorem resource_name_safe (h : str) :
  to_valid_identifier h = sanitized h
  /\ resource_name_of h =
       (if startswith "_" (to_valid_identifier h) then to_valid_identifier h
        else "_"%char :: to_valid_identifier h)
  /\ startswith "_" (resource_name_of h) = true
  /\ forallb ident_char (resource_name_of h) = true
  /\ to_valid_identifier (to_valid_identifier h) = to_valid_identifier h
  /\ to_valid_identifier (resource_name_of h) = resource_name_of h
  /\ resource_name_of (resource_name_of h) = resource_name_of h.
Proof.
  assert (Hrn : resource_name_of h =
       (if startswith "_" (to_valid_identifier h) then to_valid_identifier h
        else "_"%char :: to_valid_identifier h)).
  { unfold resource_name_of. by destruct (startswith "_" (to_valid_identifier h)). }
  pose proof (resource_name_of_head h) as Hst.
  pose proof (resource_name_of_ident h) as Hid.
  assert (Hfix : to_valid_identifier (resource_name_of h) = resource_name_of h).
  { rewrite to_valid_identifier_sanitized. apply sanitized_fixpoint; [done|].
    destruct (resource_name_of h) as [|c s]; [discriminate|].
    exists c, s. split; [done|]. change (is_char "_" c = true) in Hst.
    rewrite Hst. apply orb_true_r. }
  repeat split; auto.
  - apply to_valid_identifier_sanitized.
  - rewrite !to_valid_identifier_sanitized. apply sanitized_idem.
  - unfold resource_name_of at 1. by rewrite Hfix, Hst.
Qed.

(** ** Slices *)

Lemma slice_first c r : slice None (Some 1%Z) (c :: r) = [c].
Proof.
  unfold slice, slice_index. cbn [length].
  replace (Z.to_nat (Z.max 0 (Z.min (if (1 <? 0)%Z then (1 + Z.of_nat (S (length r)))%Z else 1%Z)
                                    (Z.of_nat (S (length r)))))) with 1 by (simpl; lia).
  done.
Qed.

Lemma slice_rest c r : slice (Some 1%Z) None (c :: r) = r.
Proof.
  unfold slice, slice_index. cbn [length].
  replace (Z.to_nat (Z.max 0 (Z.min (if (1 <? 0)%Z then (1 + Z.of_nat (S (length r)))%Z else 1%Z)
                                    (Z.of_nat (S (length r)))))) with 1 by (simpl; lia).
  rewrite Nat2Z.id. simpl. rewrite Nat.sub_0_r. apply firstn_all.
Qed.

Lemma slice_empty i j : slice i j [] = [].
Proof. unfold slice. by rewrite drop_nil, take_nil. Qed.

(** [s[1:-1]] drops the first and the last character of a string of two
    characters or more, and is empty on a shorter one. *)
Lemma slice_inner q m q' : slice (Some 1%Z) (Some (-1)%Z) (q :: m ++ [q']) = m.
Proof.
  unfold slice, slice_index. cbn [length]. rewrite length_app. cbn [length].
  replace (Z.to_nat (Z.max 0 (Z.min (if (1 <? 0)%Z then (1 + Z.of_nat (S (length m + 1)))%Z else 1%Z)
                                    (Z.of_nat (S (length m + 1)))))) with 1 by (simpl; lia).
  replace (Z.to_nat (Z.max 0 (Z.min (if (-1 <? 0)%Z then (-1 + Z.of_nat (S (length m + 1)))%Z else (-1)%Z)
                                    (Z.of_nat (S (length m + 1)))))) with (S (length m)) by (simpl; lia).
  simpl. by rewrite Nat.sub_0_r, drop_0, take_app_length.
Qed.

Lemma slice_single q : slice (Some 1%Z) (Some (-1)%Z) [q] = [].
Proof. reflexivity. Qed.

(** ** Fragments of a family name *)

Lemma many_always {R} p (f : str -> R) s :
  many p (fun t => Some (f t)) s = Some (f (lstrip_with p s)).
Proof.
  induction s as [|c s IH]; simpl; [done|].
  destruct (p c); [by rewrite IH | done].
Qed.

Section Fragments.

Variable keep : ascii -> bool.

Let sep (c : ascii) : bool := negb (keep c).
Let pat : pattern := [Many1 sep].

Lemma mtch_sep_run c s :
  mtch pat (c :: s) = if sep c then Some ([], lstrip_with sep s) else None.
Proof.
  unfold pat. simpl. destruct (sep c); [|done].
  apply (many_always sep (fun t => ([] : list str, t))).
Qed.

Lemma split_sep c s :
  sep c = true -> split pat (c :: s) = [] :: split pat (lstrip_with sep s).
Proof.
  intros Hc. eapply split_match; [done|]. by rewrite mtch_sep_run, Hc.
Qed.

Lemma split_keep c s :
  sep c = false -> split pat (c :: s) = cons_head c (split pat s).
Proof.
  intros Hc. apply split_skip; [done|]. by rewrite mtch_sep_run, Hc.
Qed.

(** The first piece is empty exactly when the text is empty or starts with
    a separator. *)
Lemma split_first s :
  exists x xs, split pat s = x :: xs /\
    (x = [] <-> match s with [] => True | c :: _ => sep c = true end).
Proof.
  induction s as [|c s IH].
  - exists [], []. by rewrite split_nil.
  - destruct (sep c) eqn:Hc.
    + exists [], (split pat (lstrip_with sep s)). by rewrite split_sep.
    + destruct IH as (x & xs & E & _). exists (c :: x), xs.
      rewrite split_keep, E by done. split; [done|]. split; [done|]. done.
Qed.

Lemma fragments_unfold s :
  fragments keep s = filter (fun p => p <> []) (split pat s).
Proof. reflexivity. Qed.

Lemma fragments_lstrip s : fragments keep (lstrip_with sep s) = fragments keep s.
Proof.
  destruct s as [|c s]; [done|]. simpl.
  destruct (sep c) eqn:Hc; [|done].
  rewrite (fragments_unfold (c :: s)), split_sep by done.
  by rewrite filter_cons_False by (intros H; by apply H).
Qed.

Lemma fragments_runs s : fragments keep s = runs keep s.
Proof.
  induction s as [|c s IH].
  - rewrite fragments_unfold, split_nil by done.
    by rewrite filter_cons_False by (intros H; by apply H).
  - cbn [runs]. destruct (keep c) eqn:Hc.
    + assert (Hs : sep c = false) by (unfold sep; by rewrite Hc).
      rewrite fragments_unfold, split_keep by done.
      destruct (split_first s) as (x & xs & E & Hx).
      rewrite <- IH, fragments_unfold, E. cbn [cons_head].
      rewrite filter_cons_True by done.
      destruct s as [|c' s'].
      * assert (x = []) as -> by (by apply Hx).
        rewrite split_nil in E by done. by inversion E; subst xs.
      * destruct (keep c') eqn:Hc'.
        -- assert (x <> []).
           { intros Hn. apply Hx in Hn. unfold sep in Hn. by rewrite Hc' in Hn. }
           by rewrite filter_cons_True by done.
        -- assert (x = []) as ->.
           { apply Hx. unfold sep. by rewrite Hc'. }
           by rewrite filter_cons_False by (intros H; by apply H).
    + assert (Hs : sep c = true) by (unfold sep; by rewrite Hc).
      rewrite <- IH, (fragments_unfold (c :: s)), split_sep by done.
      rewrite filter_cons_False by (intros H; by apply H).
      apply fragments_lstrip.
Qed.

Lemma runs_Runs s : Runs keep s (runs keep s).
Proof.
  induction s as [|c s IH].
  - by apply (Runs_end keep []).
  - cbn [runs]. destruct (keep c) eqn:Hc.
    + destruct s as [|c' s'].
      * apply (Runs_cons keep [] [c] [] []); simpl; rewrite ?Hc; try done.
      * destruct (keep c') eqn:Hc'.
        -- inversion IH as [seps Hseps E1 E2 | seps r rest frs Hseps Hr Hk Hrest HR E1 E2].
           ++ subst seps. simpl in Hseps. by rewrite Hc' in Hseps.
           ++ destruct seps as [|x seps].
              ** cbn [cons_head].
                 apply (Runs_cons keep [] (c :: r) rest frs); simpl; rewrite ?Hc; try done.
              ** simpl in E1. inversion E1; subst x. simpl in Hseps.
                 by rewrite Hc' in Hseps.
        -- apply (Runs_cons keep [] [c] (c' :: s') (runs keep (c' :: s')));
             [done | done | by simpl; rewrite Hc | by rewrite Hc' | exact IH].
    + inversion IH as [seps Hseps E1 E2 | seps r rest frs Hseps Hr Hk Hrest HR E1 E2].
      * apply (Runs_end keep (c :: s)). simpl. by rewrite Hc.
      * apply (Runs_cons keep (c :: seps) r rest frs); simpl; rewrite ?Hc; try done.
Qed.

Lemma runs_all_sep s : forallb sep s = true -> runs keep s = [].
Proof.
  induction s as [|c s IH]; simpl; [done|].
  intros [Hc Hs]%andb_prop. unfold sep in Hc.
  destruct (keep c); [done|]. by apply IH.
Qed.

End Fragments.

(** ** Family names *)

Lemma capitalize_slices p :
  upper (slice None (Some 1%Z) p) ++ slice (Some 1%Z) None p = capitalize p.
Proof.
  destruct p as [|c r]; [by rewrite !slice_empty|].
  by rewrite slice_first, slice_rest.
Qed.

Lemma to_pascal_case_runs name :
  to_pascal_case name =
    match runs alnum_char name with
    | [] => $"_"
    | frs => to_valid_identifier (concat (map capitalize frs))
    end.
Proof.
  unfold to_pascal_case.
  change (filter (fun p => p <> []) (split [Many1 (fun c => negb (alnum_char c))] name))
    with (fragments alnum_char name).
  rewrite fragments_runs.
  destruct (runs alnum_char name) as [|r frs]; [done|].
  f_equal. f_equal. apply map_ext. intros p. apply capitalize_slices.
Qed.

Lemma Runs_fragments keep s frs :
  Runs keep s frs -> Forall (fun r => r <> [] /\ forallb keep r = true) frs.
Proof.
  induction 1 as [|seps r rest frs _ Hne Hr _ _ IH]; [done|]. by constructor.
Qed.

Lemma upper_char_alnum c :
  alnum_char c = true ->
  alnum_char (upper_char c) = true /\ upper_char (upper_char c) = upper_char c.
Proof. each_char c. Qed.

Lemma alnum_char_ident c : alnum_char c = true -> ident_char c = true.
Proof. each_char c. Qed.

Lemma alnum_ident s : forallb alnum_char s = true -> forallb ident_char s = true.
Proof.
  induction s as [|c s IH]; [done|]. simpl.
  intros [Hc Hs]%andb_prop. by rewrite (alnum_char_ident c Hc), IH.
Qed.

Lemma alnum_head c : alnum_char c = true -> is_char "_" c = false.
Proof. each_char c. Qed.

Lemma alnum_alpha_or_digit c :
  alnum_char c = true -> ascii_alpha c = negb (in_range "0" "9" c).
Proof. each_char c. Qed.

(** The fragments of a name, capitalised and joined: a text of letters and
    digits that starts with the capital of its first character. *)
Lemma capitalized_fragments fr frs :
  Forall (fun r => r <> [] /\ forallb alnum_char r = true) (fr :: frs) ->
  exists c rest,
    concat (map capitalize (fr :: frs)) = upper_char c :: rest /\
    alnum_char c = true /\ forallb alnum_char rest = true.
Proof.
  intros H. apply Forall_cons in H as [[Hne Hfr] Hfrs].
  destruct fr as [|c t]; [done|]. simpl in Hfr. apply andb_prop in Hfr as [Hc Ht].
  exists c, (t ++ concat (map capitalize frs)). split; [done|]. split; [done|].
  rewrite forallb_app, Ht. cbn [andb].
  induction frs as [|r frs IH]; [done|].
  apply Forall_cons in Hfrs as [[Hr Hra] Hfrs]. cbn [map concat].
  rewrite forallb_app, (IH Hfrs), andb_true_r.
  destruct r as [|x r]; [done|]. simpl in Hra. apply andb_prop in Hra as [Hx Hr'].
  cbn [capitalize forallb]. by rewrite (proj1 (upper_char_alnum x Hx)), Hr'.
Qed.

Lemma sanitized_alnum c rest :
  alnum_char c = true -> forallb alnum_char rest = true ->
  sanitized (c :: rest) =
    if ascii_alpha c then c :: rest else "_"%char :: c :: rest.
Proof.
  intros Hc Hr. unfold sanitized.
  rewrite (map_sanitize_id (c :: rest)) by (apply alnum_ident; simpl; by rewrite Hc, Hr).
  by rewrite (alnum_head c Hc), orb_false_r.
Qed.

(** The name of a family with fragments: the fragments capitalised and
    joined, after an underscore when they start with a digit. *)
Lemma to_pascal_case_fragments name fr frs :
  runs alnum_char name = fr :: frs ->
  to_pascal_case name =
    let out := concat (map capitalize (fr :: frs)) in
    if starts_with_digit out then "_"%char :: out else out.
Proof.
  intros E. rewrite to_pascal_case_runs, E, to_valid_identifier_sanitized.
  pose proof (Runs_fragments _ _ _ (runs_Runs alnum_char name)) as Hfr. rewrite E in Hfr.
  destruct (capitalized_fragments fr frs Hfr) as (c & rest & -> & Hc & Hrest).
  destruct (upper_char_alnum c Hc) as [Hu _].
  rewrite (sanitized_alnum _ _ Hu Hrest). cbn zeta. cbn [starts_with_digit].
  rewrite (alnum_alpha_or_digit _ Hu). by destruct (in_range "0" "9" (upper_char c)).
Qed.

(** [C6] The identifier of a family: the family name is split on the runs
    of characters outside [0-9A-Za-z], the fragments that remain are the
    maximal runs of alphanumeric characters, each gets its first letter in
    upper case and they are concatenated; a name without any fragment, such
    as the empty name or a name of symbols only, gives a single underscore;
    the result goes through the sanitation of identifiers, which here puts
    an underscore in front of a result that starts with a digit and changes
    nothing else. *)
Theorem to_pascal_case_spec :
  (forall name, Runs alnum_char name (runs alnum_char name))
  /\ (forall name,
        to_pascal_case name =
          to_valid_identifier
            (match runs alnum_char name with
             | [] => $"_"
             | frs => concat (map capitalize frs)
             end))
  /\ (forall name,
        forallb (fun c => negb (alnum_char c)) name = true ->
        to_pascal_case name = $"_")
  /\ to_pascal_case $"Open Sans" = $"OpenSans"
  /\ to_pascal_case $"my-font_2" = $"MyFont2"
  /\ to_pascal_case $"" = $"_"
  /\ to_pascal_case $"-- !" = $"_"
  /\ (forall name,
        to_pascal_case name =
          sanitized
            (match runs alnum_char name with
             | [] => $"_"
             | frs => concat (map capitalize frs)
             end))
  /\ (forall name,
        to_pascal_case name =
          match runs alnum_char name with
          | [] => $"_"
          | frs =>
              let out := concat (map capitalize frs) in
              if starts_with_digit out then "_"%char :: out else out
          end)
  /\ to_pascal_case $"9lives" = $"_9lives"
  /\ to_pascal_case $"3d-font" = $"_3dFont"
  /\ to_pascal_case $"_private part" = $"PrivatePart"
  /\ to_pascal_case $"IBM plex-mono" = $"IBMPlexMono".
Proof.
  split; [apply runs_Runs|].
  split.
  { intros name. rewrite to_pascal_case_runs.
    by destruct (runs alnum_char name). }
  split.
  { intros name H. rewrite to_pascal_case_runs.
    by rewrite (runs_all_sep alnum_char name H). }
  split; [rewrite to_pascal_case_runs; vm_compute; reflexivity|].
  split; [rewrite to_pascal_case_runs; vm_compute; reflexivity|].
  split; [rewrite to_pascal_case_runs; vm_compute; reflexivity|].
  split; [rewrite to_pascal_case_runs; vm_compute; reflexivity|].
  split.
  { intros name. rewrite to_pascal_case_runs.
    destruct (runs alnum_char name); [done | apply to_valid_identifier_sanitized]. }
  split.
  { intros name. destruct (runs alnum_char name) as [|fr frs] eqn:E.
    - by rewrite to_pascal_case_runs, E.
    - by apply to_pascal_case_fragments. }
  repeat split; vm_compute; reflexivity.
Qed.

(** ** Stripping *)

Lemma lstrip_with_split p s :
  exists a, s = a ++ lstrip_with p s /\ forallb p a = true.
Proof.
  induction s as [|c s (a & E & Ha)]; simpl.
  - by exists [].
  - destruct (p c) eqn:Hc.
    + exists (c :: a). simpl. rewrite Hc, Ha. split; [by rewrite <- E | done].
    + by exists [].
Qed.

Lemma lstrip_with_head p s :
  match lstrip_with p s with c :: _ => p c = false | [] => True end.
Proof.
  induction s as [|c s IH]; simpl; [done|].
  destruct (p c) eqn:Hc; [done|]. by rewrite Hc.
Qed.

Lemma lstrip_with_fixed p s :
  match s with c :: _ => p c = false | [] => True end -> lstrip_with p s = s.
Proof. destruct s as [|c s]; simpl; [done|]. by intros ->. Qed.

Lemma lstrip_with_idem p s : lstrip_with p (lstrip_with p s) = lstrip_with p s.
Proof. apply lstrip_with_fixed, lstrip_with_head. Qed.

Lemma rstrip_with_split p s :
  exists b, s = rstrip_with p s ++ b /\ forallb p b = true.
Proof.
  unfold rstrip_with. destruct (lstrip_with_split p (rev s)) as (a & E & Ha).
  exists (rev a). split.
  - rewrite <- rev_app_distr, <- E. by rewrite rev_involutive.
  - rewrite forallb_forall in *. intros x Hx. apply Ha. by apply in_rev.
Qed.

Lemma rstrip_with_last p s :
  match last (rstrip_with p s) with Some c => p c = false | None => True end.
Proof.
  unfold rstrip_with. pose proof (lstrip_with_head p (rev s)) as H.
  destruct (lstrip_with p (rev s)) as [|c t]; [done|].
  simpl. by rewrite last_snoc.
Qed.

Lemma rstrip_with_fixed p s :
  match last s with Some c => p c = false | None => True end ->
  rstrip_with p s = s.
Proof.
  intros H. unfold rstrip_with. rewrite lstrip_with_fixed; [apply rev_involutive|].
  destruct s as [|c s] using rev_ind; [done|].
  rewrite rev_app_distr. simpl. by rewrite last_snoc in H.
Qed.

(** Stripping on the right keeps the first character. *)
Lemma rstrip_with_head p s c :
  p c = false -> head s = Some c -> head (rstrip_with p s) = Some c.
Proof.
  intros Hc Hs. destruct (rstrip_with_split p s) as (b & E & Hb).
  destruct (rstrip_with p s) as [|x t] eqn:Hr.
  - simpl in E. subst b. destruct s as [|y s]; [done|].
    simpl in Hs, Hb. inversion Hs; subst y. by rewrite Hc in Hb.
  - rewrite E in Hs. simpl in Hs. by inversion Hs.
Qed.

Lemma part_of_refl s : part_of s s.
Proof. exists [], []. by rewrite app_nil_r. Qed.

Lemma part_of_trans r s t : part_of r s -> part_of s t -> part_of r t.
Proof.
  intros (a & b & ->) (a' & b' & ->). exists (a' ++ a), (b ++ b').
  by rewrite <- !app_assoc.
Qed.

Lemma strip_split s :
  exists a b, s = a ++ strip s ++ b /\
    forallb isspace a = true /\ forallb isspace b = true.
Proof.
  unfold strip. destruct (lstrip_with_split isspace s) as (a & E & Ha).
  destruct (rstrip_with_split isspace (lstrip_with isspace s)) as (b & E' & Hb).
  exists a, b. split; [|done]. by rewrite <- E', <- E.
Qed.

Lemma strip_part_of s : part_of (strip s) s.
Proof. destruct (strip_split s) as (a & b & E & _). by exists a, b. Qed.

Lemma strip_head s :
  match strip s with c :: _ => isspace c = false | [] => True end.
Proof.
  unfold strip. pose proof (lstrip_with_head isspace s) as H.
  destruct (lstrip_with isspace s) as [|c t] eqn:E; [done|].
  pose proof (rstrip_with_head isspace (c :: t) c H eq_refl) as H'.
  destruct (rstrip_with isspace (c :: t)); [done|]. simpl in H'. by inversion H'; subst.
Qed.

Lemma strip_last s :
  match last (strip s) with Some c => isspace c = false | None => True end.
Proof. apply rstrip_with_last. Qed.

Lemma strip_fixed s :
  match s with c :: _ => isspace c = false | [] => True end ->
  match last s with Some c => isspace c = false | None => True end ->
  strip s = s.
Proof.
  intros H1 H2. unfold strip. rewrite lstrip_with_fixed by done.
  by apply rstrip_with_fixed.
Qed.

Lemma strip_idem s : strip (strip s) = strip s.
Proof. apply strip_fixed; [apply strip_head | apply strip_last]. Qed.

(** ** Quotes *)

(** A string is empty, or one character, or a first character, a middle and
    a last character. *)
Lemma str_ends (s : str) :
  s = [] \/ (exists q, s = [q]) \/ exists q m q', s = q :: m ++ [q'].
Proof.
  destruct s as [|q s]; [by left|]. right.
  destruct s as [|q' s] using rev_ind; [left; by exists q|].
  right. by exists q, s, q'.
Qed.

Lemma slice_inner_part_of s : part_of (slice (Some 1%Z) (Some (-1)%Z) s) s.
Proof.
  destruct (str_ends s) as [->|[[q ->]|(q & m & q' & ->)]].
  - exists [], []. done.
  - exists [], [q]. done.
  - rewrite slice_inner. by exists [q], [q'].
Qed.

Lemma endswith_snoc q m c : endswith q (m ++ [c]) = is_char q c.
Proof. unfold endswith. by rewrite last_snoc. Qed.

Lemma endswith_cons_snoc q x m c : endswith q (x :: m ++ [c]) = is_char q c.
Proof. by rewrite app_comm_cons, endswith_snoc. Qed.

Lemma clean_value_part_of value : part_of (clean_value value) value.
Proof.
  unfold clean_value.
  destruct (startswith dquote (strip value) && endswith dquote (strip value)
            || startswith squote (strip value) && endswith squote (strip value)).
  - eapply part_of_trans; [apply slice_inner_part_of | apply strip_part_of].
  - apply strip_part_of.
Qed.

(** A value between two quotes of the same kind loses them, once. *)
Lemma clean_value_quoted value q m :
  q = dquote \/ q = squote ->
  strip value = q :: m ++ [q] ->
  clean_value value = m.
Proof.
  intros Hq E. unfold clean_value. rewrite E.
  cbn [startswith]. rewrite !endswith_cons_snoc.
  destruct Hq as [-> | ->]; by rewrite slice_inner.
Qed.

(** A value of two characters or more that is not between two quotes of the
    same kind is only stripped, and so is the empty value. *)
Lemma clean_value_unquoted value :
  match strip value with
  | [] => True
  | [q] => q <> dquote /\ q <> squote
  | q :: r => ~ ((q = dquote \/ q = squote) /\ last r = Some q)
  end ->
  clean_value value = strip value.
Proof.
  intros H. unfold clean_value.
  destruct (strip value) as [|q r] eqn:E; [done|].
  cbn [startswith]. unfold endswith.
  destruct r as [|x r].
  - cbn [last]. destruct H as [H1 H2].
    destruct (is_char dquote q) eqn:E1; [apply is_char_eq in E1; congruence|].
    destruct (is_char squote q) eqn:E2; [apply is_char_eq in E2; congruence|]. done.
  - rewrite last_cons_cons.
    destruct (last (x :: r)) as [c|] eqn:El; [|by apply last_None in El].
    destruct (is_char dquote q) eqn:E1, (is_char dquote c) eqn:E1',
             (is_char squote q) eqn:E2, (is_char squote c) eqn:E2'; try done;
      repeat match goal with
             | Hx : is_char _ _ = true |- _ => apply is_char_eq in Hx
             end;
      exfalso; apply H; (split; [auto | congruence]).
Qed.

(** On a value that is not between quotes the helper only strips, and a
    second application changes nothing. *)
Lemma clean_value_idem_unquoted value :
  match strip value with
  | [] => True
  | [q] => q <> dquote /\ q <> squote
  | q :: r => ~ ((q = dquote \/ q = squote) /\ last r = Some q)
  end ->
  clean_value (clean_value value) = clean_value value.
Proof.
  intros H. rewrite (clean_value_unquoted value H).
  rewrite clean_value_unquoted; rewrite strip_idem; done.
Qed.

(** The examples of the specification. *)
Lemma clean_value_examples :
  clean_value ([dquote] ++ $"Arial" ++ [dquote]) = $"Arial"
  /\ clean_value $"'Arial'" = $"Arial"
  /\ clean_value $"Arial" = $"Arial"
  /\ clean_value ([dquote] ++ $"Ar'ial" ++ [dquote]) = $"Ar'ial"
  /\ clean_value ([dquote] ++ $"Arial'") = [dquote] ++ $"Arial'"
  /\ clean_value $"  'Open Sans' " = $"Open Sans".
Proof. repeat split; vm_compute; reflexivity. Qed.

(** [C4] The helper on a value that is a single quote character: the value
    has one character, hence no pair of quotes around anything, and the helper
    removes the character all the same. *)
Theorem clean_value_lone_quote :
  strip [dquote] = [dquote] /\ clean_value [dquote] = []
  /\ strip [squote] = [squote] /\ clean_value [squote] = [].
Proof. repeat split; vm_compute; reflexivity. Qed.

(** ** Weight, style and ranges *)

Lemma lower_idem s : lower (lower s) = lower s.
Proof.
  unfold lower. rewrite map_map. apply map_ext. intros c. apply lower_char_idem.
Qed.

Lemma parse_unicode_ranges_part_of v : part_of (parse_unicode_ranges (Some v)) v.
Proof.
  unfold parse_unicode_ranges. destruct v as [|c v]; simpl.
  - apply part_of_refl.
  - eapply part_of_trans; [apply strip_part_of | apply clean_value_part_of].
Qed.

(** [C10] The weight and the style of a descriptor are the values of the
    face without their quotes and in lower case, also when the face gives
    them (a weight written Bold between quotes comes out as bold), and
    [normal] when the face gives none; the ranges are the value without its
    quotes and surrounding white space, a part of the value with its letters
    as they were. *)
Theorem weight_style_lower_case (face : gmap str str) (rn : str) :
  let d := descriptor_of face rn in
  weight d =
    match face !! $"font-weight" with
    | Some (c :: v) => lower (strip (clean_value (c :: v)))
    | _ => $"normal"
    end
  /\ style d =
    match face !! $"font-style" with
    | Some (c :: v) => lower (strip (clean_value (c :: v)))
    | _ => $"normal"
    end
  /\ ranges d =
    match face !! $"unicode-range" with
    | Some (c :: v) => strip (clean_value (c :: v))
    | _ => []
    end
  /\ lower (weight d) = weight d
  /\ lower (style d) = style d
  /\ part_of (ranges d) (default [] (face !! $"unicode-range"))
  /\ parse_weight (Some ([dquote] ++ $"Bold" ++ [dquote])) = $"bold"
  /\ parse_style (Some $"Italic") = $"italic"
  /\ parse_unicode_ranges (Some $" 'U+0000-00FF, U+0131' ") = $"U+0000-00FF, U+0131".
Proof.
  cbn zeta. unfold descriptor_of. cbn [weight style ranges].
  unfold parse_weight, parse_style.
  repeat split.
  - by destruct (face !! $"font-weight") as [[|c v]|].
  - by destruct (face !! $"font-style") as [[|c v]|].
  - by destruct (face !! $"unicode-range") as [[|c v]|].
  - destruct (falsy (face !! $"font-weight")); [done | apply lower_idem].
  - destruct (falsy (face !! $"font-style")); [done | apply lower_idem].
  - destruct (face !! $"unicode-range") as [v|]; [|apply part_of_refl].
    apply parse_unicode_ranges_part_of.
Qed.

(** ** The lines of the bindings file *)

Lemma provider_lines_no_import fam :
  filter (fun l => is_import_line l = true) (provider_lines fam) = [].
Proof.
  unfold provider_lines. rewrite !filter_app.
  rewrite (filter_cons_False _ _ []) by (by vm_compute).
  rewrite (filter_cons_False _ _ []) by (by vm_compute).
  rewrite !filter_nil, app_nil_r. simpl.
  induction (snd fam) as [|d ds IH]; [done|].
  cbn [map]. rewrite filter_cons_False; [done|]. by vm_compute.
Qed.

Lemma providers_no_import (fams : list (str * list Descriptor)) :
  filter (fun l => is_import_line l = true) (concat (map provider_lines fams)) = [].
Proof.
  induction fams as [|fam fams IH]; [done|].
  cbn [map concat]. by rewrite filter_app, provider_lines_no_import, IH.
Qed.

Lemma package_lines_no_import args :
  filter (fun l => is_import_line l = true) (package_lines args) = [].
Proof.
  unfold package_lines. destruct (kotlin_package args) as [|c pkg]; [done|].
  rewrite filter_cons_False by (by vm_compute).
  by rewrite filter_cons_False by (by vm_compute).
Qed.

(** [C3], as the code has it.  The lines of the bindings file are the
    package line and a blank line when a package is given, then four import
    lines, two with the resource package and two with the classes
    [ResourceFontDescriptor] and [StaticFontDescriptorProvider] of the one
    library package, then a blank line, the declarations of the families and
    a last blank line; no other line of the file is an import line. *)
Theorem import_lines_four (args : Args) (ds : list Descriptor) :
  kotlin_lines args ds =
    (match kotlin_package args with
     | [] => []
     | pkg => [ $"package " ++ pkg; [] ]
     end)
    ++ [ $"import " ++ res_package args ++ $".Res";
         $"import " ++ res_package args ++ $".*";
         $"import xyz.hyli.klyph.ResourceFontDescriptor";
         $"import xyz.hyli.klyph.StaticFontDescriptorProvider" ]
    ++ [ [] ]
    ++ concat (map provider_lines (group_families ds))
    ++ [ [] ]
  /\ length (filter (fun l => is_import_line l = true) (kotlin_lines args ds)) = 4.
Proof.
  split; [done|].
  unfold kotlin_lines. rewrite !filter_app.
  rewrite package_lines_no_import, providers_no_import.
  unfold import_lines.
  rewrite !filter_cons_True by (by vm_compute).
  by rewrite filter_cons_False by (by vm_compute).
Qed.

(** [C3] fails as stated: with the default arguments the fourth line of the
    file is an import line, not the blank line that would follow three import
    lines. *)
Lemma import_lines_not_three :
  kotlin_lines default_args [] !! 3
    = Some $"import xyz.hyli.klyph.StaticFontDescriptorProvider"
  /\ kotlin_lines default_args [] !! 3 <> Some []
  /\ kotlin_lines default_args [] !! 4 = Some []
  /\ length (filter (fun l => is_import_line l = true)
               (kotlin_lines default_args [])) <> 3.
Proof. repeat split; vm_compute; congruence. Qed.

(** ** URLs *)

Section BreakAt.

Variable p : ascii -> bool.

Lemma break_at_app s : fst (break_at p s) ++ snd (break_at p s) = s.
Proof.
  induction s as [|c s IH]; simpl; [done|].
  destruct (p c); [done|]. destruct (break_at p s) as [a b]. simpl in *. by rewrite IH.
Qed.

Lemma break_at_fst s : forallb (fun c => negb (p c)) (fst (break_at p s)) = true.
Proof.
  induction s as [|c s IH]; simpl; [done|].
  destruct (p c) eqn:Hc; [done|]. destruct (break_at p s) as [a b]. simpl in *.
  by rewrite Hc, IH.
Qed.

Lemma break_at_snd s :
  match snd (break_at p s) with c :: _ => p c = true | [] => True end.
Proof.
  induction s as [|c s IH]; simpl; [done|].
  destruct (p c) eqn:Hc; [done|]. by destruct (break_at p s) as [a b].
Qed.

Lemma break_at_none s :
  forallb (fun c => negb (p c)) s = true -> break_at p s = (s, []).
Proof.
  induction s as [|c s IH]; simpl; [done|].
  intros [Hc Hs]%andb_prop. apply negb_true_iff in Hc. rewrite Hc, IH; done.
Qed.

(** A character of the class after [s] does not change the break inside
    [s]. *)
Lemma break_at_stop s d t :
  p d = true ->
  break_at p (s ++ d :: t) = (fst (break_at p s), snd (break_at p s) ++ d :: t).
Proof.
  intros Hd. induction s as [|c s IH]; simpl.
  - by rewrite Hd.
  - destruct (p c); [done|]. rewrite IH. by destruct (break_at p s).
Qed.

Lemma break_at_skip s t :
  forallb (fun c => negb (p c)) s = true ->
  break_at p (s ++ t) = (s ++ fst (break_at p t), snd (break_at p t)).
Proof.
  induction s as [|c s IH]; simpl.
  - intros _. by destruct (break_at p t).
  - intros [Hc Hs]%andb_prop. apply negb_true_iff in Hc. rewrite Hc, IH; done.
Qed.

End BreakAt.

Lemma delim_cases d : delim d = true -> d = "?"%char \/ d = "#"%char.
Proof.
  unfold delim. intros [H|H]%orb_prop; apply is_char_eq in H; auto.
Qed.

Lemma plain_cons c s : plain (c :: s) <-> delim c = false /\ plain s.
Proof.
  unfold plain. simpl. rewrite andb_true_iff, negb_true_iff. done.
Qed.

Lemma plain_app s t : plain (s ++ t) <-> plain s /\ plain t.
Proof. unfold plain. by rewrite forallb_app, andb_true_iff. Qed.

Lemma plain_drop n s : plain s -> plain (drop n s).
Proof.
  intros H. rewrite <- (take_drop n s) in H. by apply plain_app in H as [_ H].
Qed.

Lemma plain_take n s : plain s -> plain (take n s).
Proof.
  intros H. rewrite <- (take_drop n s) in H. by apply plain_app in H as [H _].
Qed.

Lemma plain_lstrip q s : plain s -> plain (lstrip_with q s).
Proof.
  intros H. destruct (lstrip_with_split q s) as (a & E & _).
  rewrite E in H. by apply plain_app in H as [_ H].
Qed.

Lemma plain_filter (q : ascii -> bool) s :
  plain s -> plain (filter (fun c => q c = false) s).
Proof.
  induction s as [|c s IH]; [done|]. intros [Hc Hs]%plain_cons.
  destruct (q c) eqn:Hq.
  - rewrite filter_cons_False by (by rewrite Hq). by apply IH.
  - rewrite filter_cons_True by done. apply plain_cons. split; [done | by apply IH].
Qed.

Lemma plain_not (q : ascii -> bool) s :
  (forall c, q c = true -> delim c = true) ->
  plain s -> forallb (fun c => negb (q c)) s = true.
Proof.
  intros Hq. induction s as [|c s IH]; [done|]. intros [Hc Hs]%plain_cons.
  simpl. rewrite IH by done. destruct (q c) eqn:E; [|done].
  apply Hq in E. congruence.
Qed.

Section UrlTail.

Variable netloc_valid : str -> bool.
Variable d : ascii.
Hypothesis Hd : delim d = true.

Lemma clean_url_tail u t :
  plain u -> exists u' t', plain u' /\ clean_url u = u' /\ clean_url (u ++ d :: t) = u' ++ d :: t'.
Proof.
  intros Hu. unfold clean_url.
  assert (E : lstrip_with C0_CONTROL_OR_SPACE (u ++ d :: t)
              = lstrip_with C0_CONTROL_OR_SPACE u ++ d :: t).
  { clear Hu. induction u as [|c u IH]; simpl.
    - destruct (delim_cases d Hd) as [-> | ->]; done.
    - by destruct (C0_CONTROL_OR_SPACE c). }
  rewrite E, filter_app.
  rewrite filter_cons_True by (destruct (delim_cases d Hd) as [-> | ->]; done).
  eexists _, _. split; [|split; reflexivity].
  by apply plain_filter, plain_lstrip.
Qed.

Lemma find_app_Some c u v i : find c u = Some i -> find c (u ++ v) = Some i.
Proof.
  revert i. induction u as [|x u IH]; intros i; simpl; [done|].
  destruct (is_char c x); [done|].
  destruct (find c u) as [j|]; [|done]. intros H. by rewrite (IH j).
Qed.

Lemma find_lt c u i : find c u = Some i -> i < length u.
Proof.
  revert i. induction u as [|x u IH]; intros i; simpl; [done|].
  destruct (is_char c x); [intros [= <-]; lia|].
  destruct (find c u) as [j|]; [|done]. intros [= <-]. specialize (IH j eq_refl). lia.
Qed.

Lemma find_app_None c u v i :
  find c u = None -> find c (u ++ v) = Some i -> length u <= i.
Proof.
  revert i. induction u as [|x u IH]; intros i; simpl; [lia|].
  destruct (is_char c x); [done|].
  destruct (find c u) as [j|]; [done|]. intros _.
  destruct (find c (u ++ v)) as [j|]; [|done]. intros [= <-].
  specialize (IH j eq_refl eq_refl). lia.
Qed.

Lemma find_head_ne c x v i :
  is_char c x = false -> find c (x :: v) = Some i -> 0 < i.
Proof.
  simpl. intros ->. destruct (find c v); [|done]. intros [= <-]. lia.
Qed.

Lemma split_scheme_tail u t :
  plain u ->
  plain (snd (split_scheme u)) /\
  split_scheme (u ++ d :: t) = (fst (split_scheme u), snd (split_scheme u) ++ d :: t).
Proof.
  intros Hu. unfold split_scheme.
  assert (Hsd : scheme_char d = false /\ ascii_alpha d = false /\ is_char ":" d = false).
  { destruct (delim_cases d Hd) as [-> | ->]; done. }
  destruct Hsd as (Hsd & Had & Hcd).
  destruct (find ":" u) as [i|] eqn:Hf.
  - rewrite (find_app_Some _ _ _ _ Hf). pose proof (find_lt _ _ _ Hf) as Hi.
    destruct i as [|i]; [by destruct u|].
    destruct u as [|c u]; [done|]. cbn [app].
    rewrite !app_comm_cons.
    rewrite take_app_le by (simpl in *; lia).
    destruct (ascii_alpha c && forallb scheme_char (take (S i) (c :: u))); simpl.
    + split; [by apply (plain_drop (S (S i)) (c :: u))|].
      f_equal. change (drop (S i) (u ++ d :: t) = drop (S i) u ++ d :: t).
      rewrite drop_app_le by (simpl in *; lia). done.
    + done.
  - split.
    { destruct u; done. }
    destruct (find ":" (u ++ d :: t)) as [j|] eqn:Hf'; [|done].
    pose proof (find_app_None _ _ _ _ Hf Hf') as Hj.
    destruct u as [|c u].
    + simpl in *. rewrite Hcd in Hf'.
      destruct j as [|j]; [|by rewrite Had].
      by destruct (find ":" t).
    + destruct j as [|j]; [simpl in Hj; lia|]. simpl. simpl in Hj.
      replace (forallb scheme_char (take j (u ++ d :: t))) with false;
        [by rewrite !andb_false_r|].
      symmetry. rewrite take_app_ge by lia.
      rewrite forallb_app.
      assert (0 < j - length u).
      { destruct (decide (j = length u)) as [->|]; [|lia].
        exfalso. simpl in Hf'. destruct (is_char ":" c); [done|].
        destruct (find ":" (u ++ d :: t)) as [k|] eqn:Hk; [|done].
        inversion Hf'; subst k.
        clear -Hk Hcd. revert Hk. induction u as [|x u IH]; simpl.
        - by rewrite Hcd; destruct (find ":" t).
        - destruct (is_char ":" x); [done|].
          destruct (find ":" (u ++ d :: t)) as [k|]; [|done].
          intros [= ->]. by apply IH. }
      destruct (j - length u) as [|k]; [lia|]. simpl. rewrite Hsd.
      apply andb_false_r.
Qed.

Lemma split_netloc_tail r t :
  plain r ->
  exists n b ok, plain b /\
    split_netloc netloc_valid r = (n, b, ok) /\
    split_netloc netloc_valid (r ++ d :: t) = (n, b ++ d :: t, ok).
Proof.
  intros Hr. unfold split_netloc.
  assert (Hsl : is_char "/" d = false).
  { destruct (delim_cases d Hd) as [-> | ->]; done. }
  destruct r as [|c1 [|c2 r]].
  - exists [], [], true. simpl. rewrite Hsl. by destruct t.
  - exists [], [c1], true. simpl. rewrite Hsl, andb_false_r. done.
  - cbn [app]. destruct (is_char "/" c1 && is_char "/" c2).
    + unfold splitnetloc. cbn [drop].
      change (drop 0 ?x) with x.
      rewrite break_at_stop by (by rewrite Hd, !orb_true_r || (unfold delim in Hd; rewrite <- orb_assoc, Hd; apply orb_true_r)).
      pose proof (break_at_app (fun c => is_char "/" c || is_char "?" c || is_char "#" c) r) as E.
      destruct (break_at _ r) as [n b]. simpl in *.
      exists n, b, (netloc_valid n). split; [|done].
      apply plain_cons in Hr as [_ Hr]. apply plain_cons in Hr as [_ Hr].
      rewrite <- E in Hr. by apply plain_app in Hr as [_ Hr].
    + by exists [], (c1 :: c2 :: r), true.
Qed.

Lemma drop_fragment_query_tail b t :
  plain b ->
  drop_fragment_query b = b /\ drop_fragment_query (b ++ d :: t) = b.
Proof.
  intros Hb. unfold drop_fragment_query.
  assert (H1 : forallb (fun c => negb (is_char "#" c)) b = true).
  { apply plain_not; [|done]. intros c H. unfold delim. by rewrite H, orb_true_r. }
  assert (H2 : forallb (fun c => negb (is_char "?" c)) b = true).
  { apply plain_not; [|done]. intros c H. unfold delim. by rewrite H. }
  split.
  - rewrite (break_at_none _ _ H1). simpl. by rewrite (break_at_none _ _ H2).
  - destruct (delim_cases d Hd) as [-> | ->].
    + rewrite (break_at_skip _ _ _ H1). simpl.
      destruct (break_at (is_char "#") t) as [x y]. simpl.
      rewrite break_at_stop by done. by rewrite (break_at_none _ _ H2).
    + rewrite break_at_stop by done. rewrite (break_at_none _ _ H1). simpl.
      by rewrite (break_at_none _ _ H2).
Qed.

Lemma urlparse_path_tail u t :
  plain u ->
  urlparse_path netloc_valid (u ++ d :: t) = urlparse_path netloc_valid u.
Proof.
  intros Hu. unfold urlparse_path, urlsplit.
  destruct (clean_url_tail u t Hu) as (u' & t' & Hu' & -> & ->).
  destruct (split_scheme_tail u' t' Hu') as (Hr & ->).
  destruct (split_scheme u') as [scheme r]. simpl in Hr. cbn [fst snd].
  destruct (split_netloc_tail r t' Hr) as (n & b & ok & Hb & -> & ->).
  destruct (drop_fragment_query_tail b t' Hb) as [-> ->]. done.
Qed.

End UrlTail.

Lemma urlparse_path_cut_query netloc_valid url :
  urlparse_path netloc_valid url = urlparse_path netloc_valid (cut_query url).
Proof.
  unfold cut_query. pose proof (break_at_app delim url) as E.
  pose proof (break_at_fst delim url) as Hp.
  pose proof (break_at_snd delim url) as Hs.
  destruct (break_at delim url) as [u r]. simpl in *. subst url.
  destruct r as [|d t]; [by rewrite app_nil_r|].
  by apply urlparse_path_tail.
Qed.

Lemma font_ext_unfold env font_url :
  font_ext env font_url =
    match urlparse_path (netloc_valid env) font_url with
    | Some path =>
        Ok (match PathLib.suffix path with [] => $".woff2" | sfx => sfx end)
    | None => Raise ValueError
    end.
Proof. unfold font_ext. by destruct (urlparse_path (netloc_valid env) font_url). Qed.

(** ** File names *)

Lemma split_char_parts sep s :
  Forall (fun p => forallb (fun c => negb (is_char sep c)) p = true)
         (PathLib.split_char sep s).
Proof.
  induction s as [|c s IH]; simpl; [by repeat constructor|].
  destruct (is_char sep c) eqn:E; [by constructor|].
  destruct (PathLib.split_char sep s) as [|p ps]; [by repeat constructor; simpl; rewrite E|].
  apply Forall_cons in IH as [Hp Hps]. constructor; [|done]. simpl. by rewrite E, Hp.
Qed.

Lemma name_no_slash p : no_slash (PathLib.name p).
Proof.
  unfold PathLib.name.
  destruct (last _) as [x|] eqn:E; [|done]. simpl.
  apply last_Some_elem_of, list_elem_of_filter in E as [_ E].
  pose proof (split_char_parts "/" p) as H. rewrite Forall_forall in H. by apply H.
Qed.

Lemma no_slash_drop i s : no_slash s -> no_slash (drop i s).
Proof.
  unfold no_slash. revert i. induction s as [|c s IH]; intros [|i]; try done.
  simpl. intros [_ Hs]%andb_prop. by apply IH.
Qed.

Lemma suffix_no_slash p : no_slash (PathLib.suffix p).
Proof.
  unfold PathLib.suffix. destruct (rfind "." (PathLib.name p)) as [i|]; [|done].
  destruct (_ && _); [|done]. apply no_slash_drop, name_no_slash.
Qed.

Lemma no_slash_app a b : no_slash a -> no_slash b -> no_slash (a ++ b).
Proof. unfold no_slash. rewrite forallb_app. by intros -> ->. Qed.

Lemma ident_char_no_slash s : forallb ident_char s = true -> no_slash s.
Proof.
  unfold no_slash. induction s as [|c s IH]; [done|]. simpl.
  intros [Hc Hs]%andb_prop. rewrite (IH Hs), andb_true_r.
  revert Hc. each_char c.
Qed.

(** The name of the file of a font is one component of a path, and neither
    of the two special ones: it starts with an underscore and has no
    slash.  So [out_dir / filename] is an entry of the output directory. *)
Lemma filename_component env font_url ext h :
  font_ext env font_url = Ok ext ->
  startswith "_" (resource_name_of h ++ ext) = true
  /\ no_slash (resource_name_of h ++ ext).
Proof.
  intros H. split.
  - pose proof (resource_name_of_head h) as Hh.
    by destruct (resource_name_of h).
  - apply no_slash_app; [apply ident_char_no_slash, resource_name_of_ident|].
    rewrite font_ext_unfold in H.
    destruct (urlparse_path (netloc_valid env) font_url) as [path|]; [|done].
    injection H as <-. pose proof (suffix_no_slash path) as Hs.
    by destruct (PathLib.suffix path).
Qed.

(** ** The loop over the faces *)

Lemma process_face_plan env css face st :
  process_face env css face st =
    let* p := face_plan env css face in
    Ok (match p with Some p => apply_plan st p | None => st end).
Proof.
  unfold process_face, face_plan.
  destruct (pick_url (face !! $"src")) as [[|c u]|]; try done.
  destruct (urljoin env css (c :: u)) as [font_url|]; [|done]. simpl.
  destruct (fetch_bytes env font_url) as [data|]; [|done]. simpl.
  by destruct (font_ext env font_url) as [e|ext].
Qed.

Lemma process_faces_plans env css faces st :
  process_faces env css faces st =
    let* ps := plans env css faces in Ok (run ps st).
Proof.
  revert st. induction faces as [|face faces IH]; intros st; [done|].
  cbn [process_faces plans]. rewrite process_face_plan.
  destruct (face_plan env css face) as [e|[p|]]; simpl; [done| |].
  - rewrite IH. by destruct (plans env css faces).
  - rewrite IH. by destruct (plans env css faces).
Qed.

Lemma process_faces_app env css a b st :
  process_faces env css (a ++ b) st =
    let* st' := process_faces env css a st in process_faces env css b st'.
Proof.
  revert st. induction a as [|face a IH]; intros st; [done|].
  cbn [app process_faces]. destruct (process_face env css face st) as [e|st']; [done|].
  simpl. apply IH.
Qed.

Lemma plans_app env css a b :
  plans env css (a ++ b) =
    let* pa := plans env css a in
    let* pb := plans env css b in
    Ok (pa ++ pb).
Proof.
  induction a as [|face a IH]; simpl.
  - by destruct (plans env css b).
  - destruct (face_plan env css face) as [e|p]; [done|]. simpl.
    rewrite IH. destruct (plans env css a) as [e|pa]; [done|]. simpl.
    destruct (plans env css b) as [e|pb]; [done|]. simpl. by destruct p.
Qed.

Lemma run_cons p ps st : run (p :: ps) st = run ps (apply_plan st p).
Proof. done. Qed.

Lemma run_descriptors ps st :
  descriptors (run ps st) = descriptors st ++ map p_descriptor ps.
Proof.
  revert st. induction ps as [|p ps IH]; intros st.
  - simpl. by rewrite app_nil_r.
  - rewrite run_cons, IH. unfold apply_plan, append_descriptor, write_if_absent, fetched.
    simpl. destruct (files st !! p_filename p); simpl; by rewrite <- app_assoc.
Qed.

Lemma run_requests ps st :
  requests (run ps st) = requests st ++ map p_url ps.
Proof.
  revert st. induction ps as [|p ps IH]; intros st.
  - simpl. by rewrite app_nil_r.
  - rewrite run_cons, IH. unfold apply_plan, append_descriptor, write_if_absent, fetched.
    simpl. destruct (files st !! p_filename p); simpl; by rewrite <- app_assoc.
Qed.

Lemma apply_plan_present st p old :
  files st !! p_filename p = Some old ->
  files (apply_plan st p) = files st /\ written (apply_plan st p) = written st.
Proof.
  intros H. unfold apply_plan, append_descriptor, write_if_absent, fetched. simpl.
  by rewrite H.
Qed.

Lemma apply_plan_absent st p :
  files st !! p_filename p = None ->
  files (apply_plan st p) = <[p_filename p := p_data p]> (files st) /\
  written (apply_plan st p) = written st ++ [(p_filename p, p_data p)].
Proof.
  intros H. unfold apply_plan, append_descriptor, write_if_absent, fetched. simpl.
  by rewrite H.
Qed.

(** A file that exists keeps its bytes. *)
Lemma run_files_kept ps st n old :
  files st !! n = Some old -> files (run ps st) !! n = Some old.
Proof.
  revert st. induction ps as [|p ps IH]; intros st H; [done|].
  rewrite run_cons. apply IH.
  destruct (files st !! p_filename p) as [old'|] eqn:E.
  - by rewrite (proj1 (apply_plan_present _ _ _ E)).
  - rewrite (proj1 (apply_plan_absent _ _ E)).
    rewrite lookup_insert_ne; [done|]. intros Heq. rewrite Heq in E. congruence.
Qed.

(** After the loop every file it names exists. *)
Lemma run_files_present ps st p :
  p ∈ ps -> is_Some (files (run ps st) !! p_filename p).
Proof.
  revert st. induction ps as [|q ps IH]; intros st Hp.
  - by apply elem_of_nil in Hp.
  - rewrite run_cons. apply elem_of_cons in Hp as [->|Hp]; [|by apply IH].
    destruct (files st !! p_filename q) as [old|] eqn:E.
    + exists old. apply run_files_kept. by rewrite (proj1 (apply_plan_present _ _ _ E)).
    + exists (p_data q). apply run_files_kept.
      rewrite (proj1 (apply_plan_absent _ _ E)). apply lookup_insert_eq.
Qed.

(** Every write of the loop creates a file that did not exist. *)
Lemma run_written_new ps st n data :
  (n, data) ∈ written (run ps st) ->
  (n, data) ∈ written st \/ files st !! n = None.
Proof.
  revert st. induction ps as [|p ps IH]; intros st H; [by left|].
  rewrite run_cons in H. apply IH in H.
  destruct (files st !! p_filename p) as [old|] eqn:E.
  - destruct (apply_plan_present _ _ _ E) as [-> ->] in H. done.
  - destruct (apply_plan_absent _ _ E) as [Hf Hw]. rewrite Hf, Hw in H.
    destruct H as [H|H].
    + apply elem_of_app in H as [H|H]; [by left|].
      apply list_elem_of_singleton in H. inversion H; subst. by right.
    + right. destruct (decide (p_filename p = n)) as [<-|Hne]; [done|].
      by rewrite lookup_insert_ne in H.
Qed.

(** When every file the loop names exists, it writes nothing. *)
Lemma run_all_present ps st :
  (forall p, p ∈ ps -> is_Some (files st !! p_filename p)) ->
  files (run ps st) = files st /\ written (run ps st) = written st.
Proof.
  revert st. induction ps as [|p ps IH]; intros st H; [done|].
  rewrite run_cons. destruct (H p) as [old E]; [apply elem_of_cons; by left|].
  destruct (apply_plan_present _ _ _ E) as [Hf Hw].
  destruct (IH (apply_plan st p)) as [-> ->]; [|done].
  intros q Hq. rewrite Hf. apply H. apply elem_of_cons. by right.
Qed.

Lemma writes_to_app n ws ws' : writes_to n (ws ++ ws') = writes_to n ws + writes_to n ws'.
Proof. unfold writes_to. by rewrite filter_app, length_app. Qed.

Lemma run_writes_to ps st n :
  writes_to n (written (run ps st)) =
    writes_to n (written st) +
    (if bool_decide (files st !! n = None /\ n ∈ map p_filename ps) then 1 else 0).
Proof.
  revert st. induction ps as [|p ps IH]; intros st.
  - simpl. rewrite bool_decide_eq_false_2; [lia|]. intros [_ H]. by apply elem_of_nil in H.
  - rewrite run_cons, IH. cbn [map].
    destruct (files st !! p_filename p) as [old|] eqn:E.
    + destruct (apply_plan_present _ _ _ E) as [-> ->]. f_equal.
      assert (Hiff : files st !! n = None /\ n ∈ map p_filename ps <->
                     files st !! n = None /\ n ∈ p_filename p :: map p_filename ps).
      { rewrite elem_of_cons. split; [tauto|].
        intros [Hn [->|H]]; [congruence | done]. }
      by rewrite (bool_decide_ext _ _ Hiff).
    + destruct (apply_plan_absent _ _ E) as [-> ->].
      rewrite writes_to_app. unfold writes_to at 2. cbn [filter].
      destruct (decide (p_filename p = n)) as [<-|Hne].
      * rewrite filter_cons_True by done. rewrite filter_nil. cbn [length].
        rewrite lookup_insert_eq.
        rewrite bool_decide_eq_false_2 by (by intros [? _]).
        rewrite bool_decide_eq_true_2; [lia|]. split; [done|]. apply elem_of_cons. by left.
      * rewrite filter_cons_False by done. rewrite filter_nil. cbn [length].
        rewrite lookup_insert_ne by done. rewrite Nat.add_0_r. f_equal.
        assert (Hiff : files st !! n = None /\ n ∈ map p_filename ps <->
                       files st !! n = None /\ n ∈ p_filename p :: map p_filename ps).
        { rewrite elem_of_cons. split; [tauto|]. intros [Hn [Heq|H]]; [congruence | done]. }
        by rewrite (bool_decide_ext _ _ Hiff).
Qed.

(** ** Faces without a usable URL *)

(** A repetition followed by something that cannot start with a character of
    its class takes the whole run of such characters. *)
Lemma many_run {R} p (k : str -> option R) a b :
  forallb p a = true ->
  match b with c :: _ => p c = false | [] => True end ->
  (forall c t, p c = true -> k (c :: t) = None) ->
  many p k (a ++ b) = k b.
Proof.
  intros Ha Hb Hk. induction a as [|x a IH]; simpl.
  - destruct b as [|c t]; [done|]. simpl. by rewrite Hb.
  - simpl in Ha. apply andb_prop in Ha as [Hx Ha]. rewrite Hx, (IH Ha).
    destruct (k b) eqn:E; [done|]. by apply Hk.
Qed.

Lemma search_None_intro pat s :
  (forall a b, a ++ b = s -> mtch pat b = None) -> search pat s = None.
Proof.
  induction s as [|c s IH]; intros H; simpl.
  - by rewrite (H [] []).
  - rewrite (H [] (c :: s)) by done. rewrite IH; [done|].
    intros a b E. apply (H (c :: a) b). simpl. by rewrite E.
Qed.

Lemma findall1_nil_search pat s :
  consuming pat = true -> (findall1 pat s = [] <-> search pat s = None).
Proof.
  intros Hc. unfold findall1. rewrite finditer_unfold by done.
  destruct (search pat s) as [[[pre ms] e]|]; [|done].
  destruct (finditer pat e). done.
Qed.

Lemma lit_ci_lower x c :
  lower_char x = x -> (is_char (lower_char x) (lower_char c) = true <-> lower_char c = x).
Proof. intros ->. rewrite is_char_eq. split; congruence. Qed.

Lemma lower_rparen c : lower_char c = ")"%char -> c = ")"%char.
Proof. each_char c. Qed.

Lemma mtch_URL_RE b :
  (exists ms e, mtch URL_RE b = Some (ms, e)) <-> url_at b.
Proof.
  set (np := fun c => negb (is_char ")" c)).
  set (k := mtch [Mark; lit_ci ")"]).
  assert (Hk : forall c t, np c = true -> k (c :: t) = None).
  { intros c t Hc. unfold k. simpl.
    destruct (is_char (lower_char ")") (lower_char c)) eqn:E; [|done].
    apply is_char_eq in E. symmetry in E. apply lower_rparen in E. subst c. done. }
  split.
  - intros (ms & e & H). unfold URL_RE in H. simpl in H.
    destruct b as [|c1 b]; [done|].
    destruct (is_char (lower_char "u") (lower_char c1)) eqn:E1; [|done].
    destruct b as [|c2 b]; [done|].
    destruct (is_char (lower_char "r") (lower_char c2)) eqn:E2; [|done].
    destruct b as [|c3 b]; [done|].
    destruct (is_char (lower_char "l") (lower_char c3)) eqn:E3; [|done].
    destruct b as [|c4 b]; [done|].
    destruct (is_char (lower_char "(") (lower_char c4)) eqn:E4; [|done].
    destruct b as [|x b]; [done|].
    destruct (negb (is_char ")" x)) eqn:Ex; [|done].
    destruct (many _ _ b) as [[ms' e']|] eqn:Hm; [|done].
    apply many_Some in Hm as (a & b' & -> & Ha & Hb' & _).
    destruct b' as [|y b']; [done|].
    destruct (is_char (lower_char ")") (lower_char y)) eqn:Ey; [|done].
    apply is_char_eq in Ey. symmetry in Ey. apply lower_rparen in Ey. subst y.
    exists [c1; c2; c3; c4], (x :: a), b'. repeat split; try done.
    + apply lit_ci_lower in E1, E2, E3, E4; try done.
      unfold lower. simpl. congruence.
    + simpl. by rewrite Ex, Ha.
  - intros (kk & inner & rest & -> & Hl & Hne & Hin).
    destruct kk as [|c1 [|c2 [|c3 [|c4 [|c5 kk]]]]]; try done.
    unfold lower in Hl. simpl in Hl. inversion Hl as [[H1 H2 H3 H4]].
    destruct inner as [|x a]; [done|]. simpl in Hin. apply andb_prop in Hin as [Hx Ha].
    unfold URL_RE. simpl. rewrite H1, H2, H3, H4. rewrite !is_char_refl.
    rewrite Hx.
    change (many _ _ (a ++ ")"%char :: rest)) with (many np k (a ++ ")"%char :: rest)).
    rewrite many_run; [|done|done|done].
    unfold k. simpl. by eexists _, _.
Qed.

Lemma findall1_URL_RE_nil v : findall1 URL_RE v = [] <-> ~ contains_url v.
Proof.
  rewrite findall1_nil_search by done. split.
  - intros H (a & b & -> & Hb). apply mtch_URL_RE in Hb as (ms & e & Hm).
    by rewrite (search_None _ _ H a b eq_refl) in Hm.
  - intros H. apply search_None_intro. intros a b <-.
    destruct (mtch URL_RE b) as [[ms e]|] eqn:Hm; [|done].
    exfalso. apply H. exists a, b. split; [done|]. apply mtch_URL_RE. by exists ms, e.
Qed.

Lemma pick_url_no_url src : no_url src -> pick_url src = None.
Proof.
  unfold pick_url. destruct src as [[|c v]|]; try done.
  intros [H|H]; [done|]. simpl. by apply findall1_URL_RE_nil in H as ->.
Qed.

(** [C7] A face whose [src] is absent, empty or without an occurrence of
    [url(...)] is skipped: the body of the loop returns the state as it
    was, with no descriptor, no fetch, no file and no exception, and a run
    over faces that include it is the run over the faces without it. *)
Theorem face_without_url_skipped (env : Env) (css_url : str)
    (face : gmap str str) :
  no_url (face !! $"src") ->
  (forall st, process_face env css_url face st = Ok st)
  /\ (forall before after st,
        process_faces env css_url (before ++ face :: after) st
        = process_faces env css_url (before ++ after) st).
Proof.
  intros H. apply pick_url_no_url in H.
  assert (Hs : forall st, process_face env css_url face st = Ok st).
  { intros st. unfold process_face. by rewrite H. }
  split; [done|]. intros before after st.
  rewrite !process_faces_app. cbn [process_faces].
  destruct (process_faces env css_url before st) as [e|st']; [done|].
  simpl. by rewrite Hs.
Qed.

(** ** Running again *)

Lemma State_eq (s1 s2 : State) :
  descriptors s1 = descriptors s2 -> files s1 = files s2 ->
  written s1 = written s2 -> requests s1 = requests s2 -> s1 = s2.
Proof. destruct s1, s2. simpl. by intros -> -> -> ->. Qed.

Lemma main_plans env args fs o :
  main env args fs = Ok o ->
  exists css_text ps,
    fetch_text env (css_url args) = Some css_text /\
    plans env (css_url args) (parse_font_faces css_text) = Ok ps /\
    o = {| final := run ps (initial_state args fs);
           kotlin_text := join [newline]
             (kotlin_lines args (descriptors (run ps (initial_state args fs))));
           downloaded := length (descriptors (run ps (initial_state args fs))) |}.
Proof.
  unfold main. destruct (fetch_text env (css_url args)) as [css_text|] eqn:Hc; [|done].
  simpl. rewrite process_faces_plans.
  destruct (plans env (css_url args) (parse_font_faces css_text)) as [e|ps] eqn:Hp; [done|].
  simpl. intros [= <-]. by exists css_text, ps.
Qed.

(** [C8] The writer leaves a file that exists as it is.  In a run that
    succeeds, every file of the output directory keeps its bytes and every
    write creates a file that was not there; and a second run on the
    directory the first one left, with the same arguments and the same
    network, writes nothing, leaves the directory as it is and produces the
    same descriptors, the same bindings text and the same count. *)
Theorem rerun_writes_nothing (env : Env) (args : Args) (fs : gmap str bytes)
    (o : Outcome) :
  main env args fs = Ok o ->
  (forall filename data st old,
      files st !! filename = Some old -> write_if_absent filename data st = st)
  /\ (forall n old, fs !! n = Some old -> files (final o) !! n = Some old)
  /\ (forall n data, (n, data) ∈ written (final o) -> fs !! n = None)
  /\ main env args (files (final o)) =
       Ok {| final := {| descriptors := descriptors (final o);
                         files := files (final o);
                         written := [];
                         requests := requests (final o) |};
             kotlin_text := kotlin_text o;
             downloaded := downloaded o |}.
Proof.
  intros H. apply main_plans in H as (css_text & ps & Hcss & Hps & ->). cbn [final kotlin_text downloaded].
  split; [|split; [|split]].
  - intros filename data st old E. unfold write_if_absent. by rewrite E.
  - intros n old E. by apply run_files_kept.
  - intros n data E. apply run_written_new in E as [E|E]; [|done].
    by apply elem_of_nil in E.
  - unfold main. rewrite Hcss. simpl. rewrite process_faces_plans, Hps. simpl.
    set (st1 := run ps (initial_state args fs)).
    destruct (run_all_present ps (initial_state args (files st1))) as [Hf Hw].
    { intros p Hp. apply (run_files_present ps (initial_state args fs) p Hp). }
    assert (E : run ps (initial_state args (files st1)) =
                {| descriptors := descriptors st1; files := files st1;
                   written := []; requests := requests st1 |}).
    { apply State_eq; simpl; [| done | done |].
      - unfold st1. by rewrite !run_descriptors.
      - unfold st1. by rewrite !run_requests. }
    by rewrite E.
Qed.

(** ** Families *)

Lemma setdefault_append_perm fams d :
  concat (map snd (setdefault_append fams d)) ≡ₚ concat (map snd fams) ++ [d].
Proof.
  induction fams as [|[k items] fams IH]; simpl; [done|].
  destruct (decide (k = family d)); simpl.
  - rewrite <- !app_assoc. apply Permutation_app_head. apply Permutation_app_comm.
  - rewrite IH. by rewrite app_assoc.
Qed.

Lemma fold_setdefault_perm ds fams :
  concat (map snd (fold_left setdefault_append ds fams))
  ≡ₚ concat (map snd fams) ++ ds.
Proof.
  revert fams. induction ds as [|d ds IH]; intros fams; simpl.
  - by rewrite app_nil_r.
  - rewrite IH, setdefault_append_perm. by rewrite <- app_assoc.
Qed.

(** The groups hold the descriptors, each once. *)
Lemma group_families_perm ds : concat (map snd (group_families ds)) ≡ₚ ds.
Proof. unfold group_families. by rewrite fold_setdefault_perm. Qed.

Lemma elem_of_concat {A} (x : A) (ls : list (list A)) :
  x ∈ concat ls <-> exists l, x ∈ l /\ l ∈ ls.
Proof.
  induction ls as [|l ls IH]; simpl.
  - split; [by intros H%elem_of_nil | by intros (l & _ & H%elem_of_nil)].
  - rewrite elem_of_app, IH. split.
    + intros [H|(l' & H1 & H2)].
      * exists l. split; [done | by apply elem_of_cons; left].
      * exists l'. split; [done | by apply elem_of_cons; right].
    + intros (l' & H1 & [->|H2]%elem_of_cons); [by left|]. right. by exists l'.
Qed.

Lemma descriptor_line_emitted args ds d :
  d ∈ ds -> descriptor_line d ∈ kotlin_lines args ds.
Proof.
  intros Hd. rewrite <- (group_families_perm ds) in Hd.
  apply elem_of_concat in Hd as (items & Hd & Hitems).
  apply list_elem_of_fmap in Hitems as (fam & -> & Hfam).
  unfold kotlin_lines. rewrite !elem_of_app. right. right. left.
  apply elem_of_concat. exists (provider_lines fam). split.
  - unfold provider_lines. rewrite !elem_of_app. right. left.
    apply list_elem_of_fmap. by exists d.
  - apply list_elem_of_fmap. by exists fam.
Qed.

Lemma join_part_of sep l ls : l ∈ ls -> part_of l (join sep ls).
Proof.
  induction ls as [|x ls IH]; intros H; [by apply elem_of_nil in H|].
  apply elem_of_cons in H as [->|H].
  - destruct ls as [|y ls]; [apply part_of_refl|].
    exists [], (sep ++ join sep (y :: ls)). done.
  - destruct ls as [|y ls]; [by apply elem_of_nil in H|].
    destruct (IH H) as (a & b & E). exists (x ++ sep ++ a), b.
    change (join sep (x :: y :: ls)) with (x ++ sep ++ join sep (y :: ls)).
    rewrite E. by rewrite <- !app_assoc.
Qed.

(** ** Faces with the same binary *)

Lemma face_plan_resolved env css face font_url data :
  resolves env css face font_url -> fetch_bytes env font_url = Some data ->
  face_plan env css face =
    let* ext := font_ext env font_url in
    Ok (Some {| p_url := font_url; p_data := data;
                p_filename := resource_name_of (sha1_hex data) ++ ext;
                p_descriptor := descriptor_of face (resource_name_of (sha1_hex data)) |}).
Proof.
  intros (u & Hu & Hne & Hj) Hf. unfold face_plan. rewrite Hu.
  destruct u as [|c u]; [done|]. rewrite Hj. simpl. by rewrite Hf.
Qed.

Lemma plans_split env css A f B ps :
  plans env css (A ++ f :: B) = Ok ps ->
  exists pa p pb,
    plans env css A = Ok pa /\ face_plan env css f = Ok p /\
    plans env css B = Ok pb /\ ps = pa ++ plan_list p ++ pb.
Proof.
  rewrite plans_app. destruct (plans env css A) as [e|pa]; [done|]. simpl.
  destruct (face_plan env css f) as [e|p]; [done|]. simpl.
  destruct (plans env css B) as [e|pb]; [done|]. simpl.
  intros [= <-]. exists pa, p, pb. by destruct p.
Qed.

(** [C1], as the code has it.  In a run that succeeds, two faces of the
    stylesheet whose URLs give the same bytes get the same resource name, the
    one of the hash of the bytes, and each has its descriptor among the
    descriptors and its line in the bindings text.  The file of a face is
    named by the resource name and the extension of its URL: the run writes
    that file once when the output directory did not have it, and not at all
    when it did.  So the two faces share one written file when their URLs have
    the same extension and the file was not there. *)
Theorem same_binary_same_name (env : Env) (args : Args) (fs : gmap str bytes)
    (o : Outcome) (css_text : str) (i j : nat) (face1 face2 : gmap str str)
    (u1 u2 : str) (data : bytes) :
  main env args fs = Ok o ->
  fetch_text env (css_url args) = Some css_text ->
  parse_font_faces css_text !! i = Some face1 ->
  parse_font_faces css_text !! j = Some face2 ->
  i < j ->
  resolves env (css_url args) face1 u1 ->
  resolves env (css_url args) face2 u2 ->
  fetch_bytes env u1 = Some data ->
  fetch_bytes env u2 = Some data ->
  let rn := resource_name_of (sha1_hex data) in
  let d1 := descriptor_of face1 rn in
  let d2 := descriptor_of face2 rn in
  resource_name d1 = rn /\ resource_name d2 = rn
  /\ (exists k1 k2, k1 < k2 /\
        descriptors (final o) !! k1 = Some d1 /\
        descriptors (final o) !! k2 = Some d2)
  /\ part_of (descriptor_line d1) (kotlin_text o)
  /\ part_of (descriptor_line d2) (kotlin_text o)
  /\ exists e1 e2,
       font_ext env u1 = Ok e1 /\ font_ext env u2 = Ok e2 /\
       writes_to (rn ++ e1) (written (final o))
         = (match fs !! (rn ++ e1) with None => 1 | Some _ => 0 end) /\
       writes_to (rn ++ e2) (written (final o))
         = (match fs !! (rn ++ e2) with None => 1 | Some _ => 0 end).
Proof.
  intros Hmain Hcss Hi Hj Hij Hr1 Hr2 Hf1 Hf2 rn d1 d2.
  apply main_plans in Hmain as (css' & ps & Hcss' & Hps & ->).
  rewrite Hcss in Hcss'. inversion Hcss'; subst css'. clear Hcss'.
  cbn [final kotlin_text].
  (* the faces before, between and after the two *)
  pose proof (take_drop_middle _ _ _ Hj) as Ej.
  assert (Hi' : take j (parse_font_faces css_text) !! i = Some face1).
  { by rewrite lookup_take_lt. }
  pose proof (take_drop_middle _ _ _ Hi') as Ei.
  rewrite <- Ej, <- Ei in Hps. rewrite <- app_assoc in Hps. cbn [app] in Hps.
  apply plans_split in Hps as (pa & p1 & prest & Hpa & Hp1 & Hrest & ->).
  apply plans_split in Hrest as (pb & p2 & pc & Hpb & Hp2 & Hpc & ->).
  rewrite (face_plan_resolved _ _ _ _ _ Hr1 Hf1) in Hp1.
  rewrite (face_plan_resolved _ _ _ _ _ Hr2 Hf2) in Hp2.
  destruct (font_ext env u1) as [x|e1]; [done|].
  destruct (font_ext env u2) as [x|e2]; [done|].
  simpl in Hp1, Hp2. inversion Hp1; subst p1. inversion Hp2; subst p2. clear Hp1 Hp2.
  fold rn d1 d2. cbn [plan_list].
  set (q1 := {| p_url := u1; p_data := data; p_filename := rn ++ e1; p_descriptor := d1 |}).
  set (q2 := {| p_url := u2; p_data := data; p_filename := rn ++ e2; p_descriptor := d2 |}).
  set (ps := pa ++ [q1] ++ pb ++ [q2] ++ pc).
  assert (Hds : descriptors (run ps (initial_state args fs)) = map p_descriptor ps).
  { by rewrite run_descriptors. }
  assert (Hk1 : map p_descriptor ps !! length pa = Some d1).
  { unfold ps. rewrite map_app. cbn [app map]. apply list_lookup_middle.
    by rewrite length_map. }
  assert (Hk2 : map p_descriptor ps !! (length pa + S (length pb)) = Some d2).
  { unfold ps.
    replace (pa ++ [q1] ++ pb ++ [q2] ++ pc) with ((pa ++ [q1] ++ pb) ++ q2 :: pc)
      by (by rewrite <- !app_assoc).
    rewrite map_app. cbn [map]. apply list_lookup_middle.
    rewrite length_map, !length_app. simpl. lia. }
  split; [done|]. split; [done|].
  split.
  { exists (length pa), (length pa + S (length pb)). rewrite Hds. split; [lia | done]. }
  split.
  { apply join_part_of, descriptor_line_emitted. rewrite Hds.
    by apply list_elem_of_lookup_2 in Hk1. }
  split.
  { apply join_part_of, descriptor_line_emitted. rewrite Hds.
    by apply list_elem_of_lookup_2 in Hk2. }
  exists e1, e2. split; [done|]. split; [done|].
  rewrite !run_writes_to. cbn [written initial_state files].
  assert (H1 : rn ++ e1 ∈ map p_filename ps).
  { apply (list_elem_of_fmap_2 p_filename ps q1). unfold ps. rewrite !elem_of_app.
    right. left. by apply list_elem_of_singleton. }
  assert (H2 : rn ++ e2 ∈ map p_filename ps).
  { apply (list_elem_of_fmap_2 p_filename ps q2). unfold ps. rewrite !elem_of_app.
    right. right. right. left. by apply list_elem_of_singleton. }
  split.
  - destruct (fs !! (rn ++ e1)) eqn:E.
    + by rewrite bool_decide_eq_false_2 by (by intros [? _]).
    + by rewrite bool_decide_eq_true_2.
  - destruct (fs !! (rn ++ e2)) eqn:E.
    + by rewrite bool_decide_eq_false_2 by (by intros [? _]).
    + by rewrite bool_decide_eq_true_2.
Qed.

(** ** The path of a URL and its last name *)

Lemma without_app x a b : without x (a ++ b) <-> without x a /\ without x b.
Proof. unfold without. rewrite forallb_app. apply andb_true_iff. Qed.

Lemma without_cons x c s : without x (c :: s) <-> c <> x /\ without x s.
Proof.
  unfold without. simpl. rewrite andb_true_iff, negb_true_iff.
  split; intros [H1 H2]; (split; [|done]).
  - intros ->. by rewrite is_char_refl in H1.
  - destruct (is_char x c) eqn:E; [|done]. apply is_char_eq in E. by subst.
Qed.

Lemma rfind_Some c s i :
  rfind c s = Some i ->
  exists a b, s = a ++ c :: b /\ length a = i /\ without c b.
Proof.
  revert i. induction s as [|x s IH]; intros i; [done|]. cbn [rfind].
  destruct (rfind c s) as [j|] eqn:E.
  - intros [= <-]. destruct (IH j eq_refl) as (a & b & -> & <- & Hb).
    by exists (x :: a), b.
  - destruct (is_char c x) eqn:Hx; [|done]. intros [= <-].
    apply is_char_eq in Hx. subst x. exists [], s. split; [done|]. split; [done|].
    clear IH. unfold without. induction s as [|y s IH]; [done|].
    cbn [rfind] in E. destruct (rfind c s) as [j|]; [done|].
    destruct (is_char c y) eqn:Hy; [done|]. simpl. rewrite Hy. by apply IH.
Qed.

Lemma rfind_None c s : without c s -> rfind c s = None.
Proof.
  unfold without. induction s as [|x s IH]; [done|]. simpl.
  intros [Hx Hs]%andb_prop. apply negb_true_iff in Hx. by rewrite (IH Hs), Hx.
Qed.

Lemma rfind_last c a b : without c b -> rfind c (a ++ c :: b) = Some (length a).
Proof.
  intros Hb. induction a as [|x a IH]; cbn [app rfind length].
  - by rewrite (rfind_None c b Hb), is_char_refl.
  - by rewrite IH.
Qed.

Lemma split_char_whole sep s : without sep s -> PathLib.split_char sep s = [s].
Proof.
  unfold without. induction s as [|c s IH]; [done|]. simpl.
  intros [Hc Hs]%andb_prop. apply negb_true_iff in Hc. by rewrite Hc, (IH Hs).
Qed.

Lemma split_char_sep sep s :
  PathLib.split_char sep (sep :: s) = [] :: PathLib.split_char sep s.
Proof. cbn [PathLib.split_char]. by rewrite is_char_refl. Qed.

Lemma split_char_cons sep s : exists p ps, PathLib.split_char sep s = p :: ps.
Proof.
  induction s as [|c s (p & ps & IH)]; [by exists [], []|]. cbn [PathLib.split_char].
  destruct (is_char sep c); [by eexists _, _|]. rewrite IH. by eexists _, _.
Qed.

(** The pieces of a text with a separator are those of what is before it
    and those of what is after it. *)
Lemma split_char_app sep a b :
  PathLib.split_char sep (a ++ sep :: b)
  = PathLib.split_char sep a ++ PathLib.split_char sep b.
Proof.
  induction a as [|c a IH]; [cbn [app]; by rewrite split_char_sep|].
  cbn [app PathLib.split_char]. destruct (is_char sep c); [by rewrite IH|].
  rewrite IH. by destruct (split_char_cons sep a) as (p & ps & ->).
Qed.

Lemma Trail_head t : Trail t -> exists ps, PathLib.split_char "/" t = [] :: ps.
Proof.
  destruct 1; [by exists [] | |]; eexists; apply split_char_sep.
Qed.

Lemma Trail_blank t : Trail t -> Forall blank (PathLib.split_char "/" t).
Proof.
  induction 1 as [|t Ht IH|t Ht IH].
  - constructor; [by left | done].
  - rewrite split_char_sep. constructor; [by left | done].
  - rewrite split_char_sep. constructor; [by left|].
    destruct (Trail_head t Ht) as [ps E]. rewrite E in IH.
    apply Forall_cons in IH as [_ IH].
    cbn [PathLib.split_char]. change (is_char "/" ".") with false. cbv iota.
    rewrite E. constructor; [by right | done].
Qed.

Lemma filter_blank ps :
  Forall blank ps -> filter (fun x : str => x <> [] /\ x <> $".") ps = [].
Proof.
  induction 1 as [|x ps Hx _ IH]; [done|].
  rewrite filter_cons_False; [done|]. intros [H1 H2]. by destruct Hx.
Qed.

(** The name of a path is its last component that is neither empty nor a
    dot: what follows it is slashes and lone dots. *)
Lemma name_last dir nm trail :
  is_dir dir -> Trail trail -> nm <> [] -> nm <> $"." -> without "/" nm ->
  PathLib.name (dir ++ nm ++ trail) = nm.
Proof.
  intros Hdir Htrail Hne Hdot Hnm.
  assert (Ht : exists ps, PathLib.split_char "/" (nm ++ trail) = nm :: ps /\ Forall blank ps).
  { destruct Htrail as [|t Ht|t Ht].
    - exists []. by rewrite app_nil_r, split_char_whole.
    - exists (PathLib.split_char "/" t).
      rewrite split_char_app, split_char_whole by done. split; [done|]. by apply Trail_blank.
    - exists (PathLib.split_char "/" ("."%char :: t)).
      rewrite split_char_app, split_char_whole by done. split; [done|].
      pose proof (Trail_blank _ (Trail_dot t Ht)) as Hb. rewrite split_char_sep in Hb.
      by apply Forall_cons in Hb as [_ Hb]. }
  destruct Ht as (ps & Eps & Hps).
  assert (Hs : exists A, PathLib.split_char "/" (dir ++ nm ++ trail) = A ++ nm :: ps).
  { destruct Hdir as [-> | Hl].
    - exists []. cbn [app]. by rewrite Eps.
    - destruct dir as [|c d] using rev_ind; [done|]. rewrite last_snoc in Hl.
      injection Hl as ->. exists (PathLib.split_char "/" d).
      rewrite <- app_assoc. cbn [app]. by rewrite split_char_app, Eps. }
  unfold PathLib.name. destruct Hs as [A ->].
  rewrite filter_app, filter_cons_True by done. rewrite (filter_blank ps Hps).
  by rewrite last_snoc.
Qed.

(** A path of slashes and lone dots has no name. *)
Lemma name_none t : Trail t -> PathLib.name t = [].
Proof.
  intros Ht. unfold PathLib.name. by rewrite (filter_blank _ (Trail_blank t Ht)).
Qed.

(** The suffix of a path whose last name ends with a dot and an
    extension. *)
Lemma suffix_last dir stem e trail :
  is_dir dir -> Trail trail -> stem <> [] -> without "/" stem ->
  e <> [] -> without "." e -> without "/" e ->
  PathLib.suffix (dir ++ (stem ++ "."%char :: e) ++ trail) = "."%char :: e.
Proof.
  intros Hdir Htrail Hs Hss He Hde Hse. unfold PathLib.suffix.
  rewrite name_last; try done.
  - rewrite rfind_last by done.
    assert (Hlt : (0 <? length stem) && (length stem <? length (stem ++ "."%char :: e) - 1) = true).
    { apply andb_true_intro. split; apply Nat.ltb_lt.
      - destruct stem; [done | simpl; lia].
      - rewrite length_app. simpl. destruct e; [done | simpl; lia]. }
    rewrite Hlt. by rewrite drop_app_length.
  - by destruct stem.
  - destruct stem as [|x [|y stem]]; [done| |done]. by destruct e.
  - apply without_app. split; [done|]. apply without_cons. by split.
Qed.

(** The paths without suffix: the last name has no dot, or only a first
    one, or ends with one. *)
Lemma suffix_empty dir nm trail :
  is_dir dir -> Trail trail -> nm <> [] -> nm <> $"." -> without "/" nm ->
  without "." nm \/ (exists e, nm = "."%char :: e /\ without "." e)
  \/ (exists stem, nm = stem ++ ["."%char]) ->
  PathLib.suffix (dir ++ nm ++ trail) = [].
Proof.
  intros Hdir Htrail Hne Hdot Hnm Hcase. unfold PathLib.suffix.
  rewrite name_last by done.
  destruct Hcase as [H | [(e & -> & H) | (stem & ->)]].
  - by rewrite rfind_None.
  - pose proof (rfind_last "." [] e H) as E. cbn [app length] in E. by rewrite E.
  - rewrite (rfind_last "." stem []) by done.
    rewrite length_app. cbn [length].
    replace (length stem + 1 - 1) with (length stem) by lia.
    by rewrite Nat.ltb_irrefl, andb_false_r.
Qed.

Lemma visible_char c :
  (32 <? code c)%N = true ->
  C0_CONTROL_OR_SPACE c = false /\ UNSAFE_URL_BYTE c = false.
Proof. each_char c. Qed.

(** A URL of visible characters is not changed before it is split. *)
Lemma clean_url_visible u : visible u -> clean_url u = u.
Proof.
  intros Hu. unfold clean_url. rewrite lstrip_with_fixed.
  - unfold visible in Hu. induction u as [|c u IH]; [done|].
    simpl in Hu. apply andb_prop in Hu as [Hc Hu].
    rewrite filter_cons_True by apply (visible_char c Hc). by rewrite IH.
  - destruct u as [|c u]; [done|]. unfold visible in Hu. simpl in Hu.
    apply andb_prop in Hu as [Hc _]. apply (visible_char c Hc).
Qed.

Lemma scheme_char_facts c :
  scheme_char c = true ->
  (32 <? code c)%N = true /\ delim c = false /\ c <> ":"%char.
Proof. each_char c. Qed.

Lemma ascii_alpha_scheme c : ascii_alpha c = true -> scheme_char c = true.
Proof. each_char c. Qed.

Lemma scheme_chars_facts s :
  forallb scheme_char s = true -> visible s /\ plain s /\ without ":" s.
Proof.
  unfold visible, plain, without. induction s as [|c s IH]; [done|]. simpl.
  intros [Hc Hs]%andb_prop. destruct (IH Hs) as (-> & -> & ->).
  destruct (scheme_char_facts c Hc) as (-> & -> & Hne). repeat split.
  destruct (is_char ":" c) eqn:E; [|done]. apply is_char_eq in E. by subst.
Qed.

Lemma is_scheme_chars s : is_scheme s -> forallb scheme_char s = true.
Proof.
  intros (c & r & -> & Hc & Hr). simpl. by rewrite (ascii_alpha_scheme c Hc), Hr.
Qed.

Lemma find_first c a b : without c a -> find c (a ++ c :: b) = Some (length a).
Proof.
  unfold without. induction a as [|x a IH]; cbn [app find length].
  - by rewrite is_char_refl.
  - simpl. intros [Hx Ha]%andb_prop. apply negb_true_iff in Hx. by rewrite Hx, (IH Ha).
Qed.

(** A scheme and a colon in front of a text. *)
Lemma split_scheme_ok s rest :
  is_scheme s -> split_scheme (s ++ ":"%char :: rest) = (lower s, rest).
Proof.
  intros Hs. pose proof (is_scheme_chars s Hs) as Hall.
  destruct (scheme_chars_facts s Hall) as (_ & _ & Hcolon).
  destruct Hs as (c & r & -> & Hc & Hr). unfold split_scheme.
  rewrite find_first by done. cbn [length app].
  change (c :: r ++ ":"%char :: rest) with ((c :: r) ++ ":"%char :: rest).
  rewrite take_app_length' by done. rewrite Hc, Hall. cbn [andb].
  f_equal. change (S (S (length r))) with (S (length (c :: r))).
  replace ((c :: r) ++ ":"%char :: rest) with (((c :: r) ++ [":"%char]) ++ rest)
    by (by rewrite <- app_assoc).
  apply drop_app_length'. rewrite length_app. simpl. lia.
Qed.

(** The network location after two slashes ends at the path, the query or
    the fragment. *)
Lemma split_netloc_ok nv netloc rest :
  without "/" netloc -> without "?" netloc -> without "#" netloc ->
  match rest with
  | [] => True
  | c :: _ => is_char "/" c || is_char "?" c || is_char "#" c = true
  end ->
  split_netloc nv ("/"%char :: "/"%char :: netloc ++ rest) = (netloc, rest, nv netloc).
Proof.
  intros H1 H2 H3 Hrest. unfold split_netloc, splitnetloc. rewrite !is_char_refl.
  cbn [andb drop].
  assert (Hn : forallb (fun c => negb (is_char "/" c || is_char "?" c || is_char "#" c))
                 netloc = true).
  { unfold without in *. clear Hrest. induction netloc as [|c n IH]; [done|].
    simpl in *. apply andb_prop in H1 as [A1 B1]. apply andb_prop in H2 as [A2 B2].
    apply andb_prop in H3 as [A3 B3]. rewrite (IH B1 B2 B3), andb_true_r.
    apply negb_true_iff in A1, A2, A3. by rewrite A1, A2, A3. }
  rewrite drop_0, break_at_skip by done.
  destruct rest as [|c r]; [by rewrite app_nil_r|].
  cbn [break_at]. rewrite Hrest. cbn [fst snd]. by rewrite app_nil_r.
Qed.

Lemma without_contains c s : without c s -> contains c s = false.
Proof.
  unfold without, contains. induction s as [|x s IH]; [done|]. simpl.
  intros [Hx Hs]%andb_prop. apply negb_true_iff in Hx. by rewrite Hx, IH.
Qed.

Lemma plain_path_kept path : plain path -> drop_fragment_query path = path.
Proof.
  intros Hp. unfold drop_fragment_query.
  assert (H1 : forallb (fun c => negb (is_char "#" c)) path = true).
  { apply plain_not; [|done]. intros c H. unfold delim. by rewrite H, orb_true_r. }
  assert (H2 : forallb (fun c => negb (is_char "?" c)) path = true).
  { apply plain_not; [|done]. intros c H. unfold delim. by rewrite H. }
  rewrite (break_at_none _ _ H1). simpl. by rewrite (break_at_none _ _ H2).
Qed.

Lemma plain_without s : plain s <-> without "?" s /\ without "#" s.
Proof.
  unfold plain, without, delim. induction s as [|c s IH]; [done|]. simpl.
  rewrite !andb_true_iff, IH, negb_orb, andb_true_iff. tauto.
Qed.

(** The path of a URL with a scheme and a network location, without query
    and fragment. *)
Lemma urlparse_path_plain nv scheme netloc path :
  is_scheme scheme -> visible (netloc ++ path) -> without "/" netloc ->
  plain netloc -> plain path -> without ";" path ->
  path = [] \/ startswith "/" path = true ->
  urlparse_path nv (scheme ++ $"://" ++ netloc ++ path)
  = if nv netloc then Some path else None.
Proof.
  intros Hs Hv Hn Hpn Hpp Hsemi Hstart.
  destruct (scheme_chars_facts scheme (is_scheme_chars scheme Hs)) as (Hvs & _ & _).
  apply plain_without in Hpn as [Hq Hh].
  change (scheme ++ $"://" ++ netloc ++ path)
    with (scheme ++ ":"%char :: "/"%char :: "/"%char :: netloc ++ path).
  unfold urlparse_path, urlsplit. rewrite clean_url_visible.
  2:{ unfold visible in *. rewrite forallb_app, Hvs. cbn [forallb andb].
      change ((32 <? code ":")%N) with true. change ((32 <? code "/")%N) with true.
      cbn [andb]. exact Hv. }
  rewrite (split_scheme_ok scheme _ Hs).
  rewrite split_netloc_ok; try done.
  2:{ destruct Hstart as [-> | H]; [done|]. destruct path as [|c p]; [done|].
      cbn [startswith] in H. by rewrite H. }
  cbv zeta. rewrite (plain_path_kept path Hpp). destruct (nv netloc); [|done].
  by rewrite (without_contains ";" path Hsemi), andb_false_r.
Qed.

(** The same with a query or a fragment. *)
Lemma urlparse_path_url nv scheme netloc path tail :
  is_scheme scheme -> visible (netloc ++ path) -> without "/" netloc ->
  plain netloc -> plain path -> without ";" path ->
  path = [] \/ startswith "/" path = true -> is_tail tail ->
  urlparse_path nv (scheme ++ $"://" ++ netloc ++ path ++ tail)
  = if nv netloc then Some path else None.
Proof.
  intros Hs Hv Hn Hpn Hpp Hsemi Hstart [-> | (d & r & -> & Hd)].
  - rewrite app_nil_r. by apply urlparse_path_plain.
  - replace (scheme ++ $"://" ++ netloc ++ path ++ d :: r)
      with ((scheme ++ $"://" ++ netloc ++ path) ++ d :: r)
      by (by rewrite <- ?app_assoc).
    rewrite (urlparse_path_tail nv d Hd).
    + by apply urlparse_path_plain.
    + destruct (scheme_chars_facts scheme (is_scheme_chars scheme Hs)) as (_ & Hps & _).
      apply plain_app. split; [done|]. apply plain_app. split; [done|].
      apply plain_app. by split.
Qed.

Lemma ordinary_app a b : ordinary (a ++ b) <-> ordinary a /\ ordinary b.
Proof.
  unfold ordinary, visible. rewrite forallb_app, andb_true_iff, plain_app, without_app.
  tauto.
Qed.

Lemma ordinary_cons c s :
  (32 <? code c)%N = true -> delim c = false -> c <> ";"%char ->
  ordinary s -> ordinary (c :: s).
Proof.
  intros Hc Hd Hs (Hv & Hp & Hw). split; [|split].
  - unfold visible in *. simpl. by rewrite Hc, Hv.
  - apply plain_cons. by split.
  - apply without_cons. by split.
Qed.

(** The extension of a URL with a scheme and a network location that the
    library accepts. *)
Lemma font_ext_url env scheme netloc path tail :
  is_scheme scheme -> without "/" netloc -> ordinary (netloc ++ path) ->
  path = [] \/ startswith "/" path = true -> is_tail tail ->
  font_ext env (scheme ++ $"://" ++ netloc ++ path ++ tail)
  = if netloc_valid env netloc
    then Ok (match PathLib.suffix path with [] => $".woff2" | sfx => sfx end)
    else Raise ValueError.
Proof.
  intros Hs Hn Ho Hstart Htail. rewrite font_ext_unfold.
  destruct Ho as (Hv & Hp & Hw).
  apply plain_app in Hp as [Hpn Hpp]. apply without_app in Hw as [_ Hw].
  rewrite (urlparse_path_url (netloc_valid env) scheme netloc path tail) by done.
  by destruct (netloc_valid env netloc).
Qed.

(** [C9] The extension of the file of a font is the suffix of the path of its
    URL, and [.woff2] when the path has no suffix; the query and the fragment
    of the URL are not part of the path, so the extension is the one of the
    URL cut at its first question mark or hash sign; and the body of the loop
    names the file of a face by the resource name followed by that
    extension.  The path of a URL with a scheme and a network location is
    what follows the location, up to the query and the fragment.  The
    suffix of a path is read off its last name, the last component that is
    neither empty nor a dot: it is the last dot of that name and what
    follows it, and there is none when the name has no dot, only a first
    one, or ends with one, whatever dots the directories, the network
    location, the query and the fragment have.  A URL whose network location
    the library refuses raises [ValueError]. *)
Theorem font_ext_spec (env : Env) (font_url : str) :
  font_ext env font_url =
    match urlparse_path (netloc_valid env) font_url with
    | Some path =>
        Ok (match PathLib.suffix path with [] => $".woff2" | sfx => sfx end)
    | None => Raise ValueError
    end
  /\ font_ext env font_url = font_ext env (cut_query font_url)
  /\ (forall css_url face data st,
        resolves env css_url face font_url ->
        fetch_bytes env font_url = Some data ->
        process_face env css_url face st =
          let* ext := font_ext env font_url in
          let rn := resource_name_of (sha1_hex data) in
          Ok (append_descriptor (descriptor_of face rn)
                (write_if_absent (rn ++ ext) data (fetched font_url st))))
  /\ font_ext env $"/fonts/a.ttf?v=1.2#x.y" = Ok $".ttf"
  /\ font_ext env $"/fonts/a" = Ok $".woff2"
  /\ font_ext env $"/fonts/a?name=a.ttf" = Ok $".woff2"
  (* the path of a URL *)
  /\ (forall scheme netloc path tail,
        is_scheme scheme -> without "/" netloc -> ordinary (netloc ++ path) ->
        path = [] \/ startswith "/" path = true -> is_tail tail ->
        urlparse_path (netloc_valid env) (scheme ++ $"://" ++ netloc ++ path ++ tail)
        = if netloc_valid env netloc then Some path else None)
  (* the suffix of a path *)
  /\ (forall dir stem e trail,
        is_dir dir -> Trail trail -> stem <> [] -> without "/" stem ->
        e <> [] -> without "." e -> without "/" e ->
        PathLib.suffix (dir ++ (stem ++ "."%char :: e) ++ trail) = "."%char :: e)
  /\ (forall dir nm trail,
        is_dir dir -> Trail trail -> nm <> [] -> nm <> $"." -> without "/" nm ->
        without "." nm \/ (exists e, nm = "."%char :: e /\ without "." e)
        \/ (exists stem, nm = stem ++ ["."%char]) ->
        PathLib.suffix (dir ++ nm ++ trail) = [])
  /\ (forall trail, Trail trail -> PathLib.suffix trail = [])
  (* the extension of a URL *)
  /\ (forall scheme netloc dir stem e tail,
        is_scheme scheme -> without "/" netloc -> netloc_valid env netloc = true ->
        is_dir dir -> stem <> [] -> without "/" stem ->
        e <> [] -> without "." e -> without "/" e ->
        ordinary (netloc ++ dir ++ stem ++ e) -> is_tail tail ->
        font_ext env (scheme ++ $"://" ++ netloc ++ ("/"%char :: dir ++ stem ++ "."%char :: e)
                      ++ tail)
        = Ok ("."%char :: e))
  /\ (forall scheme netloc dir nm tail,
        is_scheme scheme -> without "/" netloc -> netloc_valid env netloc = true ->
        is_dir dir -> nm <> [] -> without "/" nm -> without "." nm ->
        ordinary (netloc ++ dir ++ nm) -> is_tail tail ->
        font_ext env (scheme ++ $"://" ++ netloc ++ ("/"%char :: dir ++ nm) ++ tail)
        = Ok $".woff2")
  /\ (forall scheme netloc tail,
        is_scheme scheme -> without "/" netloc -> netloc_valid env netloc = true ->
        ordinary netloc -> is_tail tail ->
        font_ext env (scheme ++ $"://" ++ netloc ++ tail) = Ok $".woff2")
  /\ (forall scheme netloc path tail,
        is_scheme scheme -> without "/" netloc -> netloc_valid env netloc = false ->
        ordinary (netloc ++ path) ->
        path = [] \/ startswith "/" path = true -> is_tail tail ->
        font_ext env (scheme ++ $"://" ++ netloc ++ path ++ tail) = Raise ValueError)
  (* on a network that accepts every location *)
  /\ font_ext sample $"https://x/dir.v2/font" = Ok $".woff2"
  /\ font_ext sample $"https://example.com" = Ok $".woff2"
  /\ font_ext sample $"https://fonts.example.com/a/b.c/font.v2.ttf?x=1.0#y.z" = Ok $".ttf"
  /\ font_ext sample $"https://x/a.TTF" = Ok $".TTF"
  /\ font_ext sample $"https://x/a.ttf/./" = Ok $".ttf"
  /\ font_ext sample $"https://x/.hidden" = Ok $".woff2"
  /\ font_ext sample $"https://x/font." = Ok $".woff2"
  /\ font_ext sample $"//cdn.example.org/f.otf" = Ok $".otf"
  /\ font_ext sample $"HTTP://x/a.ttf;v=1.2" = Ok $".ttf"
  /\ font_ext sample $"https://x/a;b.c/d.e;f.g" = Ok $".e"
  /\ font_ext sample $"data:font/a.ttf;v=1.2" = Ok $".2"
  /\ font_ext sample $"1a://host.com" = Ok $".com"
  /\ font_ext sample $"a_b://host.org" = Ok $".org"
  /\ font_ext sample $" https://x/a.ttf" = Ok $".ttf"
  /\ font_ext sample ($"https://x/a.t" ++ [ascii_of_nat 9; newline] ++ $"tf") = Ok $".ttf"
  /\ font_ext sample $" https://example.com" = Ok $".woff2"
  /\ font_ext sample $"//x/a.ttf;v=1.2" = Ok $".ttf"
  /\ font_ext sample $"https://example.com?u=/a.ttf" = Ok $".woff2"
  /\ font_ext sample $"https://x/a#b.c" = Ok $".woff2".
Proof.
  split; [apply font_ext_unfold|].
  split; [by rewrite !font_ext_unfold, <- urlparse_path_cut_query|].
  split.
  { intros css_url face data st Hr Hf.
    rewrite process_face_plan, (face_plan_resolved _ _ _ _ _ Hr Hf).
    by destruct (font_ext env font_url). }
  split; [rewrite font_ext_unfold; vm_compute; reflexivity|].
  split; [rewrite font_ext_unfold; vm_compute; reflexivity|].
  split; [rewrite font_ext_unfold; vm_compute; reflexivity|].
  split.
  { intros scheme netloc path tail Hs Hn (Hv & Hp & Hw) Hstart Htail.
    apply plain_app in Hp as [Hpn Hpp]. apply without_app in Hw as [_ Hw].
    by apply urlparse_path_url. }
  split; [intros; by apply suffix_last|].
  split; [intros; by apply suffix_empty|].
  split.
  { intros trail Ht. unfold PathLib.suffix. by rewrite (name_none trail Ht). }
  split.
  { intros scheme netloc dir stem e tail Hs Hn Hok Hdir Hst Hsst He Hde Hse Ho Htail.
    apply ordinary_app in Ho as [Hon Ho]. apply ordinary_app in Ho as [Hod Ho].
    apply ordinary_app in Ho as [Hos Hoe].
    rewrite font_ext_url; try done.
    - rewrite Hok.
      change ("/"%char :: dir ++ stem ++ "."%char :: e)
        with (("/"%char :: dir) ++ stem ++ "."%char :: e).
      rewrite <- (app_nil_r (stem ++ "."%char :: e)), app_assoc, <- app_assoc.
      rewrite (suffix_last ("/"%char :: dir) stem e []); try done; [|constructor].
      destruct Hdir as [-> | Hl]; [by right|]. right.
      destruct dir as [|c d]; [done|]. by rewrite last_cons_cons.
    - apply ordinary_app. split; [done|]. apply ordinary_cons; try done.
      apply ordinary_app. split; [done|]. apply ordinary_app. split; [done|].
      by apply ordinary_cons.
    - by right. }
  split.
  { intros scheme netloc dir nm tail Hs Hn Hok Hdir Hne Hsn Hdn Ho Htail.
    apply ordinary_app in Ho as [Hon Ho]. apply ordinary_app in Ho as [Hod Hom].
    rewrite font_ext_url; try done.
    - rewrite Hok.
      change ("/"%char :: dir ++ nm) with (("/"%char :: dir) ++ nm).
      rewrite <- (app_nil_r nm), app_assoc, <- app_assoc.
      rewrite (suffix_empty ("/"%char :: dir) nm []); try done; [|constructor| |by left].
      + destruct Hdir as [-> | Hl]; [by right|]. right.
        destruct dir as [|c d]; [done|]. by rewrite last_cons_cons.
      + intros ->. by apply without_cons in Hdn as [? _].
    - apply ordinary_app. split; [done|]. apply ordinary_cons; try done.
      apply ordinary_app. by split.
    - by right. }
  split.
  { intros scheme netloc tail Hs Hn Hok Ho Htail.
    pose proof (font_ext_url env scheme netloc [] tail Hs Hn) as H.
    rewrite app_nil_r in H. cbn [app] in H. rewrite H; try done; [by rewrite Hok | by left]. }
  split.
  { intros scheme netloc path tail Hs Hn Hbad Ho Hstart Htail.
    rewrite font_ext_url by done. by rewrite Hbad. }
  repeat split; vm_compute; reflexivity.
Qed.

(** ** Sample runs *)

(** A property of the outcome of a run, read off the computed outcome. *)
Lemma main_outcome env args fs (P : Outcome -> Prop) :
  match main env args fs with inr o => P o | inl _ => False end ->
  exists o, main env args fs = Ok o /\ P o.
Proof.
  destruct (main env args fs) as [e|o]; [done|]. intros H. by exists o.
Qed.

(** [C1] fails as stated: the two faces of [twin_css] get the same bytes and
    the same resource name, and the run writes two files, one for each
    extension; and on a directory that already has the file of the regular
    sample font, the run writes no file for the two faces that share it. *)
Lemma same_binary_two_files :
  fetch_bytes twin $"https://fonts.example/twin.woff2"
    = fetch_bytes twin $"https://fonts.example/twin.ttf"
  /\ (exists o,
        main twin default_args ∅ = Ok o /\
        map resource_name (descriptors (final o)) = [twin_name; twin_name] /\
        map fst (written (final o)) = [twin_name ++ $".woff2"; twin_name ++ $".ttf"] /\
        length (written (final o)) <> 1)
  /\ (exists o,
        main sample default_args {[ regular_name ++ $".woff2" := sample_bytes "older" ]}
          = Ok o /\
        length (filter (fun d => resource_name d = regular_name) (descriptors (final o))) = 2 /\
        writes_to (regular_name ++ $".woff2") (written (final o)) = 0).
Proof.
  split; [reflexivity|]. split.
  - apply main_outcome. vm_compute. repeat split. lia.
  - apply main_outcome. vm_compute. by repeat split.
Qed.

Lemma sample_face_lookup i :
  i < length (parse_font_faces sample_css) ->
  parse_font_faces sample_css !! i = Some (sample_face i).
Proof.
  intros H. apply lookup_lt_is_Some_2 in H as [f Hf].
  unfold sample_face. by rewrite Hf.
Qed.

(** The sample run succeeds. *)
Lemma sample_run_ok : exists o, main sample default_args ∅ = Ok o.
Proof.
  destruct (main_outcome sample default_args ∅ (fun _ => True)) as (o & Hm & _);
    [by vm_compute | by exists o].
Qed.

(** [C1] on the sample: its first and its last face have the same bytes and
    the same extension, and share one written file. *)
Lemma same_binary_same_name_witness :
  exists o,
    main sample default_args ∅ = Ok o /\
    writes_to (regular_name ++ $".woff2") (written (final o)) = 1.
Proof.
  destruct sample_run_ok as [o Hm].
  assert (H0 : resolves sample (css_url default_args) (sample_face 0)
                 $"https://fonts.example/roboto-400.woff2").
  { exists $"https://fonts.example/roboto-400.woff2".
    split; [vm_compute; reflexivity | split; [discriminate | reflexivity]]. }
  assert (H3 : resolves sample (css_url default_args) (sample_face 3)
                 $"https://mirror.example/mono/r400.woff2?v=3").
  { exists $"https://mirror.example/mono/r400.woff2?v=3".
    split; [vm_compute; reflexivity | split; [discriminate | reflexivity]]. }
  assert (G1 : font_ext sample $"https://fonts.example/roboto-400.woff2" = Ok $".woff2")
    by (vm_compute; reflexivity).
  destruct (same_binary_same_name sample default_args ∅ o sample_css 0 3
              (sample_face 0) (sample_face 3)
              $"https://fonts.example/roboto-400.woff2"
              $"https://mirror.example/mono/r400.woff2?v=3"
              (sample_bytes "wOF2 regular") Hm eq_refl)
    as (_ & _ & _ & _ & _ & e1 & e2 & He1 & _ & Hw1 & _);
    [apply sample_face_lookup; vm_compute; lia
    | apply sample_face_lookup; vm_compute; lia
    | lia | exact H0 | exact H3
    | vm_compute; reflexivity | vm_compute; reflexivity |].
  rewrite G1 in He1. injection He1 as <-.
  exists o. split; [exact Hm|].
  rewrite lookup_empty in Hw1. exact Hw1.
Defined.

(** [C7] on the sample: a run over three faces of which the second names a
    local font only is the run over the two others. *)
Lemma face_without_url_skipped_witness :
  process_faces sample (css_url default_args)
    [sample_face 0; sample_face 2; sample_face 1] (initial_state default_args ∅)
  = process_faces sample (css_url default_args)
      [sample_face 0; sample_face 1] (initial_state default_args ∅).
Proof.
  assert (E : sample_face 2 !! $"src" = Some $"local(Arial)")
    by (vm_compute; reflexivity).
  assert (H : no_url (sample_face 2 !! $"src")).
  { rewrite E. right. apply findall1_URL_RE_nil. vm_compute. reflexivity. }
  exact (proj2 (face_without_url_skipped sample (css_url default_args) (sample_face 2) H)
           [sample_face 0] [sample_face 1] (initial_state default_args ∅)).
Defined.

(** [C8] on the sample: a second run on the directory the first one
    left. *)
Lemma rerun_writes_nothing_witness :
  exists o,
    main sample default_args ∅ = Ok o /\
    main sample default_args (files (final o)) =
      Ok {| final := {| descriptors := descriptors (final o);
                        files := files (final o);
                        written := [];
                        requests := requests (final o) |};
            kotlin_text := kotlin_text o;
            downloaded := downloaded o |}.
Proof.
  destruct sample_run_ok as [o Hm].
  exists o. split; [exact Hm|]. apply (rerun_writes_nothing _ _ _ _ Hm).
Defined.

(** ** Occurrences of a pattern *)

Section Leftmost.

Context {A : Type}.

(** [at_ b x rest] says that an occurrence with value [x] starts the text
    [b] and leaves [rest]. *)
Variable at_ : str -> A -> str -> Prop.

(** The scan of a pattern finds them, when [at_] describes the matches of
    the pattern and [value] reads the value off the groups. *)
Lemma finditer_Leftmost pat (value : list str -> A) s :
  consuming pat = true ->
  (forall b ms e, mtch pat b = Some (ms, e) -> at_ b (value (groups ms)) e) ->
  (forall b x e, at_ b x e -> exists ms, mtch pat b = Some (ms, e)) ->
  Leftmost at_ s (map (fun m => value (snd m)) (fst (finditer pat s))).
Proof.
  intros Hc Hto Hfrom. remember (length s) as n eqn:Hn. revert s Hn.
  induction n as [n IH] using lt_wf_ind. intros s ->.
  rewrite finditer_unfold by done.
  destruct (search pat s) as [[[pre ms] e]|] eqn:Hs.
  - pose proof (search_consumes _ _ _ _ _ Hc Hs) as He.
    apply search_Some in Hs as (b & -> & Hb & Hno).
    specialize (IH (length e) He e eq_refl).
    destruct (finditer pat e) as [l t]. simpl in *.
    apply (Leftmost_cons at_ pre b (value (groups ms)) e); [by apply Hto | | done].
    intros a1 a2 E Hne x' e' (ms' & Hm)%Hfrom.
    rewrite (Hno a1 (a2 ++ b)) in Hm; [done | |].
    + by rewrite app_assoc, E.
    + rewrite <- E, length_app. destruct a2; [done|]. simpl. lia.
  - simpl. apply Leftmost_end. intros a b E x e (ms & Hm)%Hfrom.
    by rewrite (search_None _ _ Hs a b E) in Hm.
Qed.

(** There is one such list when an occurrence at a start has one value and
    leaves one text. *)
Lemma Leftmost_functional s l1 l2 :
  (forall b x rest x' rest', at_ b x rest -> at_ b x' rest' -> x = x' /\ rest = rest') ->
  Leftmost at_ s l1 -> Leftmost at_ s l2 -> l1 = l2.
Proof.
  intros Hfun H1. revert l2.
  induction H1 as [s Hno | pre b x rest xs Hat Hno _ IH]; intros l2 H2.
  - inversion H2 as [|pre' b' x' rest' xs' Hat' Hno' H' E1 E2]; [done|].
    subst. exfalso. by apply (Hno pre' b' eq_refl x' rest').
  - inversion H2 as [s' Hno' E1 E2|pre' b' x' rest' xs' Hat' Hno' H' E1 E2].
    + subst. exfalso. by apply (Hno' pre b eq_refl x rest).
    + assert (pre' = pre /\ b' = b) as [-> ->].
      { destruct (Nat.lt_trichotomy (length pre) (length pre')) as [L|[L|L]].
        - exfalso. apply (Hno' (take (length pre) pre') (drop (length pre) pre')
                            (take_drop _ _)) with (x' := x) (rest' := rest).
          + intros Hd. apply (f_equal length) in Hd. rewrite length_drop in Hd. simpl in Hd. lia.
          + replace (drop (length pre) pre' ++ b') with b; [done|].
            apply (f_equal (drop (length pre))) in E1.
            rewrite drop_app_le in E1 by lia. by rewrite drop_app_length in E1.
        - apply (f_equal (take (length pre))) in E1 as Et.
          rewrite take_app_length in Et. rewrite L, take_app_length in Et.
          subst pre'. by apply app_inv_head in E1.
        - exfalso. apply (Hno (take (length pre') pre) (drop (length pre') pre)
                            (take_drop _ _)) with (x' := x') (rest' := rest').
          + intros Hd. apply (f_equal length) in Hd. rewrite length_drop in Hd. simpl in Hd. lia.
          + replace (drop (length pre') pre ++ b) with b'; [done|].
            apply (f_equal (drop (length pre'))) in E1.
            rewrite drop_app_length in E1. by rewrite drop_app_le in E1 by lia. }
      destruct (Hfun _ _ _ _ _ Hat Hat') as [-> ->].
      f_equal. by apply IH.
Qed.

End Leftmost.

(** ** Literal text and runs in a pattern *)

Lemma mtch_lits_ci w pat s :
  forallb (fun x => bool_decide (lower_char x = x)) w = true ->
  mtch (map lit_ci w ++ pat) s =
    if decide (lower (take (length w) s) = w)
    then mtch pat (drop (length w) s) else None.
Proof.
  revert s. induction w as [|x w IH]; intros s Hw.
  - simpl. by rewrite drop_0.
  - simpl in Hw. apply andb_prop in Hw as [Hx Hw]. apply bool_decide_eq_true in Hx.
    cbn [map app mtch lit_ci length]. destruct s as [|c s].
    + rewrite take_nil. by rewrite decide_False.
    + rewrite Hx. cbn [take drop]. unfold lower. cbn [map]. fold (lower (take (length w) s)).
      destruct (is_char x (lower_char c)) eqn:E.
      * apply is_char_eq in E. rewrite IH by done.
        destruct (decide (lower (take (length w) s) = w)) as [Hd|Hd].
        -- rewrite decide_True; [done|]. by rewrite <- E, Hd.
        -- rewrite decide_False; [done|]. intros [= _ H]. done.
      * rewrite decide_False; [done|]. intros [= H _].
        subst x. by rewrite is_char_refl in E.
Qed.

(** A repetition followed by something that cannot start with a character of
    its class takes the longest run. *)
Lemma many_lstrip {R} p (k : str -> option R) s :
  (forall c t, p c = true -> k (c :: t) = None) ->
  many p k s = k (lstrip_with p s).
Proof.
  intros Hk. destruct (lstrip_with_split p s) as (a & E & Ha).
  rewrite E at 1. apply many_run; [done | apply lstrip_with_head | done].
Qed.

(** ** The blocks of a stylesheet *)

Lemma lower_lbrace c : lower_char c = "{"%char -> c = "{"%char.
Proof. each_char c. Qed.

Lemma lower_rbrace c : lower_char c = "}"%char -> c = "}"%char.
Proof. each_char c. Qed.

Lemma lit_ci_char x c :
  lower_char x = x -> (forall c', lower_char c' = x -> c' = x) ->
  is_char (lower_char x) (lower_char c) = is_char x c.
Proof.
  intros Hx Hinj. rewrite Hx. destruct (is_char x c) eqn:E.
  - apply is_char_eq in E. subst c. rewrite Hx. apply is_char_refl.
  - destruct (is_char x (lower_char c)) eqn:E'; [|done].
    apply is_char_eq in E'. symmetry in E'. apply Hinj in E'. subst c.
    by rewrite is_char_refl in E.
Qed.

(** What the matcher does with [FONT_FACE_RE], step by step. *)
Lemma mtch_FONT_FACE_RE b :
  mtch FONT_FACE_RE b =
    if decide (lower (take 10 b) = $"@font-face") then
      match lstrip_with isspace (drop 10 b) with
      | c :: t =>
          if is_char "{" c then
            match lstrip_with not_rbrace t with
            | c' :: rest => Some ([t; c' :: rest], rest)
            | [] => None
            end
          else None
      | [] => None
      end
    else None.
Proof.
  unfold FONT_FACE_RE. rewrite mtch_lits_ci by done.
  change (length $"@font-face") with 10.
  destruct (decide (lower (take 10 b) = $"@font-face")); [|done].
  cbn [mtch]. rewrite many_lstrip.
  2:{ intros c t Hc. cbn [mtch lit_ci].
      rewrite (lit_ci_char "{" c eq_refl lower_lbrace).
      destruct (is_char "{" c) eqn:E; [|done]. apply is_char_eq in E. by subst c. }
  destruct (lstrip_with isspace (drop 10 b)) as [|c t]; [done|].
  cbn [mtch lit_ci]. rewrite (lit_ci_char "{" c eq_refl lower_lbrace).
  destruct (is_char "{" c); [|done].
  change (fun c0 : ascii => negb (is_char "}" c0)) with not_rbrace.
  rewrite many_lstrip.
  2:{ intros c0 t0 Hc. cbn [mtch lit_ci].
      rewrite (lit_ci_char "}" c0 eq_refl lower_rbrace).
      unfold not_rbrace in Hc. apply negb_true_iff in Hc. by rewrite Hc. }
  pose proof (lstrip_with_head not_rbrace t) as Hh.
  destruct (lstrip_with not_rbrace t) as [|c' rest]; [done|].
  cbn [mtch lit_ci]. rewrite (lit_ci_char "}" c' eq_refl lower_rbrace).
  unfold not_rbrace in Hh. apply negb_false_iff in Hh. by rewrite Hh.
Qed.

Lemma lstrip_with_app p a b :
  forallb p a = true ->
  match b with c :: _ => p c = false | [] => True end ->
  lstrip_with p (a ++ b) = b.
Proof.
  intros Ha Hb. induction a as [|x a IH]; simpl.
  - destruct b as [|c t]; [done|]. simpl. by rewrite Hb.
  - simpl in Ha. apply andb_prop in Ha as [Hx Ha]. rewrite Hx. by apply IH.
Qed.

Lemma between_app a b : between (a ++ b) b = a.
Proof.
  unfold between. rewrite length_app.
  replace (length a + length b - length b) with (length a) by lia.
  apply take_app_length.
Qed.

Lemma lower_length s : length (lower s) = length s.
Proof. unfold lower. apply length_map. Qed.

Lemma face_at_mtch b body rest :
  face_at b body rest ->
  mtch FONT_FACE_RE b = Some ([body ++ "}"%char :: rest; "}"%char :: rest], rest).
Proof.
  intros (kw & ws & -> & Hkw & Hws & Hbody).
  assert (Hl : length kw = 10) by (by rewrite <- lower_length, Hkw).
  rewrite mtch_FONT_FACE_RE.
  rewrite take_app_length' by done. rewrite decide_True by done.
  rewrite drop_app_length' by done.
  rewrite lstrip_with_app by done. rewrite is_char_refl.
  by rewrite lstrip_with_app by done.
Qed.

Lemma mtch_face_at b ms e :
  mtch FONT_FACE_RE b = Some (ms, e) ->
  exists body, face_at b body e /\ groups ms = [body].
Proof.
  rewrite mtch_FONT_FACE_RE.
  destruct (decide (lower (take 10 b) = $"@font-face")) as [Hkw|]; [|done].
  destruct (lstrip_with_split isspace (drop 10 b)) as (ws & Ews & Hws).
  destruct (lstrip_with isspace (drop 10 b)) as [|c t]; [done|].
  destruct (is_char "{" c) eqn:Hc; [|done]. apply is_char_eq in Hc. subst c.
  destruct (lstrip_with_split not_rbrace t) as (body & Ebody & Hbody).
  pose proof (lstrip_with_head not_rbrace t) as Hh.
  destruct (lstrip_with not_rbrace t) as [|c' rest]; [done|].
  unfold not_rbrace in Hh. apply negb_false_iff, is_char_eq in Hh. subst c'.
  intros [= <- <-]. exists body. split.
  - exists (take 10 b), ws. split; [|done].
    rewrite <- Ebody, <- Ews. by rewrite take_drop.
  - simpl. rewrite Ebody at 1. by rewrite between_app.
Qed.

Lemma face_at_functional b body rest body' rest' :
  face_at b body rest -> face_at b body' rest' -> body = body' /\ rest = rest'.
Proof.
  intros H1%face_at_mtch H2%face_at_mtch. rewrite H1 in H2.
  injection H2 as Hb _ Hr. subst rest'. split; [|done]. by apply app_inv_tail in Hb.
Qed.

Lemma findall1_Blocks css : Blocks css (findall1 FONT_FACE_RE css).
Proof.
  unfold Blocks, findall1.
  apply (finditer_Leftmost face_at FONT_FACE_RE (fun gs => default [] (head gs))); [done | |].
  - intros b ms e Hm. apply mtch_face_at in Hm as (body & Hb & ->). done.
  - intros b body e Hb. eexists. by apply face_at_mtch.
Qed.

Lemma Blocks_findall1 css bodies :
  Blocks css bodies <-> findall1 FONT_FACE_RE css = bodies.
Proof.
  split.
  - intros H. apply (Leftmost_functional face_at css); [|apply findall1_Blocks | done].
    apply face_at_functional.
  - intros <-. apply findall1_Blocks.
Qed.

(** ** The properties of a block *)

Lemma name_char_not_space c : name_char c = true -> isspace c = false.
Proof. each_char c. Qed.

Lemma name_char_not_colon c : name_char c = true -> is_char ":" c = false.
Proof. each_char c. Qed.

Lemma space_not_semi c : isspace c = true -> not_semi c = true.
Proof. each_char c. Qed.

Lemma space_not_colon c : isspace c = true -> is_char ":" c = false.
Proof. each_char c. Qed.

Lemma lower_colon c : lower_char c = ":"%char -> c = ":"%char.
Proof. each_char c. Qed.

Lemma lower_semi c : lower_char c = ";"%char -> c = ";"%char.
Proof. each_char c. Qed.

Lemma PROP_RE_parts : PROP_RE = [Mark; Many1 name_char] ++ PROP_tail.
Proof. reflexivity. Qed.

Lemma mtch_PROP_value t :
  mtch PROP_value t =
    match t with
    | x :: t' =>
        if not_semi x then
          match lstrip_with not_semi t' with
          | c' :: rest => Some ([t; c' :: rest], rest)
          | [] => None
          end
        else None
    | [] => None
    end.
Proof.
  unfold PROP_value. cbn [mtch]. destruct t as [|x t']; [done|].
  destruct (not_semi x); [|done].
  rewrite many_lstrip.
  2:{ intros c0 t0 Hc. cbn [mtch lit_ci].
      rewrite (lit_ci_char ";" c0 eq_refl lower_semi).
      unfold not_semi in Hc. apply negb_true_iff in Hc. by rewrite Hc. }
  pose proof (lstrip_with_head not_semi t') as Hh.
  destruct (lstrip_with not_semi t') as [|c' rest]; [done|].
  cbn [mtch lit_ci]. rewrite (lit_ci_char ";" c' eq_refl lower_semi).
  unfold not_semi in Hh. apply negb_false_iff in Hh. by rewrite Hh.
Qed.

(** The value pattern on a value followed by a semicolon. *)
Lemma mtch_PROP_value_ok v rest :
  v <> [] -> forallb not_semi v = true ->
  mtch PROP_value (v ++ ";"%char :: rest)
    = Some ([v ++ ";"%char :: rest; ";"%char :: rest], rest).
Proof.
  intros Hne Hv. rewrite mtch_PROP_value. destruct v as [|x v]; [done|].
  simpl in Hv. apply andb_prop in Hv as [Hx Hv]. cbn [app]. rewrite Hx.
  by rewrite lstrip_with_app by done.
Qed.

Lemma mtch_PROP_value_semi rest : mtch PROP_value (";"%char :: rest) = None.
Proof. by rewrite mtch_PROP_value. Qed.

(** The longest run is tried first. *)
Lemma many_longest {R} p (k : str -> option R) a b r :
  forallb p a = true ->
  match b with c :: _ => p c = false | [] => True end ->
  k b = Some r -> many p k (a ++ b) = Some r.
Proof.
  intros Ha Hb Hk. induction a as [|x a IH]; simpl.
  - destruct b as [|c t]; [done|]. simpl. by rewrite Hb.
  - simpl in Ha. apply andb_prop in Ha as [Hx Ha]. by rewrite Hx, (IH Ha).
Qed.

(** When what follows fails after the longest run, the run gives back its
    last character. *)
Lemma many_give_back {R} p (k : str -> option R) a c b r :
  forallb p a = true -> p c = true ->
  match b with c' :: _ => p c' = false | [] => True end ->
  k b = None -> k (c :: b) = Some r ->
  many p k (a ++ c :: b) = Some r.
Proof.
  intros Ha Hc Hb Hk Hk'. induction a as [|x a IH]; simpl.
  - rewrite Hc. replace (many p k b) with (k b); [by rewrite Hk|].
    destruct b as [|c' t]; [done|]. simpl. by rewrite Hb.
  - simpl in Ha. apply andb_prop in Ha as [Hx Ha]. by rewrite Hx, (IH Ha).
Qed.

Lemma prop_at_mtch b nv rest :
  prop_at b nv rest ->
  exists ms, mtch PROP_RE b = Some (ms, rest) /\ groups ms = [fst nv; snd nv].
Proof.
  destruct nv as [name value].
  intros (ws1 & ws2 & -> & Hne & Hname & Hws1 & Hws2 & Hval & Hgreedy). cbn [fst snd] in *.
  destruct name as [|c a]; [done|]. simpl in Hname. apply andb_prop in Hname as [Hc Ha].
  set (b2 := ":"%char :: ws2 ++ value ++ ";"%char :: rest).
  set (b1 := ws1 ++ b2).
  (* the value *)
  assert (H3 : many isspace (mtch PROP_value) (ws2 ++ value ++ ";"%char :: rest)
               = Some ([value ++ ";"%char :: rest; ";"%char :: rest], rest)).
  { destruct value as [|x v]; [done|]. destruct (isspace x) eqn:Hx.
    - rewrite (Hgreedy eq_refl). cbn [app].
      apply many_give_back; [done | done | done | apply mtch_PROP_value_semi |].
      apply (mtch_PROP_value_ok [x]); [done|]. simpl. by rewrite (space_not_semi x Hx).
    - apply many_longest; [done | done |]. by apply mtch_PROP_value_ok. }
  (* the colon *)
  assert (H2 : mtch PROP_colon b2
               = Some ([value ++ ";"%char :: rest; ";"%char :: rest], rest)).
  { unfold PROP_colon, b2. cbn [app mtch lit_ci]. by rewrite H3. }
  (* the white space after the name *)
  assert (H1 : mtch PROP_tail b1
               = Some ([b1; value ++ ";"%char :: rest; ";"%char :: rest], rest)).
  { unfold PROP_tail. cbn [app mtch].
    change (many isspace (mtch (lit_ci ":" :: Many isspace :: PROP_value)) b1)
      with (many isspace (mtch PROP_colon) b1).
    unfold b1. rewrite many_run; [by rewrite H2 | done | done |].
    intros c0 t0 Hc0. unfold PROP_colon. cbn [app mtch lit_ci].
    rewrite (lit_ci_char ":" c0 eq_refl lower_colon). by rewrite space_not_colon. }
  rewrite PROP_RE_parts. cbn [app mtch]. rewrite Hc.
  change (c :: a ++ ws1 ++ ":"%char :: ws2 ++ value ++ ";"%char :: rest) with (c :: a ++ b1).
  change (many name_char (mtch (Mark :: Many isspace :: PROP_colon)) (a ++ b1))
    with (many name_char (mtch PROP_tail) (a ++ b1)).
  rewrite many_run; [rewrite H1 | done | |].
  - eexists. split; [done|]. cbn [groups]. f_equal.
    + change (c :: a ++ b1) with ((c :: a) ++ b1). apply between_app.
    + f_equal. apply between_app.
  - unfold b1, b2. destruct ws1 as [|w ws1]; simpl.
    + done.
    + simpl in Hws1. apply andb_prop in Hws1 as [Hw _].
      destruct (name_char w) eqn:E; [|done]. apply name_char_not_space in E. congruence.
  - intros c0 t0 Hc0. unfold PROP_tail. cbn [app mtch].
    simpl. rewrite (name_char_not_space c0 Hc0).
    cbn [mtch lit_ci]. rewrite (lit_ci_char ":" c0 eq_refl lower_colon).
    by rewrite (name_char_not_colon c0 Hc0).
Qed.

Lemma mtch_prop_at b ms e :
  mtch PROP_RE b = Some (ms, e) ->
  exists name value, prop_at b (name, value) e /\ groups ms = [name; value].
Proof.
  rewrite PROP_RE_parts. cbn [app mtch]. intros H.
  destruct b as [|c s]; [done|].
  destruct (name_char c) eqn:Hc; [|done].
  destruct (many name_char _ s) as [[ms1 e1]|] eqn:Hm1; [|done].
  injection H as <- <-.
  apply many_Some in Hm1 as (a & b1 & -> & Ha & H1 & _).
  (* the white space after the name *)
  unfold PROP_tail in H1. cbn [app mtch] in H1.
  destruct (many isspace _ b1) as [[ms2 e2]|] eqn:Hm2; [|done].
  injection H1 as <- <-.
  apply many_Some in Hm2 as (ws1 & b2 & -> & Hws1 & H2 & _).
  (* the colon *)
  unfold PROP_colon in H2. cbn [app mtch lit_ci] in H2. destruct b2 as [|c2 t2]; [done|].
  rewrite (lit_ci_char ":" c2 eq_refl lower_colon) in H2.
  destruct (is_char ":" c2) eqn:Hc2; [|done]. apply is_char_eq in Hc2. subst c2.
  (* the value *)
  apply many_Some in H2 as (ws2 & r & -> & Hws2 & H3 & Hmax).
  rewrite mtch_PROP_value in H3.
  destruct r as [|x t']; [done|]. destruct (not_semi x) eqn:Hx; [|done].
  destruct (lstrip_with_split not_semi t') as (v & Ev & Hv).
  pose proof (lstrip_with_head not_semi t') as Hh.
  destruct (lstrip_with not_semi t') as [|c' rest]; [done|].
  unfold not_semi in Hh. apply negb_false_iff, is_char_eq in Hh. subst c'.
  injection H3 as <- <-. subst t'.
  exists (c :: a), (x :: v). split.
  - exists ws1, ws2. cbn [fst snd]. split; [done|].
    split; [done|]. split; [by simpl; rewrite Hc, Ha|].
    split; [done|]. split; [done|]. split; [by simpl; rewrite Hx, Hv|].
    intros Hsp. destruct v as [|y v]; [done|]. exfalso.
    simpl in Hv. apply andb_prop in Hv as [Hy Hv].
    specialize (Hmax (ws2 ++ [x]) ((y :: v) ++ ";"%char :: rest)).
    rewrite mtch_PROP_value_ok in Hmax; [|done|by simpl; rewrite Hy, Hv].
    assert (Some ([(y :: v) ++ ";"%char :: rest; ";"%char :: rest], rest) = None); [|done].
    apply Hmax.
    + by rewrite <- app_assoc.
    + rewrite forallb_app, Hws2. simpl. by rewrite Hsp.
    + rewrite length_app. simpl. lia.
  - cbn [groups]. f_equal.
    + change (c :: a ++ ws1 ++ ":"%char :: ws2 ++ x :: v ++ ";"%char :: rest)
        with ((c :: a) ++ ws1 ++ ":"%char :: ws2 ++ x :: v ++ ";"%char :: rest).
      apply between_app.
    + f_equal. change (x :: v ++ ";"%char :: rest) with ((x :: v) ++ ";"%char :: rest).
      apply between_app.
Qed.

Lemma findall2_groups pat s :
  findall2 pat s =
    map (fun m => (default [] (snd m !! 0), default [] (snd m !! 1)))
        (fst (finditer pat s)).
Proof. done. Qed.

Lemma findall2_Props block : Props block (findall2 PROP_RE block).
Proof.
  unfold Props. rewrite findall2_groups.
  apply (finditer_Leftmost prop_at PROP_RE
           (fun gs => (default [] (gs !! 0), default [] (gs !! 1)))); [done | |].
  - intros b ms e Hm. apply mtch_prop_at in Hm as (name & value & Hb & ->). done.
  - intros b nv e Hb. apply prop_at_mtch in Hb as (ms & Hm & _). by exists ms.
Qed.

(** The name of a property has no white space around it. *)
Lemma strip_name name : forallb name_char name = true -> strip name = name.
Proof.
  intros H. apply strip_fixed.
  - destruct name as [|c s]; [done|]. simpl in H. apply andb_prop in H as [Hc _].
    by apply name_char_not_space.
  - destruct name as [|c s] using rev_ind; [done|]. rewrite last_snoc.
    rewrite forallb_app in H. apply andb_prop in H as [_ H]. simpl in H.
    apply andb_prop in H as [Hc _]. by apply name_char_not_space.
Qed.

Lemma Leftmost_all {A} (at_ : str -> A -> str -> Prop) (P : A -> Prop) s l :
  (forall b x rest, at_ b x rest -> P x) -> Leftmost at_ s l -> Forall P l.
Proof.
  intros HP H. induction H as [|pre b x rest xs Hat _ _ IH]; [done|].
  constructor; [by eapply HP | done].
Qed.

Lemma findall2_names block :
  Forall (fun nv => forallb name_char (fst nv) = true) (findall2 PROP_RE block).
Proof.
  apply (Leftmost_all prop_at _ block); [|apply findall2_Props].
  by intros b nv rest (ws1 & ws2 & _ & _ & H & _).
Qed.

Lemma fold_insert_lookup (es : list (str * str)) (m : gmap str str) k :
  fold_left (fun m e => <[fst e := snd e]> m) es m !! k =
    match last (filter (fun e => fst e = k) es) with
    | Some e => Some (snd e)
    | None => m !! k
    end.
Proof.
  revert m. induction es as [|e es IH] using rev_ind; intros m; [done|].
  rewrite fold_left_app, filter_app. cbn [fold_left].
  destruct (decide (fst e = k)) as [<-|Hne].
  - rewrite lookup_insert_eq.
    rewrite (filter_cons_True _ e []) by done. by rewrite filter_nil, last_snoc.
  - rewrite lookup_insert_ne by done.
    rewrite (filter_cons_False _ e []) by done. rewrite filter_nil, app_nil_r. apply IH.
Qed.

Lemma parse_props_entries block :
  parse_props block = fold_left (fun m e => <[fst e := snd e]> m) (entries block) ∅.
Proof.
  unfold parse_props, entries.
  pose proof (findall2_names block) as Hn.
  generalize (∅ : gmap str str).
  induction (findall2 PROP_RE block) as [|nv l IH]; intros m; [done|].
  apply Forall_cons in Hn as [Hnv Hl]. cbn [map fold_left fst snd].
  rewrite (strip_name _ Hnv). by apply IH.
Qed.

Lemma parse_props_lookup block k :
  parse_props block !! k =
    snd <$> last (filter (fun e => fst e = k) (entries block)).
Proof.
  rewrite parse_props_entries, fold_insert_lookup.
  by destruct (last _).
Qed.

Lemma prop_at_functional b nv rest nv' rest' :
  prop_at b nv rest -> prop_at b nv' rest' -> nv = nv' /\ rest = rest'.
Proof.
  intros (ms & Hm & Hg)%prop_at_mtch (ms' & Hm' & Hg')%prop_at_mtch.
  rewrite Hm in Hm'. injection Hm' as <- <-. rewrite Hg in Hg'.
  injection Hg' as H1 H2. split; [|done]. destruct nv, nv'. simpl in *. by subst.
Qed.

Lemma Props_findall2 block pairs :
  Props block pairs <-> findall2 PROP_RE block = pairs.
Proof.
  split.
  - intros H. apply (Leftmost_functional prop_at block); [|apply findall2_Props | done].
    apply prop_at_functional.
  - intros <-. apply findall2_Props.
Qed.

(** [C2] The parser returns one mapping for each block of the text, in the
    order of the text, where the blocks are the successive leftmost
    occurrences of [@font-face] in either case, white space, an opening
    brace, a body up to the first closing brace and that brace, whatever
    braces the text has elsewhere.  The mapping of a block has, for each
    property of the block in turn, its value without surrounding white
    space under its name in lower case, so that the last property of a name
    wins; a block without property gives the empty mapping. *)
Theorem parse_font_faces_spec :
  (forall css bodies, Blocks css bodies <-> findall1 FONT_FACE_RE css = bodies)
  /\ (forall css, parse_font_faces css = map parse_props (findall1 FONT_FACE_RE css))
  /\ (forall block pairs, Props block pairs <-> findall2 PROP_RE block = pairs)
  /\ (forall block k,
        parse_props block !! k =
          snd <$> last (filter (fun e => fst e = k)
                          (map (fun nv => (lower (fst nv), strip (snd nv)))
                               (findall2 PROP_RE block))))
  /\ (forall block, findall2 PROP_RE block = [] -> parse_props block = ∅)
  /\ parse_font_faces $"a { b } @FONT-face { src: url(x); } } @font-face{}"
       = [ {[ $"src" := $"url(x)" ]}; ∅ ]
  /\ parse_props $"SRC: a; src: b;" = {[ $"src" := $"b" ]}.
Proof.
  split; [apply Blocks_findall1|].
  split; [done|].
  split; [apply Props_findall2|].
  split; [apply parse_props_lookup|].
  split; [by intros block H; unfold parse_props; rewrite H|].
  split; vm_compute; reflexivity.
Qed.

(** ** The URL of a face *)

Lemma mtch_URL_RE_steps b :
  mtch URL_RE b =
    if decide (lower (take 4 b) = $"url(") then
      match drop 4 b with
      | x :: t =>
          if not_rparen x then
            match lstrip_with not_rparen t with
            | c' :: rest => Some ([x :: t; c' :: rest], rest)
            | [] => None
            end
          else None
      | [] => None
      end
    else None.
Proof.
  unfold URL_RE. rewrite mtch_lits_ci by done.
  change (length $"url(") with 4.
  destruct (decide (lower (take 4 b) = $"url(")); [|done].
  change (fun c : ascii => negb (is_char ")" c)) with not_rparen.
  destruct (drop 4 b) as [|x t]; [done|]. cbn [mtch].
  destruct (not_rparen x); [|done].
  rewrite many_lstrip.
  2:{ intros c0 t0 Hc. cbn [mtch lit_ci].
      rewrite (lit_ci_char ")" c0 eq_refl lower_rparen).
      unfold not_rparen in Hc. apply negb_true_iff in Hc. by rewrite Hc. }
  pose proof (lstrip_with_head not_rparen t) as Hh.
  destruct (lstrip_with not_rparen t) as [|c' rest]; [done|].
  cbn [mtch lit_ci]. rewrite (lit_ci_char ")" c' eq_refl lower_rparen).
  unfold not_rparen in Hh. apply negb_false_iff in Hh. by rewrite Hh.
Qed.

Lemma url_occ_mtch b inner rest :
  url_occ b inner rest ->
  mtch URL_RE b = Some ([inner ++ ")"%char :: rest; ")"%char :: rest], rest).
Proof.
  intros (k & -> & Hk & Hne & Hin).
  assert (Hl : length k = 4) by (by rewrite <- lower_length, Hk).
  rewrite mtch_URL_RE_steps.
  rewrite take_app_length' by done. rewrite decide_True by done.
  rewrite drop_app_length' by done.
  destruct inner as [|x t]; [done|]. simpl in Hin. apply andb_prop in Hin as [Hx Ht].
  cbn [app]. unfold not_rparen at 1. rewrite Hx.
  by rewrite lstrip_with_app by done.
Qed.

Lemma mtch_url_occ b ms e :
  mtch URL_RE b = Some (ms, e) ->
  exists inner, url_occ b inner e /\ groups ms = [inner].
Proof.
  rewrite mtch_URL_RE_steps.
  destruct (decide (lower (take 4 b) = $"url(")) as [Hk|]; [|done].
  destruct (drop 4 b) as [|x t] eqn:Ed; [done|].
  destruct (not_rparen x) eqn:Hx; [|done].
  destruct (lstrip_with_split not_rparen t) as (a & Ea & Ha).
  pose proof (lstrip_with_head not_rparen t) as Hh.
  destruct (lstrip_with not_rparen t) as [|c' rest]; [done|].
  unfold not_rparen in Hh. apply negb_false_iff, is_char_eq in Hh. subst c'.
  intros [= <- <-]. exists (x :: a). split.
  - exists (take 4 b). split; [|split; [done|split; [done|]]].
    + rewrite <- (take_drop 4 b) at 1. rewrite Ed, Ea. done.
    + change (forallb not_rparen (x :: a) = true). cbn [forallb]. by rewrite Hx, Ha.
  - simpl. f_equal. rewrite Ea.
    change (x :: a ++ ")"%char :: rest) with ((x :: a) ++ ")"%char :: rest).
    apply between_app.
Qed.

Lemma url_occ_functional b x rest x' rest' :
  url_occ b x rest -> url_occ b x' rest' -> x = x' /\ rest = rest'.
Proof.
  intros H1%url_occ_mtch H2%url_occ_mtch. rewrite H1 in H2.
  injection H2 as Hb _ Hr. subst rest'. split; [|done]. by apply app_inv_tail in Hb.
Qed.

Lemma findall1_Urls v : Urls v (findall1 URL_RE v).
Proof.
  unfold Urls, findall1.
  apply (finditer_Leftmost url_occ URL_RE (fun gs => default [] (head gs))); [done | |].
  - intros b ms e Hm. apply mtch_url_occ in Hm as (inner & Hb & ->). done.
  - intros b inner e Hb. eexists. by apply url_occ_mtch.
Qed.

Lemma Urls_findall1 v inners : Urls v inners -> findall1 URL_RE v = inners.
Proof.
  intros H. symmetry.
  apply (Leftmost_functional url_occ v); [apply url_occ_functional | done | apply findall1_Urls].
Qed.

(** [X1] The URL of a [src] value that is not empty is the content of its
    first occurrence of [url(...)], cleaned of white space and of one pair of
    quotes; the occurrences after the first (the fallbacks of the
    stylesheet) are not looked at, and there is no URL when there is no
    occurrence. *)
Theorem pick_url_first (src : str) (inners : list str) :
  src <> [] -> Urls src inners ->
  pick_url (Some src) = clean_value <$> head inners.
Proof.
  intros Hne H. apply Urls_findall1 in H. unfold pick_url.
  destruct src as [|c s]; [done|]. cbn [falsy].
  change (default [] (Some (c :: s))) with (c :: s). rewrite H.
  by destruct inners.
Qed.

(** [X1] on a value with a local font, a quoted URL and a fallback. *)
Lemma pick_url_first_witness :
  pick_url (Some $"local(Arial), URL( 'a.woff2' ) format('woff2'), url(b.ttf)")
  = Some $"a.woff2".
Proof.
  apply (pick_url_first _ [ $" 'a.woff2' "; $"b.ttf" ]); [discriminate|].
  replace [ $" 'a.woff2' "; $"b.ttf" ]
    with (findall1 URL_RE $"local(Arial), URL( 'a.woff2' ) format('woff2'), url(b.ttf)")
    by (vm_compute; reflexivity).
  apply findall1_Urls.
Defined.

(** ** The shape of a parsed face *)

Lemma part_of_app_l r s pre : part_of r s -> part_of r (pre ++ s).
Proof.
  intros (a & b & ->). exists (pre ++ a), b. by rewrite <- app_assoc.
Qed.

Lemma part_of_app_r r s post : part_of r s -> part_of r (s ++ post).
Proof.
  intros (a & b & ->). exists a, (b ++ post). by rewrite <- !app_assoc.
Qed.

Lemma forallb_part_of (p : ascii -> bool) r s :
  part_of r s -> forallb p s = true -> forallb p r = true.
Proof.
  intros (a & b & ->). rewrite !forallb_app.
  intros [_ [H _]%andb_prop]%andb_prop. done.
Qed.

(** Every occurrence found by a scan lies in the text. *)
Lemma Leftmost_parts {A} (at_ : str -> A -> str -> Prop) (f : A -> str) s l :
  (forall b x rest, at_ b x rest -> part_of (f x) b /\ exists u, b = u ++ rest) ->
  Leftmost at_ s l -> Forall (fun x => part_of (f x) s) l.
Proof.
  intros Hat H. induction H as [|pre b x rest xs Hb _ _ IH]; [done|].
  destruct (Hat _ _ _ Hb) as [Hx [u ->]]. constructor.
  - by apply part_of_app_l.
  - eapply Forall_impl; [exact IH|]. intros y Hy. cbn beta in Hy.
    apply part_of_app_l. by apply (part_of_app_l _ _ u).
Qed.

Lemma face_at_parts b body rest :
  face_at b body rest -> part_of body b /\ exists u, b = u ++ rest.
Proof.
  intros (kw & ws & -> & _). split.
  - exists (kw ++ ws ++ ["{"%char]), ("}"%char :: rest).
    rewrite <- ?app_assoc. cbn [app]. by rewrite <- ?app_assoc.
  - exists (kw ++ ws ++ "{"%char :: body ++ ["}"%char]).
    rewrite <- ?app_assoc. cbn [app]. by rewrite <- ?app_assoc.
Qed.

Lemma prop_at_parts b nv rest :
  prop_at b nv rest -> part_of (snd nv) b /\ exists u, b = u ++ rest.
Proof.
  intros (ws1 & ws2 & -> & _). split.
  - exists (fst nv ++ ws1 ++ ":"%char :: ws2), (";"%char :: rest).
    rewrite <- ?app_assoc. cbn [app]. by rewrite <- ?app_assoc.
  - exists (fst nv ++ ws1 ++ ":"%char :: ws2 ++ snd nv ++ [";"%char]).
    rewrite <- ?app_assoc. cbn [app]. by rewrite <- ?app_assoc.
Qed.

(** The bodies of the blocks are texts of the stylesheet without closing
    brace. *)
Lemma findall1_bodies css :
  Forall (fun body => part_of body css /\ forallb not_rbrace body = true)
         (findall1 FONT_FACE_RE css).
Proof.
  apply Forall_and. split.
  - apply (Leftmost_parts face_at (fun x => x) css); [apply face_at_parts | apply findall1_Blocks].
  - apply (Leftmost_all face_at _ css); [|apply findall1_Blocks].
    by intros b body rest (kw & ws & _ & _ & _ & H).
Qed.

Lemma findall2_values block :
  Forall (fun nv => fst nv <> [] /\ forallb name_char (fst nv) = true /\
                    part_of (snd nv) block /\ forallb not_semi (snd nv) = true)
         (findall2 PROP_RE block).
Proof.
  repeat (apply Forall_and; split).
  - apply (Leftmost_all prop_at _ block); [|apply findall2_Props].
    by intros b nv rest (ws1 & ws2 & _ & H & _).
  - apply findall2_names.
  - apply (Leftmost_parts prop_at snd block); [apply prop_at_parts | apply findall2_Props].
  - apply (Leftmost_all prop_at _ block); [|apply findall2_Props].
    by intros b nv rest (ws1 & ws2 & _ & _ & _ & _ & _ & H & _).
Qed.

Lemma name_char_lower c :
  name_char c = true ->
  key_free (lower_char c) = true /\ lower_char (lower_char c) = lower_char c.
Proof. each_char c. Qed.

Lemma lower_key name :
  forallb name_char name = true ->
  forallb key_free (lower name) = true /\ lower (lower name) = lower name.
Proof.
  induction name as [|c s IH]; [done|]. simpl.
  intros [Hc Hs]%andb_prop. destruct (IH Hs) as [H1 H2].
  destruct (name_char_lower c Hc) as [H3 H4]. split.
  - by rewrite H3, H1.
  - unfold lower in *. cbn [map]. by rewrite H4, H2.
Qed.

(** An entry of the mapping of a block comes from a property of the
    block. *)
Lemma parse_props_Some block k v :
  parse_props block !! k = Some v ->
  exists nv, nv ∈ findall2 PROP_RE block /\ k = lower (fst nv) /\ v = strip (snd nv).
Proof.
  rewrite parse_props_lookup.
  destruct (last _) as [e|] eqn:E; [|done]. intros [= <-].
  apply last_Some_elem_of, list_elem_of_filter in E as [Hk He].
  unfold entries in He. apply list_elem_of_fmap in He as (nv & -> & Hnv).
  exists nv. by subst k.
Qed.

(** [X2] The faces the parser returns have keys and values of one shape: a
    key is not empty, is in lower case, and has no white space, digit,
    colon, semicolon or brace; a value is a text of the stylesheet with no
    white space at either end, no semicolon and no closing brace. *)
Theorem parsed_face_shape (css : str) (face : gmap str str) (k v : str) :
  face ∈ parse_font_faces css -> face !! k = Some v ->
  k <> [] /\ lower k = k /\ forallb key_free k = true
  /\ strip v = v /\ part_of v css
  /\ forallb not_semi v = true /\ forallb not_rbrace v = true.
Proof.
  intros Hf Hk. unfold parse_font_faces in Hf.
  apply list_elem_of_fmap in Hf as (body & -> & Hbody).
  pose proof (findall1_bodies css) as Hb. rewrite Forall_forall in Hb.
  destruct (Hb body Hbody) as [Hpart Hbrace].
  apply parse_props_Some in Hk as (nv & Hnv & -> & ->).
  pose proof (findall2_values body) as Hv. rewrite Forall_forall in Hv.
  destruct (Hv nv Hnv) as (Hne & Hname & Hvp & Hsemi).
  assert (Hsv : part_of (strip (snd nv)) body).
  { eapply part_of_trans; [apply strip_part_of | done]. }
  destruct (lower_key _ Hname) as [Hfree Hlow].
  split; [|split; [|split; [|split; [|split; [|split]]]]].
  - destruct (fst nv); [done|]. done.
  - done.
  - done.
  - apply strip_idem.
  - by eapply part_of_trans.
  - eapply forallb_part_of; [apply strip_part_of | done].
  - by eapply forallb_part_of.
Qed.

(** [X2] on a face whose [src] holds a [data:] URL: the value ends at the
    first semicolon. *)
Lemma parsed_face_shape_witness :
  lower $"src" = $"src"
  /\ strip $"url(data:font/woff2" = $"url(data:font/woff2"
  /\ forallb not_semi $"url(data:font/woff2" = true.
Proof.
  assert (Hf : parse_props $" SRC : url(data:font/woff2;base64,AAAA); "
               ∈ parse_font_faces $"@font-face { SRC : url(data:font/woff2;base64,AAAA); }").
  { vm_compute. apply list_elem_of_here. }
  assert (Hk : parse_props $" SRC : url(data:font/woff2;base64,AAAA); " !! $"src"
               = Some $"url(data:font/woff2").
  { rewrite parse_props_lookup. vm_compute. reflexivity. }
  destruct (parsed_face_shape _ _ _ _ Hf Hk) as (_ & H0 & _ & H1 & _ & H2 & _).
  split; [exact H0 | split; [exact H1 | exact H2]].
Defined.

(** ** How many faces and properties a text can give *)

Lemma count_char_app x a b : count_char x (a ++ b) = count_char x a + count_char x b.
Proof. unfold count_char. by rewrite filter_app, length_app. Qed.

Lemma count_char_here x s : 0 < count_char x (x :: s).
Proof.
  unfold count_char. rewrite filter_cons_True by apply is_char_refl. simpl. lia.
Qed.

Lemma count_char_none x s :
  forallb (fun c => negb (is_char x c)) s = true -> count_char x s = 0.
Proof.
  unfold count_char. induction s as [|c s IH]; [done|]. simpl.
  intros [Hc Hs]%andb_prop. apply negb_true_iff in Hc.
  rewrite filter_cons_False by (by rewrite Hc). by apply IH.
Qed.

(** Occurrences that each hold a character [x] are no more than the
    characters [x] of the text. *)
Lemma Leftmost_count {A} (at_ : str -> A -> str -> Prop) x s l :
  (forall b y rest, at_ b y rest -> exists u, b = u ++ rest /\ 0 < count_char x u) ->
  Leftmost at_ s l -> length l <= count_char x s.
Proof.
  intros Hat H. induction H as [|pre b y rest xs Hb _ _ IH]; [simpl; lia|].
  destruct (Hat _ _ _ Hb) as (u & -> & Hu).
  rewrite !count_char_app. simpl. lia.
Qed.

Lemma face_at_braces b body rest x :
  x = "{"%char \/ x = "}"%char ->
  face_at b body rest -> exists u, b = u ++ rest /\ 0 < count_char x u.
Proof.
  intros Hx (kw & ws & -> & _).
  exists (kw ++ ws ++ "{"%char :: body ++ ["}"%char]). split.
  - rewrite <- ?app_assoc. cbn [app]. by rewrite <- ?app_assoc.
  - rewrite !count_char_app. destruct Hx as [-> | ->].
    + pose proof (count_char_here "{" (body ++ ["}"%char])). lia.
    + change ("{"%char :: body ++ ["}"%char]) with (["{"%char] ++ body ++ ["}"%char]).
      rewrite !count_char_app. pose proof (count_char_here "}" []). lia.
Qed.

Lemma prop_at_marks b nv rest x :
  x = ":"%char \/ x = ";"%char ->
  prop_at b nv rest -> exists u, b = u ++ rest /\ 0 < count_char x u.
Proof.
  intros Hx (ws1 & ws2 & -> & _).
  exists (fst nv ++ ws1 ++ ":"%char :: ws2 ++ snd nv ++ [";"%char]). split.
  - rewrite <- ?app_assoc. cbn [app]. by rewrite <- ?app_assoc.
  - rewrite !count_char_app. destruct Hx as [-> | ->].
    + pose proof (count_char_here ":" (ws2 ++ snd nv ++ [";"%char])). lia.
    + change (":"%char :: ws2 ++ snd nv ++ [";"%char])
        with ([":"%char] ++ ws2 ++ snd nv ++ [";"%char]).
      rewrite !count_char_app. pose proof (count_char_here ";" []). lia.
Qed.

Lemma fold_insert_size (es : list (str * str)) (m : gmap str str) :
  size (fold_left (fun m e => <[fst e := snd e]> m) es m) <= size m + length es.
Proof.
  revert m. induction es as [|e es IH]; intros m; [simpl; lia|].
  cbn [fold_left length]. etransitivity; [apply IH|].
  rewrite map_size_insert. destruct (m !! fst e); simpl; lia.
Qed.

Lemma parse_props_size block :
  size (parse_props block) <= length (findall2 PROP_RE block).
Proof.
  rewrite parse_props_entries. etransitivity; [apply fold_insert_size|].
  rewrite map_size_empty. unfold entries. by rewrite length_map.
Qed.

(** [X3] A stylesheet gives no more faces than it has opening braces, and
    no more than it has closing braces; a block gives no more properties
    than it has colons, and no more than it has semicolons.  So a text
    without closing brace gives no face, and a block without semicolon, such
    as one whose only declaration is not terminated, gives the empty
    mapping. *)
Theorem parse_bounds :
  (forall css,
      length (parse_font_faces css) <= count_char "{" css
      /\ length (parse_font_faces css) <= count_char "}" css)
  /\ (forall css, forallb not_rbrace css = true -> parse_font_faces css = [])
  /\ (forall block,
        size (parse_props block) <= count_char ":" block
        /\ size (parse_props block) <= count_char ";" block)
  /\ (forall block, forallb not_semi block = true -> parse_props block = ∅).
Proof.
  assert (Hf : forall css x, x = "{"%char \/ x = "}"%char ->
                 length (parse_font_faces css) <= count_char x css).
  { intros css x Hx. unfold parse_font_faces. rewrite length_map.
    apply (Leftmost_count face_at x css); [|apply findall1_Blocks].
    intros b y rest. by apply face_at_braces. }
  assert (Hp : forall block x, x = ":"%char \/ x = ";"%char ->
                 size (parse_props block) <= count_char x block).
  { intros block x Hx. etransitivity; [apply parse_props_size|].
    apply (Leftmost_count prop_at x block); [|apply findall2_Props].
    intros b y rest. by apply prop_at_marks. }
  split; [|split; [|split]].
  - intros css. split; apply Hf; auto.
  - intros css H. specialize (Hf css "}"%char (or_intror eq_refl)).
    rewrite (count_char_none "}" css H) in Hf.
    destruct (parse_font_faces css); [done | simpl in Hf; lia].
  - intros block. split; apply Hp; auto.
  - intros block H. specialize (Hp block ";"%char (or_intror eq_refl)).
    rewrite (count_char_none ";" block H) in Hp.
    apply map_size_empty_iff. lia.
Qed.

(** ** Hashes and resource names *)

Lemma hexdigit_hex (y : Z) : hex_char (Sha1.hexdigit (Z.land y 15)) = true.
Proof.
  change 15%Z with (Z.ones 4). rewrite Z.land_ones by lia.
  pose proof (Z.mod_pos_bound y (2 ^ 4) ltac:(lia)) as H.
  assert (Hall : forallb hex_char $"0123456789abcdef" = true) by reflexivity.
  rewrite forallb_forall in Hall. apply Hall. unfold Sha1.hexdigit.
  apply nth_In. change (length $"0123456789abcdef") with 16. lia.
Qed.

Lemma hex32_shape x :
  length (Sha1.hex32 x) = 8 /\ forallb hex_char (Sha1.hex32 x) = true.
Proof.
  unfold Sha1.hex32. split; [done|]. cbn [map forallb].
  by rewrite !hexdigit_hex.
Qed.

Lemma sha1_hex_digits data :
  length (sha1_hex data) = 40 /\ forallb hex_char (sha1_hex data) = true.
Proof.
  unfold sha1_hex, Sha1.hexdigest.
  destruct (Sha1.digest data) as [[[[h0 h1] h2] h3] h4].
  rewrite !length_app, !forallb_app.
  destruct (hex32_shape h0) as [-> ->], (hex32_shape h1) as [-> ->],
    (hex32_shape h2) as [-> ->], (hex32_shape h3) as [-> ->], (hex32_shape h4) as [-> ->].
  done.
Qed.

Lemma hex_char_ident c : hex_char c = true -> ident_char c = true.
Proof. each_char c. Qed.

Lemma hex_char_head c :
  hex_char c = true -> is_char "_" c = false /\ ascii_alpha c = negb (in_range "0" "9" c).
Proof. each_char c. Qed.

Lemma hex_ident h : forallb hex_char h = true -> forallb ident_char h = true.
Proof.
  induction h as [|c s IH]; [done|]. simpl.
  intros [Hc Hs]%andb_prop. by rewrite (hex_char_ident c Hc), IH.
Qed.

(** The name of the resource of a hash in hexadecimal is the hash after an
    underscore. *)
Lemma resource_name_of_hex h :
  h <> [] -> forallb hex_char h = true -> resource_name_of h = "_"%char :: h.
Proof.
  intros Hne Hh. unfold resource_name_of. rewrite to_valid_identifier_sanitized.
  unfold sanitized. rewrite (map_sanitize_id h (hex_ident h Hh)).
  destruct h as [|c s]; [done|]. simpl in Hh. apply andb_prop in Hh as [Hc _].
  destruct (hex_char_head c Hc) as [Hu Ha]. rewrite Hu, orb_false_r.
  destruct (ascii_alpha c); cbn [startswith negb]; [by rewrite Hu | by rewrite is_char_refl].
Qed.

(** [X4] The hash of a font is forty digits in lower-case hexadecimal, and
    the name of its resource is the hash after one underscore: the
    sanitation changes no character of it.  So two fonts have the same
    resource name exactly when they have the same hash.  The hash is SHA-1:
    three of its published test vectors. *)
Theorem sha1_hex_shape (data : bytes) :
  length (sha1_hex data) = 40
  /\ forallb hex_char (sha1_hex data) = true
  /\ resource_name_of (sha1_hex data) = "_"%char :: sha1_hex data
  /\ length (resource_name_of (sha1_hex data)) = 41
  /\ (forall data',
        resource_name_of (sha1_hex data) = resource_name_of (sha1_hex data')
        <-> sha1_hex data = sha1_hex data')
  /\ sha1_hex [] = $"da39a3ee5e6b4b0d3255bfef95601890afd80709"
  /\ sha1_hex (sample_bytes "abc") = $"a9993e364706816aba3e25717850c26c9cd0d89d"
  /\ sha1_hex (sample_bytes "abcdbcdecdefdefgefghfghighijhijkijkljklmklmnlmnomnopnopq")
       = $"84983e441c3bd26ebaae4aa1f95129e5e54670f1".
Proof.
  assert (Hrn : forall d, resource_name_of (sha1_hex d) = "_"%char :: sha1_hex d).
  { intros d. destruct (sha1_hex_digits d) as [Hl Hh].
    apply resource_name_of_hex; [|done]. by destruct (sha1_hex d). }
  destruct (sha1_hex_digits data) as [Hl Hh].
  split; [done|]. split; [done|]. split; [apply Hrn|].
  split; [by rewrite Hrn; cbn [length]; rewrite Hl|].
  split.
  { intros data'. rewrite !Hrn. split; [by intros [= ->] | by intros ->]. }
  repeat split; vm_compute; reflexivity.
Qed.

(** ** The shape of a file name *)

(** A name without slash, other than the empty one and the dot, is the name
    of the path it makes. *)
Lemma name_component s :
  no_slash s -> s <> [] -> s <> $"." -> PathLib.name s = s.
Proof.
  intros Hs Hne Hdot. unfold PathLib.name. rewrite split_char_whole by done.
  by rewrite filter_cons_True by done.
Qed.

(** A suffix is a dot and a text without dot that is not empty. *)
Lemma suffix_shape p :
  PathLib.suffix p = [] \/
  exists e, PathLib.suffix p = "."%char :: e /\ e <> [] /\ without "." e.
Proof.
  unfold PathLib.suffix. destruct (rfind "." (PathLib.name p)) as [i|] eqn:E; [|by left].
  destruct (_ && _) eqn:Hi; [|by left]. right.
  apply rfind_Some in E as (a & b & E & <- & Hb). rewrite E.
  rewrite drop_app_length. exists b. split; [done|]. split; [|done].
  intros ->. apply andb_prop in Hi as [_ Hi]. apply Nat.ltb_lt in Hi.
  rewrite E, length_app in Hi. simpl in Hi. lia.
Qed.

Lemma ident_char_no_dot s : forallb ident_char s = true -> without "." s.
Proof.
  unfold without. induction s as [|c s IH]; [done|]. simpl.
  intros [Hc Hs]%andb_prop. rewrite (IH Hs), andb_true_r.
  revert Hc. each_char c.
Qed.

(** The suffix of a name that ends with a dot and an extension. *)
Lemma suffix_of_name a e :
  a <> [] -> no_slash a -> no_slash e -> e <> [] -> without "." e ->
  PathLib.name (a ++ "."%char :: e) = a ++ "."%char :: e
  /\ PathLib.suffix (a ++ "."%char :: e) = "."%char :: e.
Proof.
  intros Ha Hsa Hse He Hde.
  assert (Hn : PathLib.name (a ++ "."%char :: e) = a ++ "."%char :: e).
  { apply name_component.
    - apply no_slash_app; [done|]. unfold no_slash in *. simpl. by rewrite Hse.
    - by destruct a.
    - destruct a as [|x [|y a]]; [done| |done]. destruct e; [done|]. done. }
  split; [done|]. unfold PathLib.suffix. rewrite Hn, rfind_last by done.
  assert (Hlt : (0 <? length a) && (length a <? length (a ++ "."%char :: e) - 1) = true).
  { apply andb_true_intro. split; apply Nat.ltb_lt.
    - destruct a; [done | simpl; lia].
    - rewrite length_app. simpl. destruct e; [done | simpl; lia]. }
  rewrite Hlt. by rewrite drop_app_length.
Qed.

(** [X5] The name of the file of a font: the extension is a dot followed by
    a text that is not empty and has neither dot nor slash, whatever the
    URL; the file name starts with an underscore and has no slash, so the
    file is an entry of the output directory itself; and the suffix of the
    file name is the extension again. *)
Theorem file_name_shape (env : Env) (font_url ext h : str) :
  font_ext env font_url = Ok ext ->
  (exists e, ext = "."%char :: e /\ e <> [] /\ without "." e /\ no_slash e)
  /\ startswith "_" (resource_name_of h ++ ext) = true
  /\ no_slash (resource_name_of h ++ ext)
  /\ PathLib.name (resource_name_of h ++ ext) = resource_name_of h ++ ext
  /\ PathLib.suffix (resource_name_of h ++ ext) = ext.
Proof.
  intros H. destruct (filename_component env font_url ext h H) as [Hst Hns].
  assert (He : exists e, ext = "."%char :: e /\ e <> [] /\ without "." e /\ no_slash e).
  { rewrite font_ext_unfold in H.
    destruct (urlparse_path (netloc_valid env) font_url) as [path|]; [|done].
    injection H as <-. pose proof (suffix_no_slash path) as Hs.
    destruct (suffix_shape path) as [-> | (e & Ee & Hne & Hd)].
    - by exists $"woff2".
    - rewrite Ee in *. exists e. split; [done|]. split; [done|]. split; [done|].
      unfold no_slash in *. simpl in Hs. done. }
  split; [done|]. split; [done|]. split; [done|].
  destruct He as (e & -> & Hne & Hd & Hse).
  pose proof (resource_name_of_head h) as Hh.
  apply suffix_of_name; try done.
  - by destruct (resource_name_of h).
  - apply ident_char_no_slash, resource_name_of_ident.
Qed.

(** [X5] on a URL with dots in a directory, in the query and in the
    fragment. *)
Lemma file_name_shape_witness :
  PathLib.suffix (resource_name_of $"0f3a" ++ $".ttf") = $".ttf".
Proof.
  assert (H : font_ext sample $"https://fonts.example/a/b.c/font.v2.ttf?x=1.0#y.z" = Ok $".ttf")
    by (vm_compute; reflexivity).
  exact (proj2 (proj2 (proj2 (proj2 (file_name_shape sample _ _ $"0f3a" H))))).
Defined.

(** ** The groups of the families *)

Lemma first_seen_elem x l : x ∈ first_seen l <-> x ∈ l.
Proof.
  induction l as [|k l IH]; [done|]. cbn [first_seen].
  rewrite !elem_of_cons, list_elem_of_filter, IH.
  destruct (decide (x = k)); tauto.
Qed.

Lemma first_seen_NoDup l : NoDup (first_seen l).
Proof.
  induction l as [|k l IH]; [constructor|]. cbn [first_seen]. constructor.
  - rewrite list_elem_of_filter. tauto.
  - by apply NoDup_filter.
Qed.

Lemma first_seen_snoc l x :
  first_seen (l ++ [x]) = if decide (x ∈ l) then first_seen l else first_seen l ++ [x].
Proof.
  induction l as [|k l IH]; [done|]. cbn [app first_seen]. rewrite IH.
  destruct (decide (x ∈ l)) as [Hin|Hin].
  - rewrite decide_True; [done|]. apply elem_of_cons. by right.
  - rewrite filter_app. destruct (decide (x = k)) as [->|Hne].
    + rewrite decide_True by (apply elem_of_cons; by left).
      rewrite (filter_cons_False _ k []) by tauto. by rewrite filter_nil, app_nil_r.
    + rewrite decide_False by (rewrite elem_of_cons; tauto).
      by rewrite (filter_cons_True _ x []) by done.
Qed.

Lemma of_family_snoc k ds d :
  of_family k (ds ++ [d]) = of_family k ds ++ (if decide (family d = k) then [d] else []).
Proof.
  unfold of_family. by rewrite filter_app.
Qed.

Lemma of_family_none k ds : k ∉ map family ds -> of_family k ds = [].
Proof.
  unfold of_family. induction ds as [|d ds IH]; [done|]. cbn [map].
  rewrite not_elem_of_cons. intros [Hne Hk].
  rewrite filter_cons_False by congruence. by apply IH.
Qed.

(** One more descriptor: it joins the group of its family, or starts a new
    group at the end. *)
Lemma setdefault_append_groups keys ds d :
  NoDup keys ->
  setdefault_append (map (fun k => (k, of_family k ds)) keys) d =
    map (fun k => (k, of_family k (ds ++ [d]))) keys
    ++ (if decide (family d ∈ keys) then [] else [(family d, [d])]).
Proof.
  intros Hnd. induction keys as [|k ks IH]; [done|].
  apply NoDup_cons in Hnd as [Hk Hks]. cbn [map setdefault_append].
  destruct (decide (k = family d)) as [->|Hne].
  - rewrite decide_True by (apply elem_of_cons; by left). rewrite app_nil_r.
    rewrite of_family_snoc, decide_True by done. f_equal.
    apply map_ext_in. intros k' Hk'. apply list_elem_of_In in Hk'.
    rewrite of_family_snoc, decide_False, app_nil_r; [done|].
    intros E. by rewrite E in Hk.
  - rewrite (IH Hks). cbn [app]. f_equal.
    + by rewrite of_family_snoc, decide_False, app_nil_r by done.
    + f_equal. destruct (decide (family d ∈ ks)) as [Hin|Hin].
      * rewrite decide_True; [done|]. apply elem_of_cons. by right.
      * rewrite decide_False; [done|]. rewrite elem_of_cons. intros [E|E]; congruence.
Qed.

Lemma group_families_snoc ds d :
  group_families (ds ++ [d]) = setdefault_append (group_families ds) d.
Proof. unfold group_families. by rewrite fold_left_app. Qed.

(** The groups are the families in the order of their first descriptor,
    each with its descriptors in their order. *)
Lemma group_families_first_seen ds :
  group_families ds =
    map (fun k => (k, of_family k ds)) (first_seen (map family ds)).
Proof.
  induction ds as [|d ds IH] using rev_ind; [done|].
  rewrite group_families_snoc, IH.
  rewrite setdefault_append_groups by apply first_seen_NoDup.
  rewrite map_app. cbn [map]. rewrite first_seen_snoc.
  destruct (decide (family d ∈ map family ds)) as [Hin|Hin].
  - rewrite decide_True by (by apply first_seen_elem). by rewrite app_nil_r.
  - rewrite decide_False by (by rewrite first_seen_elem).
    rewrite map_app. cbn [map]. do 2 f_equal.
    by rewrite of_family_snoc, (of_family_none _ _ Hin), decide_True.
Qed.

Lemma group_families_keys ds :
  map fst (group_families ds) = first_seen (map family ds).
Proof.
  rewrite group_families_first_seen, map_map. cbn [fst]. apply map_id.
Qed.

(** [X6] The grouping of the descriptors: the groups are the families in
    the order in which each first occurs, no family twice, and the group of
    a family has exactly the descriptors of that family, in the order of the
    list; no group is empty and no descriptor is lost or repeated. *)
Theorem group_families_spec (ds : list Descriptor) :
  group_families ds =
    map (fun k => (k, of_family k ds)) (first_seen (map family ds))
  /\ NoDup (map fst (group_families ds))
  /\ (forall k, k ∈ map fst (group_families ds) <-> exists d, d ∈ ds /\ family d = k)
  /\ (forall k items, (k, items) ∈ group_families ds ->
        items = of_family k ds /\ items <> [])
  /\ concat (map snd (group_families ds)) ≡ₚ ds.
Proof.
  split; [apply group_families_first_seen|].
  split; [rewrite group_families_keys; apply first_seen_NoDup|].
  split.
  { intros k. rewrite group_families_keys, first_seen_elem, list_elem_of_fmap.
    split; intros (d & H1 & H2); exists d; done. }
  split; [|apply group_families_perm].
  intros k items H. rewrite group_families_first_seen in H.
  apply list_elem_of_fmap in H as (k' & [= -> ->] & Hk).
  split; [done|]. apply first_seen_elem, list_elem_of_fmap in Hk as (d & -> & Hd).
  intros E. assert (Hin : d ∈ of_family (family d) ds).
  { unfold of_family. by apply list_elem_of_filter. }
  rewrite E in Hin. by apply elem_of_nil in Hin.
Qed.

(** ** The declarations of the bindings file *)

Lemma provider_lines_marks fam :
  filter (fun l => is_val_line l = true) (provider_lines fam) = [provider_header (fst fam)]
  /\ filter (fun l => is_descriptor_line l = true) (provider_lines fam)
     = map descriptor_line (snd fam).
Proof.
  unfold provider_lines. rewrite !filter_app.
  rewrite (filter_cons_True (fun l => is_val_line l = true) _ []) by (by vm_compute).
  rewrite (filter_cons_False (fun l => is_val_line l = true) _ []) by (by vm_compute).
  rewrite (filter_cons_False (fun l => is_descriptor_line l = true) _ []) by (by vm_compute).
  rewrite (filter_cons_False (fun l => is_descriptor_line l = true) _ []) by (by vm_compute).
  rewrite !filter_nil.
  assert (Hv : filter (fun l => is_val_line l = true) (map descriptor_line (snd fam)) = []).
  { induction (snd fam) as [|d ds IH]; [done|].
    cbn [map]. rewrite filter_cons_False; [done|]. by vm_compute. }
  assert (Hd : filter (fun l => is_descriptor_line l = true) (map descriptor_line (snd fam))
               = map descriptor_line (snd fam)).
  { induction (snd fam) as [|d ds IH]; [done|].
    cbn [map]. rewrite filter_cons_True by (by vm_compute). by rewrite IH. }
  rewrite Hv, Hd. split; [done|]. by rewrite app_nil_r.
Qed.

Lemma providers_marks (fams : list (str * list Descriptor)) :
  filter (fun l => is_val_line l = true) (concat (map provider_lines fams))
    = map (fun fam => provider_header (fst fam)) fams
  /\ filter (fun l => is_descriptor_line l = true) (concat (map provider_lines fams))
     = concat (map (fun fam => map descriptor_line (snd fam)) fams)
  /\ length (concat (map provider_lines fams))
     = 2 * length fams + length (concat (map snd fams)).
Proof.
  induction fams as [|fam fams (IH1 & IH2 & IH3)]; [done|].
  cbn [map concat]. rewrite !filter_app, !length_app.
  destruct (provider_lines_marks fam) as (-> & ->).
  rewrite IH1, IH2, IH3. split; [done|]. split; [done|].
  unfold provider_lines. rewrite !length_app, length_map. cbn [length]. lia.
Qed.

Lemma join_snoc_empty sep ls :
  ls <> [] -> join sep (ls ++ [[]]) = join sep ls ++ sep.
Proof.
  induction ls as [|x ls IH]; [done|]. intros _.
  destruct ls as [|y ls].
  - cbn [app join]. by rewrite app_nil_r.
  - change (join sep ((x :: y :: ls) ++ [[]]))
      with (x ++ sep ++ join sep ((y :: ls) ++ [[]])).
    rewrite IH by done. cbn [join]. by rewrite <- !app_assoc.
Qed.

(** The lines of texts joined with line feeds are those texts, when none of
    them holds a line feed. *)
Lemma lines_of_join ls :
  ls <> [] -> Forall (without newline) ls -> lines_of (join [newline] ls) = ls.
Proof.
  unfold lines_of. induction ls as [|x ls IH]; [done|]. intros _ H.
  apply Forall_cons in H as [Hx Hls]. destruct ls as [|y ls].
  - cbn [join]. by apply split_char_whole.
  - change (join [newline] (x :: y :: ls)) with (x ++ newline :: join [newline] (y :: ls)).
    rewrite split_char_app, (split_char_whole _ _ Hx), IH by done. done.
Qed.

Lemma ident_char_line c : ident_char c = true -> is_char newline c = false.
Proof. each_char c. Qed.

Lemma ident_one_line s : forallb ident_char s = true -> without newline s.
Proof.
  unfold without. induction s as [|c s IH]; [done|]. simpl.
  intros [Hc Hs]%andb_prop. by rewrite (ident_char_line c Hc), IH.
Qed.

Lemma to_pascal_case_one_line name : without newline (to_pascal_case name).
Proof.
  rewrite to_pascal_case_runs. destruct (runs alnum_char name) as [|fr frs]; [done|].
  rewrite to_valid_identifier_sanitized. apply ident_one_line, sanitized_ident.
Qed.

Lemma descriptor_line_one_line d : one_line d -> without newline (descriptor_line d).
Proof.
  intros (H1 & H2 & H3 & H4 & H5). unfold descriptor_line.
  repeat (apply without_app; split); done.
Qed.

Lemma provider_lines_one_line fam :
  Forall one_line (snd fam) -> Forall (without newline) (provider_lines fam).
Proof.
  intros H. unfold provider_lines. apply Forall_app. split.
  { apply Forall_singleton. repeat (apply without_app; split); [done| |done].
    apply to_pascal_case_one_line. }
  apply Forall_app. split; [|by apply Forall_singleton].
  induction H as [|d ds Hd _ IH]; [done|]. cbn [map]. apply Forall_cons.
  split; [by apply descriptor_line_one_line | done].
Qed.

Lemma kotlin_lines_one_line args ds :
  without newline (kotlin_package args) -> without newline (res_package args) ->
  Forall one_line ds -> Forall (without newline) (kotlin_lines args ds).
Proof.
  intros Hk Hr Hds. unfold kotlin_lines.
  apply Forall_app. split.
  { unfold package_lines. destruct (kotlin_package args) as [|c pkg] eqn:E; [done|].
    apply Forall_cons. split; [|by apply Forall_singleton].
    apply without_app. by split. }
  apply Forall_app. split.
  { unfold import_lines. repeat (apply Forall_cons; split); try done.
    all: repeat (apply without_app; split); done. }
  apply Forall_app. split; [|by apply Forall_singleton].
  assert (Hall : Forall one_line (concat (map snd (group_families ds)))).
  { eapply Permutation_Forall; [symmetry; apply group_families_perm | done]. }
  induction (group_families ds) as [|fam fams IH]; [done|].
  cbn [map concat] in *. apply Forall_app in Hall as [Hf Hfs].
  apply Forall_app. split; [by apply provider_lines_one_line | by apply IH].
Qed.

(** [X7] The lines of the bindings file, when neither package name and no
    field of a descriptor holds a line feed.  They are the texts the script
    collects, one line each.  The lines that open a provider are those of
    the families, in the order in which each family first occurs; the lines
    of the descriptors are those of the first family in the order of the
    stylesheet, then those of the second, and so on.  With the package
    lines, the five lines of the imports, the closing lines of the providers
    and the last line there is nothing else; the last line is empty, so the
    text ends with a line feed. *)
Theorem bindings_lines (args : Args) (ds : list Descriptor)
    (Hk : without newline (kotlin_package args))
    (Hr : without newline (res_package args))
    (Hds : Forall one_line ds) :
  let families := first_seen (map family ds) in
  let text := join [newline] (kotlin_lines args ds) in
  lines_of text = kotlin_lines args ds
  /\ filter (fun l => is_val_line l = true) (lines_of text)
     = map provider_header families
  /\ filter (fun l => is_descriptor_line l = true) (lines_of text)
     = concat (map (fun k => map descriptor_line (of_family k ds)) families)
  /\ length (filter (fun l => is_descriptor_line l = true) (lines_of text))
     = length ds
  /\ length (lines_of text)
     = (match kotlin_package args with [] => 0 | _ => 2 end)
       + 5 + (2 * length families + length ds) + 1
  /\ last (lines_of text) = Some []
  /\ exists body, text = body ++ [newline].
Proof.
  intros families text.
  assert (Hlines : lines_of text = kotlin_lines args ds).
  { apply lines_of_join; [|by apply kotlin_lines_one_line].
    unfold kotlin_lines, import_lines. by destruct (package_lines args). }
  rewrite Hlines. split; [done|].
  destruct (providers_marks (group_families ds)) as (Hv & Hd & Hl).
  assert (Hn : length (group_families ds) = length families).
  { unfold families. by rewrite <- group_families_keys, length_map. }
  assert (Hc : length (concat (map snd (group_families ds))) = length ds).
  { apply Permutation_length, group_families_perm. }
  assert (Hdl : length (concat (map (fun fam => map descriptor_line (snd fam))
                                    (group_families ds))) = length ds).
  { rewrite <- Hc. clear. induction (group_families ds) as [|fam fams IH]; [done|].
    cbn [map concat]. by rewrite !length_app, length_map, IH. }
  rewrite Hn, Hc in Hl.
  assert (Hpv : filter (fun l => is_val_line l = true) (package_lines args) = []).
  { unfold package_lines. destruct (kotlin_package args) as [|c pkg]; [done|].
    rewrite filter_cons_False by (by vm_compute).
    by rewrite filter_cons_False by (by vm_compute). }
  assert (Hpd : filter (fun l => is_descriptor_line l = true) (package_lines args) = []).
  { unfold package_lines. destruct (kotlin_package args) as [|c pkg]; [done|].
    rewrite filter_cons_False by (by vm_compute).
    by rewrite filter_cons_False by (by vm_compute). }
  assert (Hiv : filter (fun l => is_val_line l = true) (import_lines args) = []).
  { unfold import_lines. by rewrite !filter_cons_False by (by vm_compute). }
  assert (Hid : filter (fun l => is_descriptor_line l = true) (import_lines args) = []).
  { unfold import_lines. by rewrite !filter_cons_False by (by vm_compute). }
  assert (Hfv : filter (fun l => is_val_line l = true) (kotlin_lines args ds)
                = map (fun fam => provider_header (fst fam)) (group_families ds)).
  { unfold kotlin_lines. rewrite !filter_app, Hpv, Hiv, Hv.
    rewrite (filter_cons_False _ _ []) by (by vm_compute). by rewrite filter_nil, app_nil_r. }
  assert (Hfd : filter (fun l => is_descriptor_line l = true) (kotlin_lines args ds)
                = concat (map (fun fam => map descriptor_line (snd fam)) (group_families ds))).
  { unfold kotlin_lines. rewrite !filter_app, Hpd, Hid, Hd.
    rewrite (filter_cons_False _ _ []) by (by vm_compute). by rewrite filter_nil, app_nil_r. }
  split; [|split; [|split; [|split; [|split]]]].
  - rewrite Hfv, group_families_first_seen, map_map. done.
  - rewrite Hfd, group_families_first_seen, map_map. done.
  - by rewrite Hfd.
  - unfold kotlin_lines. rewrite !length_app, Hl. unfold package_lines.
    by destruct (kotlin_package args).
  - unfold kotlin_lines. rewrite !app_assoc. apply last_snoc.
  - exists (join [newline]
              (package_lines args ++ import_lines args
               ++ concat (map provider_lines (group_families ds)))).
    unfold text, kotlin_lines. rewrite !app_assoc. apply join_snoc_empty.
    unfold import_lines. by destruct (package_lines args).
Qed.

(** [X7] on two faces of one family and one of another between them. *)
Lemma bindings_lines_witness :
  filter (fun l => is_val_line l = true)
         (lines_of (join [newline] (kotlin_lines default_args three_descriptors)))
    = [ $"val NotoSans = StaticFontDescriptorProvider(";
        $"val Inter = StaticFontDescriptorProvider(" ]
  /\ length (lines_of (join [newline] (kotlin_lines default_args three_descriptors))) = 13.
Proof.
  assert (Hds : Forall one_line three_descriptors) by (repeat constructor).
  destruct (bindings_lines default_args three_descriptors eq_refl eq_refl Hds)
    as (_ & H1 & _ & _ & H2 & _).
  split; [exact H1 | exact H2].
Defined.

(** ** The names of the providers *)

Lemma runs_whole keep s :
  s <> [] -> forallb keep s = true -> runs keep s = [s].
Proof.
  induction s as [|c s IH]; [done|]. intros _ H. simpl in H.
  apply andb_prop in H as [Hc Hs]. cbn [runs]. rewrite Hc.
  destruct s as [|c' t]; [done|]. rewrite IH by done.
  simpl in Hs. apply andb_prop in Hs as [-> _]. done.
Qed.

(** [X8] The name of a provider is an identifier, whatever the family: it
    starts with a letter or an underscore and goes on with letters and
    digits only; the sanitation leaves it as it is, and so does the
    derivation itself, so a family and the name derived from it have the
    same provider name. *)
Theorem provider_name_valid (name : str) :
  (exists c s, to_pascal_case name = c :: s /\
     ascii_alpha c || is_char "_" c = true /\ forallb alnum_char s = true)
  /\ to_valid_identifier (to_pascal_case name) = to_pascal_case name
  /\ to_pascal_case (to_pascal_case name) = to_pascal_case name.
Proof.
  rewrite (to_pascal_case_runs name).
  pose proof (Runs_fragments _ _ _ (runs_Runs alnum_char name)) as Hfr.
  destruct (runs alnum_char name) as [|fr frs].
  { split; [by exists "_"%char, []|]. split; by vm_compute. }
  destruct (capitalized_fragments fr frs Hfr) as (c & rest & -> & Hc & Hrest).
  destruct (upper_char_alnum c Hc) as [Hu Huu].
  rewrite !to_valid_identifier_sanitized, sanitized_idem.
  rewrite (sanitized_alnum _ _ Hu Hrest).
  assert (Hout : runs alnum_char (upper_char c :: rest) = [upper_char c :: rest]).
  { apply runs_whole; [done|]. simpl. by rewrite Hu, Hrest. }
  destruct (ascii_alpha (upper_char c)) eqn:Ha.
  - split; [|split; [done|]].
    + exists (upper_char c), rest. by rewrite Ha.
    + rewrite to_pascal_case_runs, Hout. cbn [map concat capitalize app].
      rewrite Huu, app_nil_r, to_valid_identifier_sanitized.
      by rewrite (sanitized_alnum _ _ Hu Hrest), Ha.
  - split; [|split; [done|]].
    + exists "_"%char, (upper_char c :: rest). split; [done|]. split; [done|].
      simpl. by rewrite Hu, Hrest.
    + rewrite to_pascal_case_runs.
      assert (Hskip : runs alnum_char ("_"%char :: upper_char c :: rest)
                      = runs alnum_char (upper_char c :: rest)) by done.
      rewrite Hskip, Hout. cbn [map concat capitalize app].
      rewrite Huu, app_nil_r, to_valid_identifier_sanitized.
      by rewrite (sanitized_alnum _ _ Hu Hrest), Ha.
Qed.

(** ** One fetch for each usable face *)

Lemma face_plan_unusable env css face :
  usable face = false -> face_plan env css face = Ok None.
Proof.
  unfold usable, face_plan. by destruct (pick_url (face !! $"src")) as [[|c u]|].
Qed.

(** What the plan of a face holds. *)
Lemma face_plan_Some env css face p :
  face_plan env css face = Ok (Some p) ->
  usable face = true
  /\ resolves env css face (p_url p)
  /\ fetch_bytes env (p_url p) = Some (p_data p)
  /\ (exists ext, font_ext env (p_url p) = Ok ext /\
        p_filename p = resource_name_of (sha1_hex (p_data p)) ++ ext)
  /\ p_descriptor p = descriptor_of face (resource_name_of (sha1_hex (p_data p))).
Proof.
  unfold usable, face_plan, resolves.
  destruct (pick_url (face !! $"src")) as [[|c u]|] eqn:Hu; try done.
  destruct (urljoin env css (c :: u)) as [font_url|] eqn:Hj; [|done]. simpl.
  destruct (fetch_bytes env font_url) as [data|] eqn:Hf; [|done]. simpl.
  destruct (font_ext env font_url) as [e|ext] eqn:He; [done|]. simpl.
  intros [= <-]. cbn [p_url p_data p_filename p_descriptor].
  split; [done|]. split; [by exists (c :: u)|]. split; [done|].
  split; [by exists ext | done].
Qed.

Lemma face_plan_None env css face :
  face_plan env css face = Ok None -> usable face = false.
Proof.
  unfold usable, face_plan.
  destruct (pick_url (face !! $"src")) as [[|c u]|]; try done.
  destruct (urljoin env css (c :: u)) as [font_url|]; [|done]. simpl.
  destruct (fetch_bytes env font_url) as [data|]; [|done]. simpl.
  by destruct (font_ext env font_url).
Qed.

(** The plans of a run are those of its usable faces, in order. *)
Lemma plans_usable env css faces ps :
  plans env css faces = Ok ps ->
  Forall2 (fun face p => face_plan env css face = Ok (Some p))
          (filter (fun f => usable f = true) faces) ps.
Proof.
  revert ps. induction faces as [|face faces IH]; intros ps.
  - by intros [= <-].
  - cbn [plans]. destruct (face_plan env css face) as [e|p] eqn:Hp; [done|]. simpl.
    destruct (plans env css faces) as [e|ps'] eqn:Hps; [done|]. simpl.
    intros [= <-]. destruct p as [p|].
    + rewrite filter_cons_True by (by apply face_plan_Some in Hp as [? _]).
      constructor; [done | by apply IH].
    + rewrite filter_cons_False; [by apply IH|].
      apply face_plan_None in Hp. by rewrite Hp.
Qed.

(** [X9] In a run that succeeds, the stylesheet is fetched first and then
    one font for each usable face, in the order of the stylesheet and with
    no memory of earlier fetches: the URL of a face is fetched again when
    another face had it before.  Each usable face gives one descriptor, made
    of its properties and the name of the hash of the bytes fetched for it,
    and the count of the summary is the number of usable faces. *)
Theorem one_fetch_per_usable_face (env : Env) (args : Args) (fs : gmap str bytes)
    (o : Outcome) (css_text : str) :
  main env args fs = Ok o ->
  fetch_text env (css_url args) = Some css_text ->
  let faces := filter (fun f => usable f = true) (parse_font_faces css_text) in
  exists urls datas,
    requests (final o) = css_url args :: urls
    /\ Forall2 (resolves env (css_url args)) faces urls
    /\ Forall2 (fun u data => fetch_bytes env u = Some data) urls datas
    /\ descriptors (final o) =
         zip_with (fun face data => descriptor_of face (resource_name_of (sha1_hex data)))
                  faces datas
    /\ downloaded o = length faces.
Proof.
  intros Hmain Hcss faces.
  apply main_plans in Hmain as (css' & ps & Hcss' & Hps & ->).
  rewrite Hcss in Hcss'. injection Hcss' as <-.
  cbn [final downloaded]. rewrite run_requests, run_descriptors.
  cbn [initial_state requests descriptors app].
  apply plans_usable in Hps. fold faces in Hps.
  exists (map p_url ps), (map p_data ps).
  split; [done|].
  induction Hps as [|face p faces' ps' Hp _ (IH1 & IH2 & IH3 & IH4)]; [done|].
  apply face_plan_Some in Hp as (_ & Hr & Hf & _ & Hd).
  cbn [map zip_with length]. rewrite Hd, IH4, IH3.
  repeat split; try done; by constructor.
Qed.

(** [X9] on the sample: three fetches of fonts for four faces. *)
Lemma one_fetch_per_usable_face_witness :
  exists o,
    main sample default_args ∅ = Ok o /\
    requests (final o) =
      [ $"https://example.com/fonts.css";
        $"https://fonts.example/roboto-400.woff2";
        $"https://fonts.example/roboto-700i.woff2";
        $"https://mirror.example/mono/r400.woff2?v=3" ] /\
    downloaded o = 3.
Proof.
  destruct sample_run_ok as [o Hm]. exists o. split; [exact Hm|].
  destruct (one_fetch_per_usable_face sample default_args ∅ o sample_css Hm eq_refl)
    as (urls & datas & Hreq & Hres & _ & _ & Hn).
  assert (Hfaces : filter (fun f => usable f = true) (parse_font_faces sample_css)
                   = [sample_face 0; sample_face 1; sample_face 3]).
  { unfold sample_face.
    assert (H0 : map usable (parse_font_faces sample_css) = [true; true; false; true])
      by (vm_compute; reflexivity).
    destruct (parse_font_faces sample_css) as [|f0 [|f1 [|f2 [|f3 [|f4 l]]]]]; try done.
    cbn [map] in H0. injection H0 as H0 H1 H2 H3.
    rewrite filter_cons_True, filter_cons_True, filter_cons_False, filter_cons_True;
      [done | done | by rewrite H2 | done | done]. }
  rewrite Hfaces in Hres, Hn. split; [|exact Hn].
  rewrite Hreq. f_equal.
  apply Forall2_cons_inv_l in Hres as (u0 & r0 & (x0 & Hx0 & _ & Hj0) & Hres & ->).
  apply Forall2_cons_inv_l in Hres as (u1 & r1 & (x1 & Hx1 & _ & Hj1) & Hres & ->).
  apply Forall2_cons_inv_l in Hres as (u3 & r3 & (x3 & Hx3 & _ & Hj3) & Hres & ->).
  apply Forall2_nil_inv_l in Hres as ->.
  cbn [sample sample_env urljoin] in Hj0, Hj1, Hj3.
  injection Hj0 as <-. injection Hj1 as <-. injection Hj3 as <-.
  assert (E0 : pick_url (sample_face 0 !! $"src") = Some $"https://fonts.example/roboto-400.woff2")
    by (vm_compute; reflexivity).
  assert (E1 : pick_url (sample_face 1 !! $"src") = Some $"https://fonts.example/roboto-700i.woff2")
    by (vm_compute; reflexivity).
  assert (E3 : pick_url (sample_face 3 !! $"src") = Some $"https://mirror.example/mono/r400.woff2?v=3")
    by (vm_compute; reflexivity).
  rewrite E0 in Hx0. rewrite E1 in Hx1. rewrite E3 in Hx3.
  injection Hx0 as <-. injection Hx1 as <-. injection Hx3 as <-. reflexivity.
Defined.

(** ** The files a run writes *)

(** The writes of the loop: new names, each once, and the directory after
    the loop is the one before with the written files added. *)
Lemma run_writes ps st :
  exists W,
    written (run ps st) = written st ++ W
    /\ files (run ps st) = files st ∪ list_to_map W
    /\ NoDup (map fst W)
    /\ (forall n, n ∈ map fst W -> files st !! n = None)
    /\ Forall (fun w => exists p, p ∈ ps /\ w = (p_filename p, p_data p)) W.
Proof.
  revert st. induction ps as [|p ps IH]; intros st.
  { exists []. cbn [run fold_left map].
    rewrite app_nil_r, list_to_map_nil, map_union_empty.
    repeat split; try done; [constructor|].
    intros n H. by apply elem_of_nil in H. }
  rewrite run_cons. destruct (IH (apply_plan st p)) as (W & Hw & Hf & Hnd & Hnew & Hall).
  assert (Hall' : Forall (fun w => exists q, q ∈ p :: ps /\ w = (p_filename q, p_data q)) W).
  { eapply Forall_impl; [exact Hall|]. intros w (q & Hq & ->). exists q.
    split; [|done]. apply elem_of_cons. by right. }
  destruct (files st !! p_filename p) as [old|] eqn:E.
  - destruct (apply_plan_present _ _ _ E) as [Ef Ew]. rewrite Ef in Hf, Hnew. rewrite Ew in Hw.
    by exists W.
  - destruct (apply_plan_absent _ _ E) as [Ef Ew]. rewrite Ef in Hf, Hnew. rewrite Ew in Hw.
    exists ((p_filename p, p_data p) :: W).
    assert (Hfresh : p_filename p ∉ map fst W).
    { intros Hin. apply Hnew in Hin. by rewrite lookup_insert_eq in Hin. }
    split; [by rewrite Hw, <- app_assoc|].
    split.
    { rewrite Hf. cbn [list_to_map fst snd].
      rewrite <- insert_union_l. by apply insert_union_r. }
    split; [cbn [map fst]; by constructor|].
    split.
    { intros n Hn. cbn [map fst] in Hn. apply elem_of_cons in Hn as [->|Hn]; [done|].
      specialize (Hnew n Hn). destruct (decide (p_filename p = n)) as [<-|Hne].
      - by rewrite lookup_insert_eq in Hnew.
      - by rewrite lookup_insert_ne in Hnew. }
    constructor; [|done]. exists p. split; [|done]. apply elem_of_cons. by left.
Qed.

Lemma plans_elem env css faces ps p :
  plans env css faces = Ok ps -> p ∈ ps ->
  exists face, face ∈ faces /\ face_plan env css face = Ok (Some p).
Proof.
  intros Hps Hp. apply plans_usable in Hps.
  apply list_elem_of_lookup in Hp as [i Hi].
  destruct (Forall2_lookup_r _ _ _ _ _ Hps Hi) as (face & Hface & Hplan).
  exists face. split; [|done].
  apply list_elem_of_lookup_2 in Hface. by apply list_elem_of_filter in Hface as [_ ?].
Qed.

(** [X10] The files of a run that succeeds: no file name is written twice;
    the output directory after the run is the one before it with the written
    files added; and a written file did not exist, holds the bytes fetched
    from the URL that a face of the stylesheet resolves to, and has the name
    of the hash of those bytes followed by the extension of that URL. *)
Theorem written_files (env : Env) (args : Args) (fs : gmap str bytes) (o : Outcome)
    (css_text : str) :
  main env args fs = Ok o ->
  fetch_text env (css_url args) = Some css_text ->
  NoDup (map fst (written (final o)))
  /\ files (final o) = fs ∪ list_to_map (written (final o))
  /\ forall n data, (n, data) ∈ written (final o) ->
       fs !! n = None
       /\ files (final o) !! n = Some data
       /\ exists face font_url ext,
            face ∈ parse_font_faces css_text /\
            usable face = true /\
            resolves env (css_url args) face font_url /\
            fetch_bytes env font_url = Some data /\
            font_ext env font_url = Ok ext /\
            n = resource_name_of (sha1_hex data) ++ ext.
Proof.
  intros H Hcss. apply main_plans in H as (css' & ps & Hcss' & Hps & ->).
  rewrite Hcss in Hcss'. injection Hcss' as <-.
  cbn [final].
  destruct (run_writes ps (initial_state args fs)) as (W & Hw & Hf & Hnd & Hnew & Hall).
  cbn [initial_state written files app] in Hw, Hf, Hnew.
  rewrite Hw, Hf. split; [done|]. split; [done|].
  intros n data Hin.
  assert (Hn : fs !! n = None).
  { apply Hnew. apply list_elem_of_fmap. by exists (n, data). }
  split; [done|]. split.
  { rewrite lookup_union_r by done. by apply elem_of_list_to_map. }
  rewrite Forall_forall in Hall. destruct (Hall _ Hin) as (p & Hp & [= -> ->]).
  destruct (plans_elem _ _ _ _ _ Hps Hp) as (face & Hface & Hplan).
  apply face_plan_Some in Hplan as (Hu & Hres & Hfetch & (ext & Hext & Hname) & _).
  by exists face, (p_url p), ext.
Qed.

(** [X10] on the two faces with the same bytes and two extensions. *)
Lemma written_files_witness :
  exists o,
    main twin default_args ∅ = Ok o /\
    NoDup (map fst (written (final o))) /\
    files (final o) = ∅ ∪ list_to_map (written (final o)).
Proof.
  destruct (main_outcome twin default_args ∅ (fun _ => True)) as (o & Hm & _);
    [by vm_compute|].
  exists o. split; [exact Hm|].
  destruct (written_files twin default_args ∅ o twin_css Hm eq_refl) as (H1 & H2 & _).
  split; [exact H1 | exact H2].
Defined.

(** ** Runs that fail *)

Lemma face_plan_Raise env css face e :
  face_plan env css face = Raise e <-> face_fails env css face e.
Proof.
  unfold face_plan, face_fails.
  destruct (pick_url (face !! $"src")) as [[|c u]|].
  - split; [done|]. by intros (u & [= <-] & Hne & _).
  - split.
    + intros H. exists (c :: u). split; [done|]. split; [done|].
      destruct (urljoin env css (c :: u)) as [font_url|]; [|by injection H as <-].
      simpl in H. destruct (fetch_bytes env font_url) as [data|]; [|by injection H as <-].
      simpl in H. rewrite font_ext_unfold in H.
      destruct (urlparse_path (netloc_valid env) font_url); [done|]. by injection H as <-.
    + intros (u' & [= <-] & _ & H).
      destruct (urljoin env css (c :: u)) as [font_url|]; [|by subst e].
      simpl. destruct (fetch_bytes env font_url) as [data|]; [|by subst e].
      simpl. rewrite font_ext_unfold. by destruct H as [-> ->].
  - split; [done|]. by intros (u & [=] & _).
Qed.

(** The exception of the loop is the one of its first face that fails. *)
Lemma plans_Raise env css faces e :
  plans env css faces = Raise e <->
  exists before face after,
    faces = before ++ face :: after /\
    Forall (fun f => forall e', ~ face_fails env css f e') before /\
    face_fails env css face e.
Proof.
  induction faces as [|face faces IH]; cbn [plans].
  - split; [done|]. intros (before & f & after & E & _). by destruct before.
  - destruct (face_plan env css face) as [e0|p] eqn:Hp.
    + split.
      * intros [= <-]. exists [], face, faces. split; [done|]. split; [done|].
        by apply face_plan_Raise.
      * intros (before & f & after & E & Hb & Hf). destruct before as [|f0 before].
        -- injection E as <- <-. apply face_plan_Raise in Hf.
           rewrite Hp in Hf. by injection Hf as <-.
        -- injection E as <- _. apply Forall_cons in Hb as [Hb _].
           exfalso. apply (Hb e0). by apply face_plan_Raise.
    + assert (Hok : forall e', ~ face_fails env css face e').
      { intros e' He'. apply face_plan_Raise in He'. by rewrite Hp in He'. }
      simpl. destruct (plans env css faces) as [e1|ps] eqn:Hps; simpl.
      * split.
        -- intros [= <-]. destruct (proj1 IH eq_refl) as (before & f & after & -> & Hb & Hf).
           exists (face :: before), f, after. split; [done|]. split; [by constructor | done].
        -- intros (before & f & after & E & Hb & Hf). destruct before as [|f0 before].
           ++ injection E as <- <-. by apply Hok in Hf.
           ++ injection E as <- ->. apply Forall_cons in Hb as [_ Hb].
              apply IH. by exists before, f, after.
      * split; [done|].
        intros (before & f & after & E & Hb & Hf). destruct before as [|f0 before].
        -- injection E as <- <-. by apply Hok in Hf.
        -- injection E as <- ->. apply Forall_cons in Hb as [_ Hb].
           assert (H : inr ps = Raise e :> result (list Plan)); [|done].
           apply IH. by exists before, f, after.
Qed.

(** [X11] A run fails in two ways only.  It raises the error of the fetch
    of the stylesheet when that fetch fails.  Otherwise it raises the
    exception of the first face, in the order of the stylesheet, that has a
    usable URL and fails: a [ValueError] when the URL does not resolve, the
    error of the fetch of the font, or a [ValueError] for the path of the
    URL after the font was fetched.  The faces after that one are not looked
    at, and the files of the output directory play no part. *)
Theorem main_failure (env : Env) (args : Args) (fs : gmap str bytes) (e : exn) :
  main env args fs = Raise e <->
  (fetch_text env (css_url args) = None /\ e = URLError (css_url args))
  \/ exists css_text before face after,
       fetch_text env (css_url args) = Some css_text /\
       parse_font_faces css_text = before ++ face :: after /\
       Forall (fun f => forall e', ~ face_fails env (css_url args) f e') before /\
       face_fails env (css_url args) face e.
Proof.
  unfold main. destruct (fetch_text env (css_url args)) as [css_text|]; simpl.
  - rewrite process_faces_plans.
    destruct (plans env (css_url args) (parse_font_faces css_text)) as [e0|ps] eqn:Hps; simpl.
    + split.
      * intros [= <-]. right. apply plans_Raise in Hps as (before & face & after & E & Hb & Hf).
        by exists css_text, before, face, after.
      * intros [[? _] | (css' & before & face & after & [= <-] & E & Hb & Hf)]; [done|].
        assert (H : plans env (css_url args) (parse_font_faces css_text) = Raise e).
        { apply plans_Raise. by exists before, face, after. }
        rewrite Hps in H. by injection H as <-.
    + split; [done|].
      intros [[? _] | (css' & before & face & after & [= <-] & E & Hb & Hf)]; [done|].
      assert (H : plans env (css_url args) (parse_font_faces css_text) = Raise e).
      { apply plans_Raise. by exists before, face, after. }
      by rewrite Hps in H.
  - split.
    + intros [= <-]. by left.
    + intros [[_ ->] | (css' & before & face & after & [=] & _)]. done.
Qed.

(** [X12] The files of the output directory decide which files a run writes
    and nothing else: on any two directories a run fails with the same
    exception or succeeds with the same fetches, the same descriptors, the
    same bindings text and the same count. *)
Theorem directory_only_written (env : Env) (args : Args) (fs fs' : gmap str bytes) :
  (forall e, main env args fs = Raise e -> main env args fs' = Raise e)
  /\ (forall o, main env args fs = Ok o ->
        exists o', main env args fs' = Ok o'
          /\ requests (final o') = requests (final o)
          /\ descriptors (final o') = descriptors (final o)
          /\ kotlin_text o' = kotlin_text o
          /\ downloaded o' = downloaded o).
Proof.
  unfold main. destruct (fetch_text env (css_url args)) as [css_text|]; simpl; [|done].
  rewrite !process_faces_plans.
  destruct (plans env (css_url args) (parse_font_faces css_text)) as [e0|ps]; simpl; [done|].
  split; [done|]. intros o [= <-]. eexists. split; [done|].
  cbn [final kotlin_text downloaded]. rewrite !run_requests, !run_descriptors. done.
Qed.

(** ** What the cleaning of a value removes *)

Lemma part_of_length r s : part_of r s -> length r <= length s.
Proof. intros (a & b & ->). rewrite !length_app. lia. Qed.

Lemma clean_value_strip v : clean_value (strip v) = clean_value v.
Proof. unfold clean_value. by rewrite strip_idem. Qed.

(** The three cases of the helper on the stripped value. *)
Lemma clean_value_trichotomy v :
  clean_value v = strip v
  \/ (exists q, is_quote q /\ strip v = q :: clean_value v ++ [q])
  \/ (exists q, is_quote q /\ strip v = [q] /\ clean_value v = []).
Proof.
  unfold clean_value.
  destruct (str_ends (strip v)) as [E | [[q E] | (q & m & q' & E)]]; rewrite E.
  - by left.
  - cbn [startswith]. unfold endswith. cbn [last].
    destruct (is_char dquote q) eqn:E1.
    { apply is_char_eq in E1. right. right. exists q. rewrite slice_single.
      split; [by left | done]. }
    destruct (is_char squote q) eqn:E2.
    { apply is_char_eq in E2. right. right. exists q. rewrite slice_single.
      split; [by right | done]. }
    by left.
  - cbn [startswith]. rewrite !endswith_cons_snoc, slice_inner.
    destruct (is_char dquote q) eqn:E1, (is_char dquote q') eqn:E1'; cbn [andb orb];
      try (apply is_char_eq in E1); try (apply is_char_eq in E1').
    + right. left. exists q. split; [by left | by subst].
    + destruct (is_char squote q) eqn:E2; [|by left].
      apply is_char_eq in E2. subst. discriminate.
    + destruct (is_char squote q) eqn:E2, (is_char squote q') eqn:E2'; cbn [andb];
        try (apply is_char_eq in E2); try (apply is_char_eq in E2'); try by left.
      right. left. exists q. split; [by right | by subst].
    + destruct (is_char squote q) eqn:E2, (is_char squote q') eqn:E2'; cbn [andb];
        try (apply is_char_eq in E2); try (apply is_char_eq in E2'); try by left.
      right. left. exists q. split; [by right | by subst].
Qed.

Lemma clean_value_one_quote v q :
  is_quote q -> strip v = [q] -> clean_value v = [].
Proof.
  intros Hq E. unfold clean_value. rewrite E. cbn [startswith]. unfold endswith.
  cbn [last]. by destruct Hq as [-> | ->].
Qed.

(** [X13] What the cleaning of a value removes: the white space around the
    value and then nothing, or the two quotes of the same kind that enclose
    what is left, or a quote that is all that is left.  The result is a part
    of the value, and it is empty exactly when the stripped value is empty,
    a lone quote or two quotes of the same kind. *)
Theorem clean_value_cases (v : str) :
  clean_value (strip v) = clean_value v
  /\ part_of (clean_value v) v
  /\ length (clean_value v) <= length v
  /\ (clean_value v = strip v
      \/ (exists q, is_quote q /\ strip v = q :: clean_value v ++ [q])
      \/ (exists q, is_quote q /\ strip v = [q] /\ clean_value v = []))
  /\ (clean_value v = [] <->
      strip v = [] \/ exists q, is_quote q /\ (strip v = [q] \/ strip v = [q; q])).
Proof.
  split; [apply clean_value_strip|].
  split; [apply clean_value_part_of|].
  split; [apply part_of_length, clean_value_part_of|].
  split; [apply clean_value_trichotomy|].
  split.
  - intros E. destruct (clean_value_trichotomy v) as [H | [(q & Hq & H) | (q & Hq & H & _)]].
    + left. by rewrite <- H.
    + right. exists q. split; [done|]. right. by rewrite E in H.
    + right. exists q. split; [done|]. by left.
  - intros [E | (q & Hq & [E | E])].
    + destruct (clean_value_trichotomy v) as [H | [(q & Hq & H) | (q & Hq & H & _)]];
        [by rewrite H | by rewrite E in H | by rewrite E in H].
    + by apply (clean_value_one_quote v q).
    + by apply (clean_value_quoted v q []).
Qed.

(** ** The faces the loop skips *)

Lemma usable_Urls face :
  usable face = true <->
  exists v inner rest,
    face !! $"src" = Some v /\ Urls v (inner :: rest) /\ clean_value inner <> [].
Proof.
  unfold usable, pick_url. split.
  - destruct (face !! $"src") as [[|c s]|] eqn:Hsrc; try done. cbn [falsy].
    change (default [] (Some (c :: s))) with (c :: s).
    pose proof (findall1_Urls (c :: s)) as HU.
    destruct (findall1 URL_RE (c :: s)) as [|inner rest]; [done|].
    intros H. exists (c :: s), inner, rest. split; [done|]. split; [done|].
    by destruct (clean_value inner).
  - intros (v & inner & rest & -> & HU & Hne).
    assert (Hv : v <> []).
    { intros ->. inversion HU as [|pre b x r xs Hat _ _ E].
      apply app_eq_nil in E as [-> ->]. destruct Hat as (k & Hk & _).
      by destruct k, inner. }
    apply Urls_findall1 in HU. destruct v as [|c s]; [done|]. cbn [falsy].
    change (default [] (Some (c :: s))) with (c :: s). rewrite HU.
    by destruct (clean_value inner).
Qed.

(** [X14] The faces the loop skips are the faces that are not usable, and
    no others: the body of the loop returns the state it was given exactly
    when the [src] of the face has no occurrence of [url(...)] whose content
    is left with something once cleaned.  This includes a face whose first
    [url(...)] holds white space or an empty pair of quotes only, whatever
    comes after it.  A usable face adds a fetch and a descriptor, or ends the
    run. *)
Theorem skipped_iff_unusable (env : Env) (css_url : str) (face : gmap str str)
    (st : State) :
  (process_face env css_url face st = Ok st <-> usable face = false)
  /\ (usable face = true <->
      exists v inner rest,
        face !! $"src" = Some v /\ Urls v (inner :: rest) /\ clean_value inner <> [])
  /\ (forall st', usable face = true -> process_face env css_url face st = Ok st' ->
        length (requests st') = S (length (requests st))
        /\ length (descriptors st') = S (length (descriptors st))).
Proof.
  assert (Hgrow : forall st', usable face = true ->
            process_face env css_url face st = Ok st' ->
            length (requests st') = S (length (requests st))
            /\ length (descriptors st') = S (length (descriptors st))).
  { intros st' Hu. rewrite process_face_plan.
    destruct (face_plan env css_url face) as [e|[p|]] eqn:Hp; simpl; [done| |].
    - intros [= <-].
      pose proof (run_requests [p] st) as Hr. pose proof (run_descriptors [p] st) as Hd.
      cbn [run fold_left map] in Hr, Hd. rewrite Hr, Hd, !length_app. simpl. lia.
    - apply face_plan_None in Hp. congruence. }
  split; [|split; [apply usable_Urls | exact Hgrow]].
  split.
  - intros H. destruct (usable face) eqn:Hu; [|done].
    destruct (Hgrow st eq_refl H) as [Hr _]. lia.
  - intros Hu. rewrite process_face_plan, (face_plan_unusable _ _ _ Hu). done.
Qed.

(** ** Providers of the same name *)

Lemma provider_lines_header fam :
  provider_header (fst fam) ∈ provider_lines fam.
Proof. unfold provider_lines, provider_header. apply elem_of_cons. by left. Qed.

(** Each group whose family has the name adds a line with the header. *)
Lemma headers_count (line : str) (fams : list (str * list Descriptor)) :
  length (filter (fun fam => provider_header (fst fam) = line) fams)
  <= length (filter (fun l => l = line) (concat (map provider_lines fams))).
Proof.
  induction fams as [|fam fams IH]; [done|].
  cbn [map concat]. rewrite filter_app, length_app.
  destruct (decide (provider_header (fst fam) = line)) as [E|E].
  - rewrite filter_cons_True by done. cbn [length].
    assert (0 < length (filter (fun l => l = line) (provider_lines fam))); [|lia].
    unfold provider_lines. fold (provider_header (fst fam)). cbn [app].
    rewrite filter_cons_True by done. simpl. lia.
  - rewrite filter_cons_False by done. lia.
Qed.

(** [X15] The names of the providers are not kept apart.  Two families that
    differ and have the same derived name, such as a family and the name
    derived from it, or two spellings that differ in their separators, get
    two declarations that open with the same line: the bindings file then
    declares one name twice. *)
Theorem provider_names_collide (args : Args) (ds : list Descriptor) (k1 k2 : str) :
  k1 ∈ map family ds -> k2 ∈ map family ds -> k1 <> k2 ->
  to_pascal_case k1 = to_pascal_case k2 ->
  2 <= length (filter (fun l => l = provider_header k1) (kotlin_lines args ds)).
Proof.
  intros H1 H2 Hne Heq.
  assert (Hh : provider_header k2 = provider_header k1).
  { unfold provider_header. by rewrite Heq. }
  unfold kotlin_lines. rewrite !filter_app, !length_app.
  pose proof (headers_count (provider_header k1) (group_families ds)) as Hc.
  assert (Hk : 2 <= length (filter (fun fam => provider_header (fst fam) = provider_header k1)
                              (group_families ds))); [|lia].
  rewrite group_families_first_seen.
  assert (Hsub : [(k1, of_family k1 ds); (k2, of_family k2 ds)] ⊆+
                 filter (fun fam => provider_header (fst fam) = provider_header k1)
                   (map (fun k => (k, of_family k ds)) (first_seen (map family ds)))).
  { apply NoDup_submseteq.
    - apply NoDup_cons. split; [|apply NoDup_singleton].
      rewrite list_elem_of_singleton. intros [= E _]. done.
    - intros fam Hfam. apply list_elem_of_filter.
      apply elem_of_cons in Hfam as [->|Hfam]; [|apply list_elem_of_singleton in Hfam as ->].
      + split; [done|]. apply list_elem_of_fmap. exists k1. split; [done|].
        by apply first_seen_elem.
      + split; [done|]. apply list_elem_of_fmap. exists k2. split; [done|].
        by apply first_seen_elem. }
  apply submseteq_length in Hsub. simpl in Hsub. lia.
Qed.

(** [X15] on two spellings of one family. *)
Lemma provider_names_collide_witness :
  2 <= length (filter (fun l => l = $"val OpenSans = StaticFontDescriptorProvider(")
                 (kotlin_lines default_args
                    [ descriptor_of {[ $"font-family" := $"Open Sans" ]} $"_a";
                      descriptor_of {[ $"font-family" := $"open-sans" ]} $"_b" ])).
Proof.
  apply (provider_names_collide default_args _ $"Open Sans" $"open-sans").
  - vm_compute. apply list_elem_of_here.
  - vm_compute. apply list_elem_of_further, list_elem_of_here.
  - discriminate.
  - vm_compute. reflexivity.
Defined.

(** ** Text after the last terminator *)

(** A text followed by a tail without [x] is cut at an [x]: the cut is in
    the text. *)
Lemma cut_before_tail x s tail u r :
  without x tail -> s ++ tail = u ++ x :: r ->
  exists r0, r = r0 ++ tail /\ s = u ++ x :: r0.
Proof.
  intros Ht E. apply app_eq_app in E as [l [[-> E] | [-> E]]].
  - destruct l as [|c l].
    + simpl in E. subst tail. apply without_cons in Ht as [Hx _]. done.
    + injection E as -> ->. exists l. by rewrite app_nil_r || done.
  - exfalso. rewrite E in Ht. apply without_app in Ht as [_ Ht].
    apply without_cons in Ht as [Hx _]. done.
Qed.

(** The occurrences of a text are those of the text followed by a tail,
    when an occurrence holds a character that the tail does not have. *)
Lemma Leftmost_tail {A} (at_ : str -> A -> str -> Prop) s l tail :
  (forall b x rest, at_ b x rest -> at_ (b ++ tail) x (rest ++ tail)) ->
  (forall b x rest, at_ (b ++ tail) x rest -> exists rest0, at_ b x rest0) ->
  (forall t1 b x rest, tail = t1 ++ b -> ~ at_ b x rest) ->
  Leftmost at_ s l -> Leftmost at_ (s ++ tail) l.
Proof.
  intros Hext Hres Hin H. induction H as [s Hno | pre b x rest xs Hat Hno _ IH].
  - apply Leftmost_end. intros a b' E x rest Hb'.
    apply app_eq_app in E as [m [[-> E] | [-> E]]].
    + by apply (Hin m b' x rest).
    + subst b'. destruct (Hres _ _ _ Hb') as [rest0 H0]. by apply (Hno a m eq_refl x rest0).
  - rewrite <- app_assoc.
    apply (Leftmost_cons at_ pre (b ++ tail) x (rest ++ tail) xs); [by apply Hext | | done].
    intros a1 a2 E Hne x' rest' Hocc. rewrite app_assoc in Hocc.
    destruct (Hres _ _ _ Hocc) as [rest0 H0]. by apply (Hno a1 a2 E Hne x' rest0).
Qed.

Lemma face_at_tail b body rest tail :
  face_at b body rest -> face_at (b ++ tail) body (rest ++ tail).
Proof.
  intros (kw & ws & -> & H). exists kw, ws. split; [|done].
  rewrite <- ?app_assoc. cbn [app]. by rewrite <- ?app_assoc.
Qed.

Lemma face_at_cut b body rest tail :
  without "}" tail -> face_at (b ++ tail) body rest -> exists rest0, face_at b body rest0.
Proof.
  intros Ht (kw & ws & E & H).
  replace (kw ++ ws ++ "{"%char :: body ++ "}"%char :: rest)
    with ((kw ++ ws ++ "{"%char :: body) ++ "}"%char :: rest) in E
    by (rewrite <- ?app_assoc; cbn [app]; by rewrite <- ?app_assoc).
  destruct (cut_before_tail _ _ _ _ _ Ht E) as (r0 & -> & ->).
  exists r0, kw, ws. split; [|done].
  rewrite <- ?app_assoc. cbn [app]. by rewrite <- ?app_assoc.
Qed.

Lemma face_at_has_brace b body rest : face_at b body rest -> ~ without "}" b.
Proof.
  intros (kw & ws & -> & _) H.
  apply without_app in H as [_ H]. apply without_app in H as [_ H].
  apply without_cons in H as [_ H]. apply without_app in H as [_ H].
  apply without_cons in H as [H _]. done.
Qed.

Lemma prop_at_tail b nv rest tail :
  prop_at b nv rest -> prop_at (b ++ tail) nv (rest ++ tail).
Proof.
  intros (ws1 & ws2 & -> & H). exists ws1, ws2. split; [|done].
  rewrite <- ?app_assoc. cbn [app]. by rewrite <- ?app_assoc.
Qed.

Lemma prop_at_cut b nv rest tail :
  without ";" tail -> prop_at (b ++ tail) nv rest -> exists rest0, prop_at b nv rest0.
Proof.
  intros Ht (ws1 & ws2 & E & H).
  replace (fst nv ++ ws1 ++ ":"%char :: ws2 ++ snd nv ++ ";"%char :: rest)
    with ((fst nv ++ ws1 ++ ":"%char :: ws2 ++ snd nv) ++ ";"%char :: rest) in E
    by (rewrite <- ?app_assoc; cbn [app]; by rewrite <- ?app_assoc).
  destruct (cut_before_tail _ _ _ _ _ Ht E) as (r0 & -> & ->).
  exists r0, ws1, ws2. split; [|done].
  rewrite <- ?app_assoc. cbn [app]. by rewrite <- ?app_assoc.
Qed.

Lemma prop_at_has_semi b nv rest : prop_at b nv rest -> ~ without ";" b.
Proof.
  intros (ws1 & ws2 & -> & _) H.
  apply without_app in H as [_ H]. apply without_app in H as [_ H].
  apply without_cons in H as [_ H]. apply without_app in H as [_ H].
  apply without_app in H as [_ H]. apply without_cons in H as [H _]. done.
Qed.

Lemma findall1_tail css tail :
  without "}" tail ->
  findall1 FONT_FACE_RE (css ++ tail) = findall1 FONT_FACE_RE css.
Proof.
  intros Ht. apply Blocks_findall1. apply Leftmost_tail; [| | |apply findall1_Blocks].
  - intros b x rest. apply face_at_tail.
  - intros b x rest. by apply face_at_cut.
  - intros t1 b x rest -> Hb. apply without_app in Ht as [_ Ht].
    by apply (face_at_has_brace _ _ _ Hb).
Qed.

Lemma findall2_tail block tail :
  without ";" tail ->
  findall2 PROP_RE (block ++ tail) = findall2 PROP_RE block.
Proof.
  intros Ht. apply Props_findall2. apply Leftmost_tail; [| | |apply findall2_Props].
  - intros b x rest. apply prop_at_tail.
  - intros b x rest. by apply prop_at_cut.
  - intros t1 b x rest -> Hb. apply without_app in Ht as [_ Ht].
    by apply (prop_at_has_semi _ _ _ Hb).
Qed.

(** [X16] What follows the last terminator is not read.  A text after the
    last closing brace of a stylesheet adds no face, so a block that is not
    closed is lost; and a text after the last semicolon of a block adds no
    property, so the last declaration of a block is lost when it does not
    end with a semicolon, and with it the URL of the face when that
    declaration is [src]. *)
Theorem unterminated_tail_ignored :
  (forall css tail, without "}" tail ->
      parse_font_faces (css ++ tail) = parse_font_faces css)
  /\ (forall block tail, without ";" tail ->
        parse_props (block ++ tail) = parse_props block)
  /\ (forall block tail, without ";" tail ->
        parse_props block !! $"src" = None ->
        usable (parse_props (block ++ tail)) = false)
  /\ parse_font_faces $"@font-face { font-family: A; src: url(a.woff2) }"
       = [ {[ $"font-family" := $"A" ]} ].
Proof.
  split; [|split; [|split]].
  - intros css tail Ht. unfold parse_font_faces. by rewrite findall1_tail.
  - intros block tail Ht. unfold parse_props. by rewrite findall2_tail.
  - intros block tail Ht Hsrc. unfold parse_props. rewrite findall2_tail by done.
    fold (parse_props block). unfold usable. by rewrite Hsrc.
  - vm_compute. reflexivity.
Qed.

(** ** Where the texts of a descriptor come from *)

(** A value of a face is a text of the stylesheet. *)
Lemma parsed_value_part_of css face k v :
  face ∈ parse_font_faces css -> face !! k = Some v -> part_of v css.
Proof.
  intros Hf Hk. unfold parse_font_faces in Hf.
  apply list_elem_of_fmap in Hf as (body & -> & Hbody).
  pose proof (findall1_bodies css) as Hb. rewrite Forall_forall in Hb.
  destruct (Hb body Hbody) as [Hpart _].
  apply parse_props_Some in Hk as (nv & Hnv & _ & ->).
  pose proof (findall2_values body) as Hv. rewrite Forall_forall in Hv.
  destruct (Hv nv Hnv) as (_ & _ & Hvp & _).
  eapply part_of_trans; [apply strip_part_of|]. by eapply part_of_trans.
Qed.

Lemma plans_faces env css faces ps :
  plans env css faces = Ok ps ->
  Forall (fun p => exists face rn, face ∈ faces /\ p_descriptor p = descriptor_of face rn) ps.
Proof.
  intros Hps. apply Forall_forall. intros p Hp.
  destruct (plans_elem _ _ _ _ _ Hps Hp) as (face & Hface & Hplan).
  apply face_plan_Some in Hplan as (_ & _ & _ & _ & Hd).
  by exists face, (resource_name_of (sha1_hex (p_data p))).
Qed.

(** [X17] The texts of a descriptor are read off the stylesheet and nothing
    is added to them: in a run that succeeds, the family of a descriptor is
    a text of the stylesheet, or [Unknown] when the face names no family;
    its unicode ranges are a text of the stylesheet, or empty; and its
    weight and its style are a text of the stylesheet in lower case, or
    [normal]. *)
Theorem descriptor_provenance (env : Env) (args : Args) (fs : gmap str bytes)
    (o : Outcome) (css_text : str) (d : Descriptor) :
  main env args fs = Ok o ->
  fetch_text env (css_url args) = Some css_text ->
  d ∈ descriptors (final o) ->
  (family d = $"Unknown" \/ part_of (family d) css_text)
  /\ (ranges d = [] \/ part_of (ranges d) css_text)
  /\ (weight d = $"normal" \/ exists w, part_of w css_text /\ weight d = lower w)
  /\ (style d = $"normal" \/ exists s, part_of s css_text /\ style d = lower s).
Proof.
  intros Hmain Hcss Hd.
  apply main_plans in Hmain as (css' & ps & Hcss' & Hps & ->).
  rewrite Hcss in Hcss'. injection Hcss' as <-.
  cbn [final] in Hd. rewrite run_descriptors in Hd. cbn [initial_state descriptors app] in Hd.
  apply list_elem_of_fmap in Hd as (p & -> & Hp).
  pose proof (plans_faces _ _ _ _ Hps) as Hall. rewrite Forall_forall in Hall.
  destruct (Hall p Hp) as (face & rn & Hface & ->).
  cbn [descriptor_of family ranges weight style].
  assert (Hv : forall k v, face !! k = Some v -> part_of v css_text).
  { intros k v. by apply parsed_value_part_of. }
  assert (Hlow : forall k,
            parse_weight (face !! k) = $"normal"
            \/ exists w, part_of w css_text /\ parse_weight (face !! k) = lower w).
  { intros k. unfold parse_weight. destruct (face !! k) as [[|c v]|] eqn:E; [by left | | by left].
    right. cbn [falsy default]. eexists. split; [|done].
    eapply part_of_trans; [apply strip_part_of|].
    eapply part_of_trans; [apply clean_value_part_of | by apply (Hv k)]. }
  split; [|split; [|split]].
  - destruct (face !! $"font-family") as [v|] eqn:E; [|by left].
    right. cbn [default]. eapply part_of_trans; [apply clean_value_part_of | by apply (Hv _ _ E)].
  - unfold parse_unicode_ranges.
    destruct (face !! $"unicode-range") as [[|c v]|] eqn:E; [by left | | by left].
    right. cbn [falsy default].
    eapply part_of_trans; [apply strip_part_of|].
    eapply part_of_trans; [apply clean_value_part_of | by apply (Hv _ _ E)].
  - apply Hlow.
  - apply (Hlow $"font-style").
Qed.

(** [X17] on the sample: the family of its last descriptor. *)
Lemma descriptor_provenance_witness :
  part_of $"Roboto Mono" sample_css.
Proof.
  destruct (main_outcome sample default_args ∅
              (fun o => descriptors (final o) !! 2 =
                 Some {| resource_name := regular_name; family := $"Roboto Mono";
                         weight := $"normal"; style := $"normal";
                         ranges := $"U+0000-00FF" |})) as (o & Hm & Hd).
  { vm_compute. reflexivity. }
  apply list_elem_of_lookup_2 in Hd.
  destruct (descriptor_provenance sample default_args ∅ o sample_css _ Hm eq_refl Hd)
    as ([H | H] & _); [discriminate H | exact H].
Defined.
